(** * Grammar sampling and search-space operators of NePS, verified

    A shallow embedding of
    - [comprehensive_nas/search_spaces/graph_grammar/cfg.py]
      ([choice], the samplers of [Grammar], [rand_subtree], [remove_subtree]),
    - [comprehensive_nas/search_spaces/numerical/float.py]
      ([FloatHyperparameter]),
    - [neps/search_spaces/numerical/categorical.py] ([CategoricalParameter]),
    - [neps/search_spaces/search_space.py] ([SearchSpace]).

    Python exceptions are values of [exn]; a computation either returns,
    raises, or runs out of the fuel that bounds the model's recursion.
    Floats are modelled by exact rationals ([Qc]) extended with NaN where the
    code tests for it, and [_transform] and [_inv_transform] a second time
    over binary64 floats; the pseudo-random generators are a tape of raw
    variates read through a cursor. *)

From Stdlib Require Import QArith Qcanon Qround Ascii.
From Stdlib Require Floats.
From stdpp Require Import base numbers option list strings gmap.

Local Open Scope Z_scope.

(** ** Python results *)

Module Py.

Inductive exn : Set :=
  | ValueError
  | TypeError
  | IndexError
  | KeyError
  | ZeroDivisionError
  | NotImplementedError
  | Exception.

(** [Diverge] is the model running out of fuel: the Python call is still
    running (or has hit the interpreter's recursion limit). *)
Inductive result (A : Type) : Type :=
  | Ret (a : A)
  | Raise (e : exn)
  | Diverge.

Global Arguments Ret {A} a.
Global Arguments Raise {A} e.
Global Arguments Diverge {A}.

Global Instance exn_eq_dec : EqDecision exn.
Proof. solve_decision. Defined.

Definition is_ret {A} (r : result A) : bool :=
  match r with Ret _ => true | _ => false end.

Definition is_raise {A} (r : result A) : bool :=
  match r with Raise _ => true | _ => false end.

(** The exceptions of a failed draw or of an index out of range. *)
Definition lookup_error (e : exn) : Prop := e = ValueError ∨ e = IndexError.

(** A computation over a mutable store [S]: the store survives an
    exception, as Python's heap and generator state do. *)
Definition M (S A : Type) : Type := S → result A * S.

Definition ret {S A} (a : A) : M S A := λ s, (Ret a, s).
Definition raise {S A} (e : exn) : M S A := λ s, (Raise e, s).
Definition bind {S A B} (m : M S A) (k : A → M S B) : M S B :=
  λ s, match m s with
       | (Ret a, s') => k a s'
       | (Raise e, s') => (Raise e, s')
       | (Diverge, s') => (Diverge, s')
       end.
Definition lift {S A} (r : result A) : M S A := λ s, (r, s).
Definition gets {S A} (f : S → A) : M S A := λ s, (Ret (f s), s).
Definition modify {S} (f : S → S) : M S () := λ s, (Ret (), f s).

(** The result with a function applied to what is returned. *)
Definition rmap {A B} (f : A → B) (r : result A) : result B :=
  match r with
  | Ret a => Ret (f a)
  | Raise e => Raise e
  | Diverge => Diverge
  end.

(** Sequencing of pure, fallible steps. *)
Definition rbind {A B} (r : result A) (k : A → result B) : result B :=
  match r with
  | Ret a => k a
  | Raise e => Raise e
  | Diverge => Diverge
  end.

(** [l[i]] for a Python list, negative indices counting from the end. *)
Definition index {A} (l : list A) (i : Z) : result A :=
  let n := Z.of_nat (length l) in
  let j := if decide (i < 0) then i + n else i in
  if decide (0 ≤ j) then
    match l !! Z.to_nat j with
    | Some a => Ret a
    | None => Raise IndexError
    end
  else Raise IndexError.

End Py.

Import Py.

Declare Scope py_scope.
Delimit Scope py_scope with py.
Notation "'let*' x := m 'in' k" := (Py.bind m (λ x, k))
  (at level 10, x pattern, m at level 100, k at level 200) : py_scope.
Notation "'let+' x := r 'in' k" := (Py.rbind r (λ x, k))
  (at level 10, x pattern, r at level 100, k at level 200) : py_scope.
Local Open Scope py_scope.

(** ** The pseudo-random generators *)

Module Rng.

(** The generator state: a tape of raw variates and the read position.
    Every primitive reads the next raw variate [u]; a uniform primitive needs
    [0 ≤ u < 1] to land in its range. *)
Record rng : Type := mk { tape : nat → Qc; pos : nat }.

Definition next (g : rng) : Qc * rng :=
  (tape g (pos g), {| tape := tape g; pos := S (pos g) |}).

Definition unit_tape (g : rng) : Prop :=
  ∀ n, (0 ≤ tape g n)%Qc ∧ (tape g n < 1)%Qc.

Definition const_tape (u : Qc) : rng := {| tape := λ _, u; pos := 0 |}.

Definition of_list (l : list Qc) : rng :=
  {| tape := λ n, default 0%Qc (l !! n); pos := 0 |}.

(** [np.random.rand()] and [np.random.random()]: a float in [0, 1). *)
Definition rand : M rng Qc :=
  λ g, let '(u, g') := next g in (Ret u, g').

Definition Qc_of_Z (n : Z) : Qc := Q2Qc (inject_Z n).

Definition Qc_floor (q : Qc) : Z := Qfloor (this q).

(** An integer below [n], from one raw variate. *)
Definition randbelow (n : Z) (u : Qc) : Z := Qc_floor (u * Qc_of_Z n)%Qc.

(** [np.random.randint(low, high)]: an integer in [low, high);
    [ValueError] when the range is empty. *)
Definition np_randint (low high : Z) : M rng Z :=
  λ g, if decide (low < high)
       then let '(u, g') := next g in
            (Ret (low + randbelow (high - low) u), g')
       else (Raise ValueError, g).

(** [random.randint(a, b)]: an integer in [a, b], both ends included. *)
Definition randint (a b : Z) : M rng Z :=
  λ g, if decide (a ≤ b)
       then let '(u, g') := next g in
            (Ret (a + randbelow (b - a + 1) u), g')
       else (Raise ValueError, g).

(** A generator call made by code whose store holds more than the
    generator. *)
Definition on_rng {S A} (m : M rng A) : M (S * rng) A :=
  λ '(s, g), let '(r, g') := m g in (r, (s, g')).

End Rng.

Import Rng.

(** ** [choice]: one sample from a multinomial (cfg.py, module level) *)

Module Choice.

(** The loop [for i, p in enumerate(probs)]: the index of the first
    cumulative sum above [x], or [-1] when the loop ends without a break. *)
Fixpoint scan (x cum : Qc) (i : nat) (probs : list Qc) : Z :=
  match probs with
  | [] => -1
  | p :: ps =>
      let cum := (cum + p)%Qc in
      if decide (x < cum)%Qc then Z.of_nat i else scan x cum (S i) ps
  end.

(** [probs = [1 / num] * num], with Python's division by zero. *)
Definition uniform_probs (num : nat) : result (list Qc) :=
  match num with
  | O => Raise ZeroDivisionError
  | S _ => Ret (replicate num (1 / Qc_of_Z (Z.of_nat num))%Qc)
  end.

Definition choice {A} (options : list A) (probs : option (list Qc)) : M rng A :=
  let* x := rand in
  let* probs :=
    match probs with
    | None => lift (uniform_probs (length options))
    | Some ps => ret ps
    end in
  lift (index options (scan x 0%Qc 0 probs)).

Definition sum_probs (probs : list Qc) : Qc := foldr Qcplus 0%Qc probs.

End Choice.

Import Choice.

(** ** Python strings *)

Module PyStr.

Definition space : ascii := " "%char.
Definition lparen : ascii := "("%char.
Definition rparen : ascii := ")"%char.

(** [s.split(" ")]: every single space separates, so consecutive spaces
    give empty tokens and the empty string gives one empty token. *)
Fixpoint split (s : string) : list string :=
  match s with
  | EmptyString => [EmptyString]
  | String c s' =>
      if decide (c = space) then EmptyString :: split s'
      else match split s' with
           | w :: ws => String c w :: ws
           | [] => [String c EmptyString]
           end
  end.

(** [" ".join(l)] *)
Fixpoint join (l : list string) : string :=
  match l with
  | [] => EmptyString
  | [w] => w
  | w :: ws => w +:+ String space (join ws)
  end.

(** [s[:n]] and [s[n:]] for [n ≥ 0]. *)
Fixpoint upto (n : nat) (s : string) : string :=
  match n, s with
  | S n', String c s' => String c (upto n' s')
  | _, _ => EmptyString
  end.

Fixpoint from (n : nat) (s : string) : string :=
  match n, s with
  | S n', String _ s' => from n' s'
  | _, _ => s
  end.

(** Slice bounds of a Python sequence of length [n]: negative bounds count
    from the end, and every bound is clamped to [0, n]. *)
Definition clamp (n : nat) (i : Z) : nat :=
  Z.to_nat (if decide (i < 0) then Z.max 0 (i + Z.of_nat n)
            else Z.min i (Z.of_nat n)).

(** [l[:i]] and [l[i:]] *)
Definition slice_to {A} (l : list A) (i : Z) : list A :=
  List.firstn (clamp (length l) i) l.
Definition slice_from {A} (l : list A) (i : Z) : list A :=
  List.skipn (clamp (length l) i) l.

End PyStr.

(** ** Grammars (the part of [nltk.CFG] that [Grammar] relies on) *)

Module Cfg.

(** A right-hand-side item: an [nltk] [Nonterminal] or a terminal [str]. *)
Inductive symbol : Set :=
  | NT (name : string)
  | T (word : string).

Record production : Set := Production { lhs : string; rhs : list symbol }.

Global Instance symbol_eq_dec : EqDecision symbol.
Proof. solve_decision. Defined.

Global Instance symbol_countable : Countable symbol.
Proof.
  refine (inj_countable'
    (λ s, match s with NT n => inl n | T w => inr w end)
    (λ x, match x with inl n => NT n | inr w => T w end) _).
  by intros [].
Defined.

Global Instance production_eq_dec : EqDecision production.
Proof. solve_decision. Defined.

Global Instance production_countable : Countable production.
Proof.
  refine (inj_countable' (λ p, (lhs p, rhs p)) (λ x, Production x.1 x.2) _).
  by intros [].
Defined.

(** [isinstance(sym, str)] *)
Definition is_terminal (sym : symbol) : bool :=
  match sym with T _ => true | NT _ => false end.

(** [str(sym)] *)
Definition str (sym : symbol) : string :=
  match sym with NT n => n | T w => w end.

(** The grammar object: the rule set with its start symbol, and the sampling
    mode set by [set_convergent], [set_depth_constraints] and
    [set_unconstrained]. *)
Record Grammar : Type := mkGrammar {
  start : string;
  rules : list production;
  convergent : bool;
  depth_constrained : bool;
  depth_constraints : option (gmap string Z)
}.

(** [self.productions(lhs=symbol)]: the rules of [symbol], in rule order. *)
Definition productions (G : Grammar) (symbol : string) : list production :=
  filter (λ p, lhs p = symbol) (rules G).

(** [set_depth_constraints]: the argument is stored as it comes, [None]
    included. *)
Definition set_depth_constraints (G : Grammar)
    (depth_constraints : option (gmap string Z)) : Grammar :=
  {| start := start G; rules := rules G;
     convergent := false; depth_constrained := true;
     depth_constraints := depth_constraints |}.

Definition set_convergent (G : Grammar) : Grammar :=
  {| start := start G; rules := rules G;
     convergent := true; depth_constrained := false;
     depth_constraints := None |}.

Definition set_unconstrained (G : Grammar) : Grammar :=
  {| start := start G; rules := rules G;
     convergent := false; depth_constrained := false;
     depth_constraints := None |}.

(** From [__init__]: the left-hand sides, once per rule. *)
Definition non_unique_nonterminals (G : Grammar) : list string :=
  lhs <$> rules G.

Definition nonterminals (G : Grammar) : list string :=
  remove_dups (non_unique_nonterminals G).

(** The nonterminals with more than one rule. *)
Definition swappable_nonterminals (G : Grammar) : list string :=
  remove_dups
    (filter (λ i, (1 < length (filter (λ j, j = i) (non_unique_nonterminals G)))%nat)
            (non_unique_nonterminals G)).

End Cfg.

Import PyStr Cfg.

(** ** Trees as strings: [rand_subtree] and [remove_subtree] *)

Module Tree.

(** [token[1:]]: the symbol of a token that opens a scope. *)
Definition head (token : string) : string := PyStr.from 1 token.

(** [[i for i in range(0, len(split_tree))
      if split_tree[i][1:] in self.swappable_nonterminals]] *)
Definition swappable_indices (G : Grammar) (split_tree : list string) : list nat :=
  filter (λ i, head (split_tree !!! i) ∈ swappable_nonterminals G)
         (seq 0 (length split_tree)).

Definition rand_subtree (G : Grammar) (tree : string) : M rng (string * Z) :=
  let split_tree := split tree in
  let swappable_indices := swappable_indices G split_tree in
  let* r := np_randint 1 (Z.of_nat (length swappable_indices)) in
  let* chosen := lift (index swappable_indices r) in
  let* token := lift (index split_tree (Z.of_nat chosen)) in
  ret (head token, Z.of_nat chosen).

(** The loop [for char in right] of [remove_subtree]: the value of
    [current_index] when the loop is left. *)
Fixpoint closing (counter : Z) (current_index : nat) (right : string) : nat :=
  match right with
  | EmptyString => current_index
  | String char rest =>
      let counter :=
        if decide (char = lparen) then counter + 1
        else if decide (char = rparen) then counter - 1
        else counter in
      if decide (counter = 0) then current_index
      else closing counter (S current_index) rest
  end.

Definition remove_subtree (tree : string) (index : Z)
  : result (string * string * string) :=
  let split_tree := split tree in
  let pre_subtree := join (slice_to split_tree index) +:+ " " in
  let right := join (slice_from split_tree (index + 1)) in
  let current_index := closing 1 0 right in
  let post_subtree := PyStr.from (S current_index) right in
  let+ token := Py.index split_tree index in
  let removed := token +:+ " " +:+ PyStr.upto (S current_index) right in
  Ret (pre_subtree, removed, post_subtree).

(** *** Bracket structure of a tree string *)

Definition bracket (c : ascii) : Z :=
  if decide (c = lparen) then 1 else if decide (c = rparen) then -1 else 0.

(** Scopes opened minus scopes closed. *)
Fixpoint excess (s : string) : Z :=
  match s with
  | EmptyString => 0
  | String c rest => bracket c + excess rest
  end.

(** Every [(] has a matching [)]: the string closes as many scopes as it
    opens, and no prefix closes more than it has opened. *)
Definition well_bracketed (tree : string) : Prop :=
  excess tree = 0 ∧ ∀ n, 0 ≤ excess (PyStr.upto n tree).

Fixpoint bracket_free (s : string) : bool :=
  match s with
  | EmptyString => true
  | String c rest => bool_decide (bracket c = 0) && bracket_free rest
  end.

(** A token that opens the scope of a nonterminal: [(] and the symbol. *)
Definition opens_scope (token : string) : bool :=
  match token with
  | String c symbol => bool_decide (c = lparen) && bracket_free symbol
  | EmptyString => false
  end.

(** A string that one pair of matching brackets delimits: it is balanced
    and the scope opened first stays open up to the last character. *)
Definition delimited (subtree : string) : Prop :=
  excess subtree = 0 ∧
  ∀ n, (0 < n < String.length subtree)%nat → 0 < excess (PyStr.upto n subtree).

End Tree.

(** ** The samplers of [Grammar] *)

Module Sampler.

(** [sum(weights)]: a left fold from 0. *)
Definition sum (ws : list Qc) : Qc := foldl Qcplus 0%Qc ws.

(** [cfactor ** k] for a float base and an integer exponent. *)
Definition pow (c : Qc) (k : Z) : result Qc :=
  match k with
  | Z0 => Ret 1%Qc
  | Zpos p => Ret (c ^ Pos.to_nat p)%Qc
  | Zneg p =>
      if decide (c = 0%Qc) then Raise ZeroDivisionError
      else Ret (/ (c ^ Pos.to_nat p))%Qc
  end.

(** The loop [for prod in productions] that fills [weights]. *)
Fixpoint weights (cfactor : Qc) (pcount : gmap production Z)
    (productions : list production) : result (list Qc) :=
  match productions with
  | [] => Ret []
  | prod :: rest =>
      let+ w := match pcount !! prod with
                | Some k => pow cfactor k
                | None => Ret 1%Qc
                end in
      let+ ws := weights cfactor pcount rest in
      Ret (w :: ws)
  end.

(** [[weight / norm for weight in weights]] *)
Definition normalize (ws : list Qc) : result (list Qc) :=
  let norm := sum ws in
  match ws with
  | [] => Ret []
  | _ :: _ =>
      if decide (norm = 0%Qc) then Raise ZeroDivisionError
      else Ret ((λ weight, weight / norm)%Qc <$> ws)
  end.

(** The value a [defaultdict(int)] gives for a key. *)
Definition count (pcount : gmap production Z) (prod : production) : Z :=
  default 0 (pcount !! prod).

(** [pcount[production] += d] on a [defaultdict(int)]. *)
Definition bump (d : Z) (prod : production)
    (pcount : gmap production Z) : gmap production Z :=
  <[prod := count pcount prod + d]> pcount.

(** The store of the convergent sampler: the dictionary that is its
    default argument [pcount], and the generator. *)
Definition cstore : Type := gmap production Z * rng.

(** The loop [for sym in production.rhs()] of [_convergent_sampler];
    [rec] is the recursive call. *)
Fixpoint convergent_rhs (rec : string → M cstore (string * Z * Z))
    (syms : list symbol) (tree : string) (depths : list Z) (num_prod : Z)
  : M cstore (string * list Z * Z) :=
  match syms with
  | [] => ret (tree, depths, num_prod)
  | T sym :: rest =>
      convergent_rhs rec rest (tree +:+ " " +:+ sym) depths num_prod
  | NT sym :: rest =>
      let* recursion := rec sym in
      let '(subtree, depth, n) := recursion in
      convergent_rhs rec rest (tree +:+ " " +:+ subtree +:+ ")")
                     (depths ++ [depth]) (num_prod + n)
  end.

(** [max(depths)] for a non-empty list. *)
Definition max_list (depths : list Z) : Z :=
  match depths with
  | [] => 0
  | d :: ds => foldl Z.max d ds
  end.

Fixpoint _convergent_sampler (fuel : nat) (G : Grammar) (cfactor : Qc)
    (symbol : string) : M cstore (string * Z * Z) :=
  match fuel with
  | O => lift Diverge
  | S fuel =>
      let tree := "(" +:+ symbol in
      let productions := productions G symbol in
      let* pcount := gets fst in
      let* weights := lift (weights cfactor pcount productions) in
      let* probs := lift (normalize weights) in
      let* production := on_rng (choice productions (Some probs)) in
      let* _ := modify (prod_map (bump 1 production) id) in
      let* walked :=
        convergent_rhs (_convergent_sampler fuel G cfactor)
                       (rhs production) tree [] 1 in
      let '(tree, depths, num_prod) := walked in
      let depth := if decide (0 < length depths)%nat
                   then max_list depths + 1 else 1 in
      let* _ := modify (prod_map (bump (-1) production) id) in
      ret (tree, depth, num_prod)
  end.

(** The store of the depth-constrained sampler: the dictionary
    [depth_information] that all recursive calls share, and the generator. *)
Definition dstore : Type := gmap string Z * rng.

(** [lhs not in [str(sym) for sym in production.rhs()
                 if not isinstance(sym, str)]] fails. *)
Definition recurses (lhs : string) (prod : production) : Prop :=
  lhs ∈ (str <$> filter (λ sym, is_terminal sym = false) (rhs prod)).

Global Instance recurses_dec lhs prod : Decision (recurses lhs prod).
Proof. unfold recurses. apply _. Defined.

(** The productions left for [symbol] once the depth constraint is
    applied to the incremented dictionary. *)
Definition candidates (G : Grammar) (depth_constraints depth_information : gmap string Z)
    (symbol : string) : list production :=
  let lhs := symbol in
  match depth_constraints !! lhs with
  | Some bound =>
      if decide (bound < default 0 (depth_information !! lhs))
      then filter (λ production, ¬ recurses lhs production) (productions G symbol)
      else productions G symbol
  | None => productions G symbol
  end.

(** The loop [for sym in production.rhs()] of the samplers that return
    the tree alone. *)
Fixpoint plain_rhs {S} (rec : string → M S string)
    (syms : list symbol) (tree : string) : M S string :=
  match syms with
  | [] => ret tree
  | T sym :: rest => plain_rhs rec rest (tree +:+ " " +:+ sym)
  | NT sym :: rest =>
      let* subtree := rec sym in
      plain_rhs rec rest (tree +:+ " " +:+ subtree +:+ ")")
  end.

(** [depth_information[lhs] += 1], or [= 1] for a new key. *)
Definition enter (lhs : string) (depth_information : gmap string Z) : gmap string Z :=
  match depth_information !! lhs with
  | Some k => <[lhs := k + 1]> depth_information
  | None => <[lhs := 1]> depth_information
  end.

(** [depth_information[lhs] -= 1] *)
Definition leave (lhs : string) : M dstore () :=
  λ '(depth_information, g),
    match depth_information !! lhs with
    | Some k => (Ret (), (<[lhs := k - 1]> depth_information, g))
    | None => (Raise KeyError, (depth_information, g))
    end.

Fixpoint _depth_constrained_sampler (fuel : nat) (G : Grammar)
    (depth_constraints : gmap string Z) (symbol : string) : M dstore string :=
  match fuel with
  | O => lift Diverge
  | S fuel =>
      let tree := "(" +:+ symbol in
      let lhs := symbol in
      let* _ := modify (prod_map (enter lhs) id) in
      let* depth_information := gets fst in
      let productions := candidates G depth_constraints depth_information symbol in
      if decide (length productions = 0%nat) then raise Exception
      else
        let* production := on_rng (choice productions None) in
        let* tree :=
          plain_rhs (_depth_constrained_sampler fuel G depth_constraints)
                    (rhs production) tree in
        let* _ := leave lhs in
        ret tree
  end.

Fixpoint _sampler (fuel : nat) (G : Grammar) (symbol : string) : M rng string :=
  match fuel with
  | O => lift Diverge
  | S fuel =>
      let tree := "(" +:+ symbol in
      let productions := productions G symbol in
      let* production := choice productions None in
      plain_rhs (_sampler fuel G) (rhs production) tree
  end.

(** A list comprehension [[f"{body})" for i in range(0, n)]]. *)
Fixpoint repeat_sample {S} (n : nat) (body : M S string) : M S (list string) :=
  match n with
  | O => ret []
  | S n =>
      let* tree := body in
      let* trees := repeat_sample n body in
      ret ((tree +:+ ")") :: trees)
  end.

(** Running a computation on a dictionary of its own next to the shared
    store, as [sampler] does with [depth_information]. *)
Definition with_depth_information {A} (depth_information : gmap string Z)
    (m : M dstore A) : M cstore A :=
  λ '(pcount, g),
    let '(r, (_, g')) := m (depth_information, g) in (r, (pcount, g')).

(** [sampler]: [n] trees from the start symbol (or from [start_symbol]) in
    the mode the grammar is set to. The convergent mode runs on the shared
    default [pcount]. *)
Definition sampler (fuel : nat) (G : Grammar) (n : nat) (cfactor : Qc)
    (depth_information : option (gmap string Z)) (start_symbol : option string)
  : M cstore (list string) :=
  if convergent G && depth_constrained G then raise Exception
  else
    let start_symbol := default (start G) start_symbol in
    if convergent G then
      repeat_sample n
        (let* sample := _convergent_sampler fuel G cfactor start_symbol in
         ret sample.1.1)
    else if depth_constrained G then
      match depth_constraints G with
      | None => raise ValueError
      | Some constraints =>
          with_depth_information (default ∅ depth_information)
            (repeat_sample n
               (_depth_constrained_sampler fuel G constraints start_symbol))
      end
    else on_rng (repeat_sample n (_sampler fuel G start_symbol)).

End Sampler.

(** ** [FloatHyperparameter] (comprehensive_nas, numerical/float.py) *)

Module Float.

(** A Python float: NaN, or a number (kept exact). *)
Inductive float : Set :=
  | nan
  | fin (q : Qc).

Global Instance float_eq_dec : EqDecision float.
Proof. solve_decision. Defined.

(** [a == b] on floats: NaN equals nothing, itself included. *)
Definition feq (a b : float) : bool :=
  match a, b with
  | fin x, fin y => bool_decide (x = y)
  | _, _ => false
  end.

(** [a != b] *)
Definition fne (a b : float) : bool := negb (feq a b).

(** The object. [value] is [None] until the parameter is sampled. *)
Record FloatHyperparameter : Set := mkFloat {
  name : string;
  lower : Qc;
  upper : Qc;
  log : bool;
  value : option float;
  _id : Qc
}.

Definition set_value (v : option float) (hp : FloatHyperparameter) :=
  {| name := name hp; lower := lower hp; upper := upper hp; log := log hp;
     value := v; _id := _id hp |}.

Definition set_id (i : Qc) (hp : FloatHyperparameter) :=
  {| name := name hp; lower := lower hp; upper := upper hp; log := log hp;
     value := value hp; _id := i |}.

(** [__init__] *)
Definition init (name : string) (lower upper : Qc) (log : bool)
  : result FloatHyperparameter :=
  if decide (upper ≤ lower)%Qc then Raise ValueError
  else if log && bool_decide (lower ≤ 0)%Qc then Raise ValueError
  else Ret {| name := name; lower := lower; upper := upper; log := log;
              value := None; _id := (-1)%Qc |}.

(** [__copy__] *)
Definition copy (self : FloatHyperparameter) : result FloatHyperparameter :=
  init (name self) (lower self) (upper self) (log self).

(** Python's [max(a, b)] and [min(a, b)]: the first argument unless the
    second is strictly beyond it. *)
Definition pymax (a b : Qc) : Qc := if decide (a < b)%Qc then b else a.
Definition pymin (a b : Qc) : Qc := if decide (b < a)%Qc then b else a.

(** The value is a number, neither [None] nor NaN. *)
Definition has_number (hp : FloatHyperparameter) : Prop :=
  ∃ q, value hp = Some (fin q).

(** What [__init__] asks of the bounds. *)
Definition valid (hp : FloatHyperparameter) : Prop :=
  (lower hp < upper hp)%Qc ∧ (log hp = true → 0 < lower hp)%Qc.

(** [sys.float_info.max], the largest float. *)
Definition float_max : Qc := Qc_of_Z ((2 ^ 53 - 1) * 2 ^ 971).

(** The value is a number between the bounds, and the bounds are no
    further apart than the largest float, so that neither [upper - lower]
    nor [value - lower] overflows. *)
Definition in_range (hp : FloatHyperparameter) : Prop :=
  (upper hp - lower hp ≤ float_max)%Qc ∧
  ∃ q, value hp = Some (fin q) ∧ (lower hp ≤ q)%Qc ∧ (q ≤ upper hp)%Qc.

(** A neighbour of [self]: its name, bounds and scale, and a number as
    its value. *)
Definition neighbour_of (self hp : FloatHyperparameter) : Prop :=
  name hp = name self ∧ lower hp = lower self ∧ upper hp = upper self ∧
  log hp = log self ∧ has_number hp.

(** [_transform] on the value alone. *)
Definition transform_value (lower upper : Qc) (v : option float)
  : result (option float) :=
  match v with
  | None => Raise TypeError
  | Some nan => Raise ValueError
  | Some (fin x) =>
      if decide (upper - lower = 0)%Qc then Raise ZeroDivisionError
      else Ret (Some (fin ((x - lower) / (upper - lower))%Qc))
  end.

(** [_inv_transform] on the value alone. *)
Definition inv_transform_value (lower upper : Qc) (v : option float)
  : result (option float) :=
  match v with
  | None => Raise TypeError
  | Some nan => Raise ValueError
  | Some (fin x) => Ret (Some (fin (x * (upper - lower) + lower)%Qc))
  end.

(** [_transform] and [_inv_transform]: the object after the call. *)
Definition _transform (self : FloatHyperparameter) : result FloatHyperparameter :=
  let+ v := transform_value (lower self) (upper self) (value self) in
  Ret (set_value v self).

Definition _inv_transform (self : FloatHyperparameter) : result FloatHyperparameter :=
  let+ v := inv_transform_value (lower self) (upper self) (value self) in
  Ret (set_value v self).

Section Numerics.

(** [math.exp], [np.log], and the map from a raw variate to a standard
    normal deviate: none is rational, so they stay abstract. *)
Context (exp ln gauss : Qc → Qc).

(** [np.random.uniform(low, high)] *)
Definition uniform (low high : Qc) : M rng Qc :=
  let* u := rand in ret (low + (high - low) * u)%Qc.

(** [np.random.normal(loc, scale)]: a negative [scale] is refused before
    anything is drawn. *)
Definition normal (loc : float) (scale : Qc) : M rng float :=
  if decide (scale < 0)%Qc then raise ValueError
  else
    let* u := rand in
    ret (match loc with
         | nan => nan
         | fin m => fin (m + scale * gauss u)%Qc
         end).

(** [sample]: the object after the call. *)
Definition sample (self : FloatHyperparameter) : M rng FloatHyperparameter :=
  let* value :=
    if log self then
      let* value := uniform (ln (lower self)) (ln (upper self)) in
      ret (exp value)
    else uniform (lower self) (upper self) in
  let self := set_value (Some (fin (pymin (upper self) (pymax (lower self) value)))) self in
  let* i := rand in
  ret (set_id i self).

(** The loop [while len(neighbours) < num_neighbours] of
    [_get_neighbours]; [self] holds the transformed value. *)
Fixpoint neighbours_loop (fuel : nat) (self : FloatHyperparameter) (std : Qc)
    (num_neighbours : nat) (neighbours : list FloatHyperparameter)
  : M rng (list FloatHyperparameter) :=
  if decide (length neighbours < num_neighbours)%nat then
    match fuel with
    | O => lift Diverge
    | S fuel =>
        let* loc := lift (match value self with
                          | Some v => Ret v
                          | None => Raise TypeError
                          end) in
        let* n_val := normal loc std in
        match n_val with
        | fin x =>
            if decide (x < 0 ∨ 1 < x)%Qc
            then neighbours_loop fuel self std num_neighbours neighbours
            else
              let* neighbour := lift (copy self) in
              let neighbour := set_value (Some n_val) neighbour in
              let* neighbour := lift (_inv_transform neighbour) in
              let* i := rand in
              neighbours_loop fuel self std num_neighbours
                              (neighbours ++ [set_id i neighbour])
        | nan =>
            let* neighbour := lift (copy self) in
            let neighbour := set_value (Some n_val) neighbour in
            let* neighbour := lift (_inv_transform neighbour) in
            let* i := rand in
            neighbours_loop fuel self std num_neighbours
                            (neighbours ++ [set_id i neighbour])
        end
    end
  else ret neighbours.

(** The store of a method that changes [self] in place: the object and the
    generator. *)
Definition fstore : Type := FloatHyperparameter * rng.

(** A step that replaces [self], or raises and leaves it as it is. *)
Definition update_self (f : FloatHyperparameter → result FloatHyperparameter)
  : M fstore () :=
  λ '(self, g), match f self with
                | Ret self' => (Ret (), (self', g))
                | Raise e => (Raise e, (self, g))
                | Diverge => (Diverge, (self, g))
                end.

Definition _get_neighbours (fuel : nat) (std : Qc) (num_neighbours : nat)
  : M fstore (list FloatHyperparameter) :=
  let* _ := update_self _transform in
  let* self := gets fst in
  let* neighbours := on_rng (neighbours_loop fuel self std num_neighbours []) in
  let* _ := update_self _inv_transform in
  ret neighbours.

Inductive strategy : Set :=
  | simple
  | local_search
  | other (s : string).

(** [mutate]. [parent = None] stands for [self], read when the child is
    compared, after [self] went through [_get_neighbours]. *)
Definition mutate (fuel : nat) (parent : option FloatHyperparameter)
    (mutation_strategy : strategy) : M fstore FloatHyperparameter :=
  let* child :=
    match mutation_strategy with
    | simple =>
        let* self := gets fst in
        let* child := lift (copy self) in
        on_rng (sample child)
    | local_search =>
        let* neighbours := _get_neighbours fuel (Q2Qc (2 # 10)) 1 in
        lift (index neighbours 0)
    | other _ => raise NotImplementedError
    end in
  let* self := gets fst in
  let parent := default self parent in
  let same := match value parent, value child with
              | Some a, Some b => feq a b
              | None, None => true
              | _, _ => false
              end in
  if same then raise ValueError else ret child.

(** [crossover] *)
Definition crossover (self parent1 : FloatHyperparameter)
    (parent2 : option FloatHyperparameter)
  : result (FloatHyperparameter * FloatHyperparameter) :=
  Raise NotImplementedError.

End Numerics.

End Float.

(** ** [_transform] and [_inv_transform] over binary64 floats *)

Module Binary64.

Import Floats.
Local Open Scope float_scope.

(** [_transform] on the value alone, with the arithmetic of the machine:
    [value != value] holds of NaN alone, and Python's division raises for
    a divisor that is zero. *)
Definition transform_value (lower upper value : float) : result float :=
  if negb (value =? value) then Raise ValueError
  else if upper - lower =? 0 then Raise ZeroDivisionError
  else Ret ((value - lower) / (upper - lower)).

(** [_inv_transform] on the value alone. *)
Definition inv_transform_value (lower upper value : float) : result float :=
  if negb (value =? value) then Raise ValueError
  else Ret (value * (upper - lower) + lower).

End Binary64.

(** ** [CategoricalParameter] (neps, numerical/categorical.py) *)

Module Categorical.

Section Choices.

(** The type of the choices, with Python's [==] on it. *)
Context {V : Type} `{EqDecision V}.

Record CategoricalParameter : Type := mkCategorical {
  choices : list V;
  num_choices : nat;
  probabilities : list Qc;
  value : option V
}.

Definition set_value (v : option V) (hp : CategoricalParameter) :=
  {| choices := choices hp; num_choices := num_choices hp;
     probabilities := probabilities hp; value := v |}.

(** The attributes that [__init__] sets for a list of choices that is not
    empty: [probabilities = np.ones(n) * (1.0 / n)], no value. *)
Definition constructed (choices : list V) : CategoricalParameter :=
  let n := length choices in
  {| choices := choices; num_choices := n;
     probabilities := replicate n (1 / Qc_of_Z (Z.of_nat n))%Qc;
     value := None |}.

(** [__init__]: [1.0 / self.num_choices] is Python's division, which raises
    [ZeroDivisionError] for an empty list of choices. *)
Definition init (choices : list V) : result CategoricalParameter :=
  match choices with
  | [] => Raise ZeroDivisionError
  | _ :: _ => Ret (constructed choices)
  end.

(** [__copy__] of an object with a choice, for which
    [self.__class__(choices=self.choices)] does not raise. *)
Definition copy (self : CategoricalParameter) : CategoricalParameter :=
  constructed (choices self).

(** [np.cumsum] *)
Fixpoint cumsum (acc : Qc) (p : list Qc) : list Qc :=
  match p with
  | [] => []
  | x :: xs => (acc + x)%Qc :: cumsum (acc + x)%Qc xs
  end.

(** [np.random.choice(a=n, replace=True, p=p)]: the number of entries of
    the normalised cumulative sums that are at most the uniform draw;
    [ValueError] for [n = 0]. *)
Definition np_choice (n : nat) (p : list Qc) : M rng Z :=
  match n with
  | O => raise ValueError
  | S _ =>
      let cdf := cumsum 0%Qc p in
      let total := List.last cdf 1%Qc in
      let* u := rand in
      ret (Z.of_nat (length (filter (λ c, c / total ≤ u)%Qc cdf)))
  end.

(** [sample]: the object after the call. *)
Definition sample (self : CategoricalParameter) : M rng CategoricalParameter :=
  let* idx := np_choice (num_choices self) (probabilities self) in
  let* v := lift (index (choices self) idx) in
  ret (set_value (Some v) self).

(** [x[i], x[j] = x[j], x[i]] *)
Definition swap (i j : nat) (x : list V) : list V :=
  match x !! i, x !! j with
  | Some a, Some b => <[j := a]> (<[i := b]> x)
  | _, _ => x
  end.

(** [random.shuffle]: for [i] from the last index down to 1, swap the
    items at [i] and at a random index up to [i]. *)
Fixpoint shuffle_from (i : nat) (x : list V) : M rng (list V) :=
  match i with
  | O => ret x
  | S i' =>
      let* u := rand in
      let j := Z.to_nat (randbelow (Z.of_nat (S i)) u) in
      shuffle_from i' (swap i j x)
  end.

Definition shuffle (x : list V) : M rng (list V) :=
  shuffle_from (length x - 1) x.

(** [choice == self.value] *)
Definition is_value (self : CategoricalParameter) (choice : V) : bool :=
  match value self with
  | Some v => bool_decide (choice = v)
  | None => false
  end.

(** The loop [while len(neighbours) < num_neighbours] of
    [_get_neighbours], with its counter [idx] into the shuffled choices. *)
Fixpoint neighbours_loop (fuel : nat) (self : CategoricalParameter)
    (shuffled : list V) (num_neighbours : nat) (idx : nat)
    (neighbours : list CategoricalParameter)
  : M rng (list CategoricalParameter) :=
  if decide (length neighbours < num_neighbours)%nat then
    match fuel with
    | O => lift Diverge
    | S fuel =>
        let* picked :=
          if decide (Z.of_nat (num_choices self) - 1 < Z.of_nat num_neighbours) then
            let* r := np_randint 0 (Z.of_nat (num_choices self)) in
            let* choice := lift (index (choices self) r) in
            ret (choice, idx)
          else
            let* choice := lift (index shuffled (Z.of_nat idx)) in
            ret (choice, S idx) in
        let '(choice, idx) := picked in
        if is_value self choice
        then neighbours_loop fuel self shuffled num_neighbours idx neighbours
        else
          let neighbour := set_value (Some choice) (copy self) in
          neighbours_loop fuel self shuffled num_neighbours idx
                          (neighbours ++ [neighbour])
    end
  else ret neighbours.

Definition _get_neighbours (fuel : nat) (self : CategoricalParameter)
    (num_neighbours : nat) : M rng (list CategoricalParameter) :=
  let* shuffled := shuffle (choices self) in
  neighbours_loop fuel self shuffled num_neighbours 0 [].

Inductive strategy : Set :=
  | simple
  | local_search
  | other (s : string).

(** [mutate]; [parent = None] stands for [self]. *)
Definition mutate (fuel : nat) (self : CategoricalParameter)
    (parent : option CategoricalParameter) (mutation_strategy : strategy)
  : M rng CategoricalParameter :=
  let parent := default self parent in
  let* child :=
    match mutation_strategy with
    | simple => sample (copy self)
    | local_search =>
        let* neighbours := _get_neighbours fuel self 1 in
        lift (index neighbours 0)
    | other _ => raise NotImplementedError
    end in
  if bool_decide (value parent = value child) then raise ValueError
  else ret child.

(** [crossover]: the body is [pass], so the call returns [None]. *)
Definition crossover (self parent1 : CategoricalParameter)
    (parent2 : option CategoricalParameter)
  : result (option (CategoricalParameter * CategoricalParameter)) :=
  Ret None.

End Choices.

Global Arguments CategoricalParameter V : clear implicits.

End Categorical.

(** *** Neighbours of a [CategoricalParameter] *)

Module CategoricalShape.

Import Categorical.

Section Neighbours.

Context {V : Type} `{EqDecision V}.

(** A neighbour of [self]: a copy that holds another of the choices. *)
Definition other_choice (self nb : CategoricalParameter V) : Prop :=
  choices nb = choices self ∧ num_choices nb = length (choices self) ∧
  ∃ v, value nb = Some v ∧ v ∈ choices self ∧ Some v ≠ value self.

End Neighbours.

End CategoricalShape.

(** ** [SearchSpace] (neps, search_space.py) *)

Module SearchSpace.

(** What [SearchSpace] asks of a hyperparameter object. [H] is the part of
    the Python heap that the object's methods may change; [P] is the object
    (or a reference to it in [H]). *)
Class Hyperparameter (H P : Type) : Type := {
  (** [isinstance(hp, NumericalParameter)] *)
  is_numerical : P → bool;
  (** [hp.mutate()] *)
  hp_mutate : P → M (H * rng) P;
  (** [hp.crossover(other)]: absent when [hasattr(hp, "crossover")] is
      false; a call that returns [None] returned Python's [None]. *)
  hp_crossover : P → option (P → M (H * rng) (option (P * P)))
}.

Section Space.

Context {H P : Type} {ops : Hyperparameter H P}.

Record SearchSpace : Type := mkSpace {
  _num_hps : nat;
  hyperparameters : list (string * P);
  _hps : list P;
  _graphs : list P
}.

(** [dict(pairs)]: a later pair with a key already present replaces the
    value and keeps the place. *)
Fixpoint dict_set (key : string) (v : P) (d : list (string * P)) : list (string * P) :=
  match d with
  | [] => [(key, v)]
  | (k, x) :: rest =>
      if decide (k = key) then (k, v) :: rest else (k, x) :: dict_set key v rest
  end.

Definition dict (pairs : list (string * P)) : list (string * P) :=
  foldl (λ d kv, dict_set kv.1 kv.2 d) [] pairs.

(** [d[key]] *)
Definition dict_get (d : list (string * P)) (key : string) : result P :=
  match list_find (λ kv, kv.1 = key) d with
  | Some (_, (_, v)) => Ret v
  | None => Raise KeyError
  end.

(** [__init__], called with the hyperparameters as keyword arguments. *)
Definition init (kwargs : list (string * P)) : SearchSpace :=
  {| _num_hps := length kwargs;
     hyperparameters := kwargs;
     _hps := filter (λ hp, is_numerical hp = true) (kwargs.*2);
     _graphs := filter (λ hp, is_numerical hp = false) (kwargs.*2) |}.

Definition keys (self : SearchSpace) : list string := (hyperparameters self).*1.

(** [get_array] *)
Definition get_array (self : SearchSpace) : list P := (hyperparameters self).*2.

(** A new [SearchSpace] from [dict(zip(self.hyperparameters.keys(),
    new_config))]. *)
Definition child_of (self : SearchSpace) (new_config : list P) : SearchSpace :=
  init (dict (zip (keys self) new_config)).

(** The loop [while patience > 0] of [_smbo_mutation]; [patience] counts
    the attempts that are left. *)
Fixpoint mutation_attempts (patience : nat) (hp : P) (idx : nat)
    (new_config : list P) : M (H * rng) (list P) :=
  match patience with
  | O => ret new_config
  | S patience =>
      λ s, match hp_mutate hp s with
           | (Ret child, s') => (Ret (<[idx := child]> new_config), s')
           | (Raise _, s') => mutation_attempts patience hp idx new_config s'
           | (Diverge, s') => (Diverge, s')
           end
  end.

Definition _smbo_mutation (self : SearchSpace) (patience : Z) : M (H * rng) (list P) :=
  let new_config := get_array self in
  let* idx := on_rng (randint 0 (Z.of_nat (_num_hps self) - 1)) in
  let* hp := lift (index new_config idx) in
  mutation_attempts (Z.to_nat patience) hp (Z.to_nat idx) new_config.

Definition mutate (self : SearchSpace) (patience : Z) (mutation_strategy : string)
  : M (H * rng) SearchSpace :=
  if decide (mutation_strategy = "smbo") then
    let* new_config := _smbo_mutation self patience in
    ret (child_of self new_config)
  else raise NotImplementedError.

(** The loop [while patience > 0] of [_simple_crossover] for one
    hyperparameter: the patience that is left, and the pair appended to the
    two new configurations, if any. [other] is
    [config2.hyperparameters[key]]. *)
Fixpoint crossover_attempts (patience : nat) (hyperparameter : P)
    (cross : P → M (H * rng) (option (P * P))) (other : result P)
  : M (H * rng) (nat * option (P * P)) :=
  match patience with
  | O => ret (O, None)
  | S patience' =>
      match other with
      | Ret o =>
          λ s, match cross o s with
               | (Ret (Some children), s') => (Ret (patience, Some children), s')
               | (Ret None, s') =>
                   crossover_attempts patience' hyperparameter cross other s'
               | (Raise NotImplementedError, s') =>
                   (Ret (patience, Some (hyperparameter, o)), s')
               | (Raise _, s') =>
                   crossover_attempts patience' hyperparameter cross other s'
               | (Diverge, s') => (Diverge, s')
               end
      | Raise _ => crossover_attempts patience' hyperparameter cross other
      | Diverge => lift Diverge
      end
  end.

(** The loop [for key, hyperparameter in self.hyperparameters.items()] *)
Fixpoint crossover_items (items : list (string * P)) (config2 : SearchSpace)
    (probability : Qc) (patience : nat) (new_config1 new_config2 : list P)
  : M (H * rng) (list P * list P) :=
  match items with
  | [] => ret (new_config1, new_config2)
  | (key, hyperparameter) :: rest =>
      let other := dict_get (hyperparameters config2) key in
      let* attempt :=
        match hp_crossover hyperparameter with
        | Some cross =>
            let* u := on_rng rand in
            ret (if decide (u < probability)%Qc then Some cross else None)
        | None => ret None
        end in
      match attempt with
      | Some cross =>
          let* outcome := crossover_attempts patience hyperparameter cross other in
          match outcome with
          | (patience, Some (child1, child2)) =>
              crossover_items rest config2 probability patience
                              (new_config1 ++ [child1]) (new_config2 ++ [child2])
          | (patience, None) =>
              crossover_items rest config2 probability patience
                              new_config1 new_config2
          end
      | None =>
          let* o := lift other in
          crossover_items rest config2 probability patience
                          (new_config1 ++ [hyperparameter]) (new_config2 ++ [o])
      end
  end.

Definition _simple_crossover (self config2 : SearchSpace)
    (crossover_probability_per_hyperparameter : Qc) (patience : Z)
  : M (H * rng) (list P * list P) :=
  crossover_items (hyperparameters self) config2
                  crossover_probability_per_hyperparameter
                  (Z.to_nat patience) [] [].

Definition crossover (self config2 : SearchSpace)
    (crossover_probability_per_hyperparameter : Qc) (patience : Z)
    (crossover_strategy : string) : M (H * rng) (SearchSpace * SearchSpace) :=
  if decide (crossover_strategy = "simple") then
    let* new_configs :=
      _simple_crossover self config2 crossover_probability_per_hyperparameter
                        patience in
    ret (child_of self new_configs.1, child_of self new_configs.2)
  else raise NotImplementedError.

End Space.

Global Arguments SearchSpace P : clear implicits.

End SearchSpace.

(** ** The other methods of [Grammar] (cfg.py) *)

Module Methods.

Import Tree Sampler.

(** From [__init__]: the strings of the right-hand-side items that are not
    among the nonterminals. Python builds it as a set; only membership is
    read from it. *)
Definition terminals (G : Grammar) : list string :=
  remove_dups
    (filter (λ individual, individual ∉ nonterminals G)
            (prod ← rules G; str <$> rhs prod)).

(** The loop [for nt in self.nonterminals] of [check_grammar]. *)
Fixpoint check_productions (G : Grammar) (nts : list string) : result () :=
  match nts with
  | [] => Ret ()
  | nt :: rest =>
      if decide (length (productions G nt) = 0%nat) then Raise Exception
      else check_productions G rest
  end.

(** [check_grammar] *)
Definition check_grammar (G : Grammar) : result () :=
  if decide (0 < length (filter (λ t, t ∈ nonterminals G) (terminals G)))%nat
  then Raise Exception
  else check_productions G (nonterminals G).

(** [sampler_maxMin_func]: the last or the first production at every
    nonterminal. It reads no store; [S] is whatever the caller runs on. *)
Fixpoint sampler_maxMin_func {S} (fuel : nat) (G : Grammar) (symbol : string)
    (largest : bool) : M S string :=
  match fuel with
  | O => lift Diverge
  | S fuel =>
      let tree := "(" +:+ symbol in
      let productions := productions G symbol in
      let* production := lift (index productions (if largest then -1 else 0)) in
      plain_rhs (λ sym, sampler_maxMin_func fuel G sym largest)
                (rhs production) tree
  end.

(** The calls that set the sampling mode, and a grammar as [__init__]
    leaves it. *)
Inductive mode_call : Type :=
  | SetDepthConstraints (depth_constraints : option (gmap string Z))
  | SetConvergent
  | SetUnconstrained.

Definition call (G : Grammar) (c : mode_call) : Grammar :=
  match c with
  | SetDepthConstraints dc => set_depth_constraints G dc
  | SetConvergent => set_convergent G
  | SetUnconstrained => set_unconstrained G
  end.

Definition fresh (G : Grammar) : Prop :=
  convergent G = false ∧ depth_constrained G = false ∧ depth_constraints G = None.

(** The draws that make [choice] pick the first option: every variate
    is 0. *)
Definition lowest_draws (g : rng) : Prop := ∀ k, tape g k = 0%Qc.

(** A result with the failure of [choice] on no options in place of any
    other. *)
Definition as_choice_failure {A} (r : result A) : result A :=
  match r with
  | Raise _ => Raise ZeroDivisionError
  | _ => r
  end.

(** *** Enumeration: [_generate_one], [_generate_all], [_generate],
    [generator]. A Python generator is modelled by the list of what it
    yields, in order. *)

(** [_generate_all], with [one] for [self._generate_one(_, depth)]. *)
Fixpoint generate_all_with (one : symbol → list (list string))
    (items : list symbol) : list (list string) :=
  match items with
  | [] => [[]]
  | item :: rest =>
      frag1 ← one item;
      frag2 ← generate_all_with one rest;
      [frag1 ++ frag2]
  end.

Fixpoint _generate_one (G : Grammar) (depth : nat) (item : symbol)
  : list (list string) :=
  match depth with
  | O => []
  | S depth' =>
      match item with
      | NT name =>
          prod ← productions G name;
          generate_all_with (_generate_one G depth') (rhs prod)
      | T word => [[word]]
      end
  end.

Definition _generate_all (G : Grammar) (items : list symbol) (depth : nat)
  : list (list string) :=
  generate_all_with (_generate_one G depth) items.

(** [sys.maxsize] *)
Definition maxsize : Z := 9223372036854775807.

(** [_generate]: [start] and [depth] default when they are [None];
    [itertools.islice(iter_prod, n)] is applied when [n] is truthy, and
    refuses an [n] outside [0, sys.maxsize]. *)
Definition _generate (G : Grammar) (start : option string) (depth n : option Z)
  : result (list (list string)) :=
  let start := default (Cfg.start G) start in
  let depth := default maxsize depth in
  let iter_prod := _generate_all G [NT start] (Z.to_nat depth) in
  match n with
  | None => Ret iter_prod
  | Some n =>
      if decide (n = 0) then Ret iter_prod
      else if decide (n < 0 ∨ maxsize < n) then Raise ValueError
      else Ret (take (Z.to_nat n) iter_prod)
  end.

(** [generator] *)
Definition generator (G : Grammar) (n depth : Z) : result (list string) :=
  let+ sentences := _generate G None (Some depth) (Some n) in
  Ret (join <$> sentences).

(** *** Depths of the scopes of a tree string *)

(** [{nt: 0 for nt in self.nonterminals}] *)
Definition zero_depths (G : Grammar) : gmap string Z :=
  list_to_map ((λ nt, (nt, 0)) <$> nonterminals G).

(** The loop [while split[-1] == ")"], over the characters of the token
    from the last one backwards; [q_nonterminals] has its last item
    first. *)
Fixpoint close_scopes (reversed : string) (depths : gmap string Z)
    (q_nonterminals : list string) : result (gmap string Z * list string) :=
  match reversed with
  | EmptyString => Raise IndexError
  | String c rest =>
      if decide (c = rparen) then
        match q_nonterminals with
        | [] => Raise IndexError
        | nt :: q_nonterminals =>
            match depths !! nt with
            | Some k => close_scopes rest (<[nt := k - 1]> depths) q_nonterminals
            | None => Raise KeyError
            end
        end
      else Ret (depths, q_nonterminals)
  end.

(** The loop [for split in tree.split(" ")] of
    [compute_depth_information_for_pre]. *)
Fixpoint depth_pre_loop (tokens : list string) (depth_information : gmap string Z)
    (q_nonterminals : list string) : result (gmap string Z) :=
  match tokens with
  | [] => Ret depth_information
  | EmptyString :: rest => depth_pre_loop rest depth_information q_nonterminals
  | String c symbol as split :: rest =>
      if decide (c = lparen) then
        match depth_information !! symbol with
        | Some k =>
            depth_pre_loop rest (<[symbol := k + 1]> depth_information)
                           (symbol :: q_nonterminals)
        | None => Raise KeyError
        end
      else
        let+ closed := close_scopes (String.rev split) depth_information
                                    q_nonterminals in
        depth_pre_loop rest closed.1 closed.2
  end.

Definition compute_depth_information_for_pre (G : Grammar) (tree : string)
  : result (gmap string Z) :=
  depth_pre_loop (split tree) (zero_depths G) [].

(** The loop [for i, split in enumerate(split_tree)] of
    [compute_depth_information]. *)
Fixpoint depth_loop (i : nat) (tokens : list string) (depth_information : list Z)
    (helper_dict : gmap string Z) (q_nonterminals : list string)
  : result (list Z) :=
  match tokens with
  | [] => Ret depth_information
  | EmptyString :: rest =>
      depth_loop (S i) rest depth_information helper_dict q_nonterminals
  | String c symbol as split :: rest =>
      if decide (c = lparen) then
        match helper_dict !! symbol with
        | Some k =>
            depth_loop (S i) rest (<[i := k + 1]> depth_information)
                       (<[symbol := k + 1]> helper_dict)
                       (symbol :: q_nonterminals)
        | None => Raise KeyError
        end
      else
        let+ closed := close_scopes (String.rev split) helper_dict
                                    q_nonterminals in
        depth_loop (S i) rest depth_information closed.1 closed.2
  end.

Definition compute_depth_information (G : Grammar) (tree : string)
  : result (list Z) :=
  let split_tree := split tree in
  depth_loop 0 split_tree (replicate (length split_tree) 0) (zero_depths G) [].

(** What [rand_subtree_fixed_head] returns: [False], or an index. *)
Inductive index_or_false : Set :=
  | PyFalse
  | Index (i : nat).

Definition rand_subtree_fixed_head (G : Grammar) (tree head_node : string)
    (head_node_depth_constraint : Z) : M rng index_or_false :=
  let split_tree := split tree in
  let* swappable_indicies :=
    if depth_constrained G then
      let* depth_information := lift (compute_depth_information G tree) in
      ret (filter (λ i, head (split_tree !!! i) = head_node ∧
                        head_node_depth_constraint ≤ depth_information !!! i)
                  (seq 0 (length split_tree)))
    else
      ret (filter (λ i, head (split_tree !!! i) = head_node)
                  (seq 0 (length split_tree))) in
  if decide (length swappable_indicies = 0%nat) then ret PyFalse
  else
    let* r :=
      if decide (1 < length swappable_indicies)%nat
      then np_randint 1 (Z.of_nat (length swappable_indicies))
      else ret 0 in
    let* chosen_non_terminal_index := lift (index swappable_indicies r) in
    ret (Index chosen_non_terminal_index).

End Methods.

(** ** The shape of sampled trees *)

Module Shape.

Import Tree.

(** No word of the grammar holds a bracket: neither a left-hand side nor a
    terminal. *)
Definition plain_words (G : Grammar) : bool :=
  forallb (λ prod,
             bracket_free (lhs prod) &&
             forallb (λ sym, match sym with
                             | T word => bracket_free word
                             | NT _ => true
                             end) (rhs prod))
          (rules G).

(** A tree as the recursive samplers return it, the bracket that closes
    its root still missing: one scope is open at the end, and at least one
    after every character. *)
Definition open_tree (tree : string) : Prop :=
  excess tree = 1 ∧ ∀ n, (0 < n)%nat → 0 < excess (PyStr.upto n tree).

(** The dictionary of depths counts, for every key, the scopes of that
    nonterminal among those that are open. *)
Definition counts_open (depths : gmap string Z) (q_nonterminals : list string) : Prop :=
  ∀ nt k, depths !! nt = Some k →
          k = Z.of_nat (length (filter (λ x, x = nt) q_nonterminals)).

(** The number of closing brackets at the end of a token, counted on the
    token read backwards. *)
Fixpoint closes (reversed : string) : nat :=
  match reversed with
  | String c rest => if decide (c = rparen) then S (closes rest) else 0
  | EmptyString => 0
  end.

(** The scopes that a sequence of tokens leaves open, the innermost
    first: a token that starts with a bracket opens the scope of its
    symbol, and every other token closes as many scopes as it ends with
    closing brackets. *)
Fixpoint open_scopes (tokens : list string) (opened : list string) : list string :=
  match tokens with
  | [] => opened
  | EmptyString :: rest => open_scopes rest opened
  | String c symbol as token :: rest =>
      if decide (c = lparen) then open_scopes rest (symbol :: opened)
      else open_scopes rest (drop (closes (String.rev token)) opened)
  end.

(** [split[0] == "("] *)
Definition starts_scope (token : string) : bool :=
  match token with
  | String c _ => bool_decide (c = lparen)
  | EmptyString => false
  end.

(** What the recursive samplers keep: a tree that is returned is open. *)
Definition returns_open {S} : result string → S → Prop :=
  λ r _, ∀ tree, r = Ret tree → open_tree tree.

(** What [sampler_maxMin_func] keeps: the store as it was, and no
    exception but [IndexError]. *)
Definition keeps {S} (st : S) : result string → S → Prop :=
  λ r st', st' = st ∧ ∀ e, r = Raise e → e = IndexError.

End Shape.

(** ** Convergent sampling: the uses of a production on the path *)

Module PathWeights.

Import Sampler.

(** How often a production was used on the path from the root to the
    current node ([path] lists the productions of the ancestors). *)
Definition uses (path : list production) (prod : production) : nat :=
  length (filter (λ used, used = prod) path).

(** The selection weight: [cfactor ** usage_count], which is 1 for a
    production never used on the path. *)
Definition path_weight (cfactor : Qc) (path : list production)
    (prod : production) : Qc :=
  (cfactor ^ uses path prod)%Qc.

(** Two dictionaries that give every production the same count. *)
Definition agree (pcount1 pcount2 : gmap production Z) : Prop :=
  ∀ prod, count pcount1 prod = count pcount2 prod.

(** The counts of a dictionary are the uses on a path. *)
Definition counts_path (pcount : gmap production Z) (path : list production) : Prop :=
  ∀ prod, count pcount prod = Z.of_nat (uses path prod).

(** What [_convergent_sampler] returns for the walk of a right-hand
    side. *)
Definition finish (walked : string * list Z * Z) : string * Z * Z :=
  let '(tree, depths, num_prod) := walked in
  (tree, if decide (0 < length depths)%nat then max_list depths + 1 else 1, num_prod).

(** A run that returns has left the counts of [pcount]. *)
Definition restores {A} (run : result A * cstore) (pcount : gmap production Z) : Prop :=
  match run with
  | (Ret _, (pcount', _)) => agree pcount' pcount
  | _ => True
  end.

(** Two runs with the same result, the same generator state and the same
    counts at the end. *)
Definition same_outcome {A} (run1 run2 : result A * cstore) : Prop :=
  run1.1 = run2.1 ∧ run1.2.2 = run2.2.2 ∧ agree run1.2.1 run2.2.1.

(** The body of the list comprehension of [sampler] in convergent mode. *)
Definition convergent_body (fuel : nat) (G : Grammar) (cfactor : Qc)
    (start_symbol : string) : M cstore string :=
  let* sample := _convergent_sampler fuel G cfactor start_symbol in
  Py.ret sample.1.1.

End PathWeights.

(** ** Reasoning about computations *)

Module Logic.

(** [wp m Q s]: running [m] from the store [s] ends in a result and a
    store that satisfy [Q]. *)
Definition wp {S A} (m : M S A) (Q : result A → S → Prop) (s : S) : Prop :=
  Q (m s).1 (m s).2.

(** What [Q] asks of the rest of a computation after a first step. *)
Definition after {S A B} (k : A → M S B) (Q : result B → S → Prop)
  : result A → S → Prop :=
  λ r s, match r with
         | Ret a => wp (k a) Q s
         | Raise e => Q (Raise e) s
         | Diverge => Q Diverge s
         end.

End Logic.

(** ** Hyperparameter objects in a search space, and concrete inputs *)

Module Examples.

Import SearchSpace.

(** [CategoricalParameter] as a hyperparameter of a [SearchSpace]:
    [hp.mutate()] is the call with the default arguments. *)
Definition categorical_parameter {V} `{EqDecision V} (fuel : nat)
  : Hyperparameter () (Categorical.CategoricalParameter V) :=
  {| is_numerical := λ _, true;
     hp_mutate := λ hp,
       on_rng (Categorical.mutate fuel hp None Categorical.local_search);
     hp_crossover := λ hp,
       Some (λ other, Py.lift (Categorical.crossover hp other None)) |}.

(** [FloatHyperparameter] as a hyperparameter of a [SearchSpace]; the
    class is not a [NumericalParameter] of [neps]. The object is held by
    value, so what [mutate] does to [self] on the way is not kept;
    [crossover] raises. *)
Definition float_parameter (exp ln gauss : Qc → Qc) (fuel : nat)
  : Hyperparameter () Float.FloatHyperparameter :=
  {| is_numerical := λ _, false;
     hp_mutate := λ hp '(h, g),
       let '(r, (_, g')) :=
         Float.mutate exp ln gauss fuel None Float.local_search (hp, g) in
       (r, (h, g'));
     hp_crossover := λ hp,
       Some (λ other, Py.lift (Py.rmap Some (Float.crossover hp other None))) |}.

(** The same objects with the calls of [mutate] counted in the store. *)
Definition counted {H P} (ops : Hyperparameter H P) : Hyperparameter (nat * H) P :=
  {| is_numerical := is_numerical;
     hp_mutate := λ hp '((calls, h), g),
       let '(r, (h', g')) := hp_mutate hp (h, g) in (r, ((S calls, h'), g'));
     hp_crossover := λ hp,
       (λ cross other '((calls, h), g),
          let '(r, (h', g')) := cross other (h, g) in (r, ((calls, h'), g')))
       <$> hp_crossover hp |}.

Definition half : Qc := Q2Qc (1 # 2).

(** The grammar [S -> S '+' T | T], [T -> '1' | '2']. *)
Definition arithmetic : Grammar :=
  {| start := "S";
     rules := [Production "S" [NT "S"; T "+"; NT "T"];
               Production "S" [NT "T"];
               Production "T" [T "1"];
               Production "T" [T "2"]];
     convergent := false; depth_constrained := false;
     depth_constraints := None |}.

(** The same with one rule for [T], so that only [S] is swappable. *)
Definition unary : Grammar :=
  {| start := "S";
     rules := [Production "S" [NT "S"; T "+"; NT "T"];
               Production "S" [NT "T"];
               Production "T" [T "1"]];
     convergent := false; depth_constrained := false;
     depth_constraints := None |}.

(** [S -> S '+'] alone: every rule of [S] recurses. *)
Definition looping : Grammar :=
  {| start := "S";
     rules := [Production "S" [NT "S"; T "+"]];
     convergent := false; depth_constrained := false;
     depth_constraints := None |}.

(** [S -> A 'x'] alone: [A] has no rule of its own. *)
Definition dangling : Grammar :=
  {| start := "S";
     rules := [Production "S" [NT "A"; T "x"]];
     convergent := false; depth_constrained := false;
     depth_constraints := None |}.

(** [CategoricalParameter(choices=[1, 2, 3])] with a value. *)
Definition one_two_three (v : Z) : Categorical.CategoricalParameter Z :=
  Categorical.set_value (Some v) (Categorical.constructed [1; 2; 3]).

(** [CategoricalParameter(choices=[1, 1])] after [sample()]. *)
Definition one_one : Categorical.CategoricalParameter Z :=
  Categorical.set_value (Some 1) (Categorical.constructed [1; 1]).

(** A [FloatHyperparameter] on [0, 1] with the value 1/2. *)
Definition unit_float : Float.FloatHyperparameter :=
  {| Float.name := "x"; Float.lower := 0%Qc; Float.upper := 1%Qc;
     Float.log := false; Float.value := Some (Float.fin half);
     Float._id := 0%Qc |}.

End Examples.

(** * Properties *)

(** ** Python indexing *)

Section IndexFacts.

Context {A : Type}.
Implicit Types (l : list A) (i : nat).

Lemma index_nat l i a : l !! i = Some a → Py.index l (Z.of_nat i) = Ret a.
Proof.
  intros Hl. unfold Py.index.
  destruct (decide (Z.of_nat i < 0)) as [?|_]; [lia|].
  destruct (decide (0 ≤ Z.of_nat i)) as [_|?]; [|lia].
  by rewrite Nat2Z.id, Hl.
Qed.

Lemma index_last l a : last l = Some a → Py.index l (-1) = Ret a.
Proof.
  intros Hl. unfold Py.index.
  assert (0 < length l)%nat as Hlen.
  { destruct l; [done|simpl; lia]. }
  destruct (decide (-1 < 0)) as [_|?]; [|lia].
  destruct (decide (0 ≤ -1 + Z.of_nat (length l))) as [_|?]; [|lia].
  replace (Z.to_nat (-1 + Z.of_nat (length l))) with (Nat.pred (length l)) by lia.
  by rewrite <- last_lookup, Hl.
Qed.

Lemma index_ret_elem l z a : Py.index l z = Ret a → a ∈ l.
Proof.
  unfold Py.index. repeat case_decide; try done;
    destruct (l !! _) eqn:E; intros [= ->]; by eapply list_elem_of_lookup_2.
Qed.

End IndexFacts.

(** ** [choice] *)

Section ChoiceFacts.

Local Open Scope Qc_scope.

Lemma sum_probs_nonneg probs : Forall (λ p, 0 ≤ p) probs → 0 ≤ sum_probs probs.
Proof.
  induction 1 as [|p ps Hp _ IH]; simpl; [done|].
  rewrite <- (Qcplus_0_l 0). by apply Qcplus_le_compat.
Qed.

(** The loop stops at an index of [probs], or not at all. *)
Lemma scan_range x cum i probs :
  scan x cum i probs = (-1)%Z ∨
  (Z.of_nat i ≤ scan x cum i probs < Z.of_nat (i + length probs))%Z.
Proof.
  revert cum i. induction probs as [|p ps IH]; intros cum i; simpl; [by left|].
  case_decide; [right; lia|].
  destruct (IH (cum + p) (S i)) as [->|?]; [by left|right; lia].
Qed.

(** A draw at or above every cumulative sum leaves the index at [-1]. *)
Lemma scan_fall_through x cum i probs :
  Forall (λ p, 0 ≤ p) probs → cum + sum_probs probs ≤ x →
  scan x cum i probs = (-1)%Z.
Proof.
  intros Hnn. revert cum i.
  induction Hnn as [|p ps Hp Hps IH]; intros cum i Hx; simpl; [done|].
  simpl in Hx. rewrite Qcplus_assoc in Hx.
  case_decide as Hlt; [|by apply IH].
  exfalso. apply (Qclt_not_le _ _ Hlt).
  etrans; [|exact Hx].
  rewrite <- (Qcplus_0_r (cum + p)) at 1.
  apply Qcplus_le_compat; [done|by apply sum_probs_nonneg].
Qed.

Lemma choice_unfold {A} (options : list A) probs g :
  choice options (Some probs) g
  = (Py.index options (scan (tape g (pos g)) 0 0 probs),
     {| tape := tape g; pos := S (pos g) |}).
Proof. reflexivity. Qed.

(** C10. For a non-empty list of options and a list of probabilities no
    longer than it, [choice] returns one of the options and does not raise;
    when the probabilities are non-negative and the uniform draw is at or
    above their sum (a sum rounded below 1), the selection index stays [-1]
    and the option returned is the last one. *)
Theorem choice_returns_an_option {A} (options : list A) (probs : list Qc) (g : rng) :
  options ≠ [] → (length probs ≤ length options)%nat →
  ∃ o, (choice options (Some probs) g).1 = Ret o ∧ o ∈ options ∧
       (Forall (λ p, 0 ≤ p) probs → sum_probs probs ≤ tape g (pos g) →
        scan (tape g (pos g)) 0 0 probs = (-1)%Z ∧ last options = Some o).
Proof.
  intros Hne Hlen. rewrite choice_unfold. simpl.
  destruct (last options) as [z|] eqn:Hlast;
    [|by apply last_None in Hlast].
  destruct (scan_range (tape g (pos g)) 0 0 probs) as [Hs|Hs].
  - rewrite Hs. exists z. split; [by apply index_last|]. split.
    + rewrite last_lookup in Hlast. by eapply list_elem_of_lookup_2.
    + done.
  - destruct (lookup_lt_is_Some_2 options
                (Z.to_nat (scan (tape g (pos g)) 0 0 probs))) as [o Ho]; [lia|].
    exists o. split; [|split].
    + rewrite <- (Z2Nat.id (scan _ _ _ _)) by lia. by apply index_nat.
    + by eapply list_elem_of_lookup_2.
    + intros Hnn Hx. rewrite scan_fall_through in Hs; [lia|done|].
      by rewrite Qcplus_0_l.
Qed.

(** A run of C10: probabilities that sum to 9/10 and a draw of 19/20. *)
Lemma choice_returns_an_option_witness :
  ∃ o, (choice ["a"; "b"; "c"]
          (Some [Q2Qc (3 # 10); Q2Qc (3 # 10); Q2Qc (3 # 10)])
          (const_tape (Q2Qc (19 # 20)))).1 = Ret o ∧ o ∈ ["a"; "b"; "c"] ∧
       (Forall (λ p, 0 ≤ p) [Q2Qc (3 # 10); Q2Qc (3 # 10); Q2Qc (3 # 10)] →
        sum_probs [Q2Qc (3 # 10); Q2Qc (3 # 10); Q2Qc (3 # 10)] ≤ Q2Qc (19 # 20) →
        scan (Q2Qc (19 # 20)) 0 0 [Q2Qc (3 # 10); Q2Qc (3 # 10); Q2Qc (3 # 10)]
          = (-1)%Z ∧ last ["a"; "b"; "c"] = Some o).
Proof.
  apply (choice_returns_an_option ["a"; "b"; "c"]
           [Q2Qc (3 # 10); Q2Qc (3 # 10); Q2Qc (3 # 10)]
           (const_tape (Q2Qc (19 # 20)))); [done|simpl; lia].
Defined.

(** The premises of the fall-through case hold in that run, so the last
    option is what it returns. *)
Example choice_falls_through_to_last :
  (choice ["a"; "b"; "c"]
     (Some [Q2Qc (3 # 10); Q2Qc (3 # 10); Q2Qc (3 # 10)])
     (const_tape (Q2Qc (19 # 20)))).1 = Ret "c".
Proof. reflexivity. Qed.

End ChoiceFacts.

(** ** Strings, [split] and [join] *)

Lemma app_nil_str (s : string) : "" +:+ s = s.
Proof. reflexivity. Qed.

Lemma app_cons_str c (s t : string) : String c s +:+ t = String c (s +:+ t).
Proof. reflexivity. Qed.

Ltac str_simpl := simpl; rewrite ?app_cons_str, ?app_nil_str; simpl.

Section StringFacts.

Implicit Types (s t : string) (l : list string) (n : nat).

Lemma app_empty_r s : s +:+ "" = s.
Proof. induction s; str_simpl; [done|by f_equal]. Qed.

Lemma app_assoc_str s t u : (s +:+ t) +:+ u = s +:+ (t +:+ u).
Proof. induction s; str_simpl; [done|by f_equal]. Qed.

Lemma take_drop_str n s : PyStr.upto n s +:+ PyStr.from n s = s.
Proof.
  revert s. induction n as [|n IH]; intros [|c s]; str_simpl; try done.
  by rewrite IH.
Qed.

Lemma take_app_length s t : PyStr.upto (String.length s) (s +:+ t) = s.
Proof. induction s; str_simpl; [by destruct t|by f_equal]. Qed.

Lemma take_app_le n s t :
  (n ≤ String.length s)%nat → PyStr.upto n (s +:+ t) = PyStr.upto n s.
Proof.
  revert s. induction n as [|n IH]; intros [|c s] Hn; str_simpl; simpl in *;
    try done.
  - lia.
  - f_equal. apply IH. lia.
Qed.

Lemma take_app_ge n s t :
  PyStr.upto (String.length s + n) (s +:+ t) = s +:+ PyStr.upto n t.
Proof. induction s; str_simpl; [done|by f_equal]. Qed.

Lemma length_app_str s t :
  String.length (s +:+ t) = (String.length s + String.length t)%nat.
Proof. induction s; str_simpl; [done|by f_equal]. Qed.

Lemma length_take_str n s :
  String.length (PyStr.upto n s) = (n `min` String.length s)%nat.
Proof.
  revert s. induction n as [|n IH]; intros [|c s]; simpl; try done.
  by rewrite IH.
Qed.

Lemma split_not_nil s : split s ≠ [].
Proof.
  destruct s as [|c s]; simpl; [done|].
  case_decide; [done|]. by destruct (split s).
Qed.

(** Joining the tokens with single spaces gives the string back. *)
Lemma join_split s : join (split s) = s.
Proof.
  induction s as [|c s IH]; simpl; [done|].
  case_decide as Hc.
  - subst c. pose proof (split_not_nil s).
    destruct (split s) eqn:E; [done|]. simpl in *. by rewrite IH.
  - destruct (split s) as [|w ws] eqn:E; [by destruct (split_not_nil s)|].
    rewrite <- IH. by destruct ws.
Qed.

Lemma join_cons w l : l ≠ [] → join (w :: l) = w +:+ String space (join l).
Proof. by destruct l. Qed.

Lemma join_app l1 l2 :
  l1 ≠ [] → l2 ≠ [] → join (l1 ++ l2) = join l1 +:+ String space (join l2).
Proof.
  intros H1 H2. induction l1 as [|w l1 IH]; [done|].
  destruct l1 as [|w' l1].
  - simpl. by destruct l2.
  - rewrite <- app_comm_cons, !join_cons by done.
    rewrite IH by done. by rewrite app_assoc_str.
Qed.

Lemma slice_to_nat {A} (l : list A) n :
  (n ≤ length l)%nat → slice_to l (Z.of_nat n) = take n l.
Proof.
  intros Hn. unfold slice_to, clamp.
  destruct (decide (Z.of_nat n < 0)); [lia|].
  f_equal. lia.
Qed.

Lemma slice_from_nat {A} (l : list A) n :
  (n ≤ length l)%nat → slice_from l (Z.of_nat n) = drop n l.
Proof.
  intros Hn. unfold slice_from, clamp.
  destruct (decide (Z.of_nat n < 0)); [lia|].
  f_equal. lia.
Qed.

End StringFacts.

(** ** Brackets and [remove_subtree] *)

Section TreeFacts.

Import Tree.
Implicit Types (s t : string) (n m k : nat) (c : Z).

Lemma excess_app s t : excess (s +:+ t) = excess s + excess t.
Proof. induction s; str_simpl; [done|]. rewrite IHs. lia. Qed.

Lemma upto_upto m n s : PyStr.upto m (PyStr.upto n s) = PyStr.upto (m `min` n) s.
Proof.
  revert n s. induction m as [|m IH]; intros [|n] [|ch s]; simpl; try done.
  by rewrite IH.
Qed.

Lemma bracket_free_excess n s : bracket_free s = true → excess (PyStr.upto n s) = 0.
Proof.
  revert n. induction s as [|ch s IH]; intros [|n] Hs; simpl in *; try done.
  apply andb_true_iff in Hs as [Hc Hs]. apply bool_decide_eq_true in Hc.
  rewrite IH by done. lia.
Qed.

(** A prefix of an opening token has one scope open. *)
Lemma opens_scope_excess n token :
  opens_scope token = true → (0 < n)%nat → excess (PyStr.upto n token) = 1.
Proof.
  destruct token as [|ch symbol]; [done|]. intros Ht Hn.
  apply andb_true_iff in Ht as [Hc Hs]. apply bool_decide_eq_true in Hc.
  destruct n as [|n]; [lia|]. simpl.
  rewrite bracket_free_excess by done. subst ch. by vm_compute.
Qed.

Lemma upto_all s : PyStr.upto (String.length s) s = s.
Proof. induction s; simpl; [done|by f_equal]. Qed.

Lemma bracket_range ch : -1 ≤ bracket ch ≤ 1.
Proof. unfold bracket. repeat case_decide; lia. Qed.

Lemma upto_cons n ch s : PyStr.upto (S n) (String ch s) = String ch (PyStr.upto n s).
Proof. reflexivity. Qed.

Lemma excess_cons ch s : excess (String ch s) = bracket ch + excess s.
Proof. reflexivity. Qed.

Lemma closing_cons ch rest c k :
  closing c k (String ch rest)
  = if decide (c + bracket ch = 0) then k
    else closing (c + bracket ch) (S k) rest.
Proof.
  simpl. unfold bracket.
  destruct (decide (ch = lparen)); [done|].
  destruct (decide (ch = rparen)); [done|].
  by rewrite Z.add_0_r.
Qed.

(** The bracket counter of [remove_subtree]: started at [c] with [k]
    characters behind it, on a string that closes the [c] open scopes
    somewhere, the loop stops on the first character that brings the
    counter to 0. *)
Lemma closing_spec right c k :
  0 < c → (∃ n, c + excess (PyStr.upto n right) ≤ 0) →
  (k ≤ closing c k right)%nat ∧
  (closing c k right - k < String.length right)%nat ∧
  c + excess (PyStr.upto (S (closing c k right - k)) right) = 0 ∧
  ∀ m, (m ≤ closing c k right - k)%nat → 0 < c + excess (PyStr.upto m right).
Proof.
  revert c k. induction right as [|ch rest IH]; intros c k Hc [n Hn].
  { destruct n; simpl in Hn; lia. }
  rewrite closing_cons.
  pose proof (bracket_range ch) as Hb.
  destruct (decide (c + bracket ch = 0)) as [Hz|Hz].
  - replace (k - k)%nat with 0%nat by lia. simpl.
    repeat split; [lia|lia|lia|].
    intros m Hm. replace m with 0%nat by lia. simpl. lia.
  - destruct n as [|n]; [simpl in Hn; lia|]. simpl in Hn.
    destruct (IH (c + bracket ch) (S k)) as (Hk & Hlen & Hclose & Hopen);
      [lia|exists n; lia|].
    set (ci := closing (c + bracket ch) (S k) rest) in *.
    replace (ci - k)%nat with (S (ci - S k)) by lia.
    repeat split; [lia|simpl; lia|rewrite upto_cons, excess_cons; lia|].
    intros [|m] Hm; [simpl; lia|].
    rewrite upto_cons, excess_cons. specialize (Hopen m). lia.
Qed.

Local Arguments PyStr.upto : simpl never.
Local Arguments PyStr.from : simpl never.

(** C6 (amended). For a tree string in which every bracket is matched and
    an index of at least 1 whose token opens a nonterminal's scope,
    [remove_subtree] returns a prefix, a removed subtree and a suffix whose
    concatenation is the tree string; the prefix is the tokens before the
    index, each followed by a space, and the removed subtree starts with
    the token at the index and runs from its opening bracket to the bracket
    that closes it. *)
Theorem remove_subtree_reassembles tree (index : nat) token :
  (1 ≤ index)%nat →
  well_bracketed tree →
  split tree !! index = Some token →
  opens_scope token = true →
  ∃ pre_subtree removed post_subtree,
    remove_subtree tree (Z.of_nat index) = Ret (pre_subtree, removed, post_subtree) ∧
    pre_subtree +:+ removed +:+ post_subtree = tree ∧
    pre_subtree = join (take index (split tree)) +:+ " " ∧
    (∃ rest, removed = token +:+ " " +:+ rest) ∧
    delimited removed.
Proof.
  intros Hidx [Hbal Hpre] Htok Hopen.
  pose proof (lookup_lt_Some _ _ _ Htok) as Hlt.
  pose proof (take_drop_middle _ _ _ Htok) as Hmid.
  set (l := split tree) in *.
  set (P := join (take index l)).
  assert (take index l ≠ []) as HP.
  { intros E. apply (f_equal length) in E. rewrite length_take in E.
    simpl in E. lia. }
  (* the prefix up to the token leaves at least one scope open *)
  assert (0 ≤ excess P) as HPex.
  { assert (tree = P +:+ String space (join (token :: drop (S index) l))) as E.
    { rewrite <- (join_split tree). fold l. rewrite <- Hmid at 1.
      by apply join_app. }
    specialize (Hpre (String.length P)). rewrite E in Hpre.
    by rewrite take_app_length in Hpre. }
  assert (excess token = 1) as Htokex.
  { rewrite <- (upto_all token). apply opens_scope_excess; [done|].
    destruct token; [done|simpl; lia]. }
  (* so the token is not the last one *)
  assert (drop (S index) l ≠ []) as HR.
  { intros E. rewrite E in Hmid.
    assert (tree = P +:+ String space token) as Et.
    { rewrite <- (join_split tree). fold l. rewrite <- Hmid at 1.
      by rewrite join_app. }
    rewrite Et, excess_app in Hbal. simpl in Hbal.
    change (bracket space) with 0 in Hbal. lia. }
  set (R := join (drop (S index) l)).
  assert (tree = P +:+ String space (token +:+ String space R)) as Etree.
  { rewrite <- (join_split tree). fold l. rewrite <- Hmid at 1.
    rewrite join_app by done. by rewrite join_cons. }
  (* the counter reaches 0 on the right part *)
  destruct (closing_spec R 1 0) as (_ & Hlen & Hclose & Hopen'); [lia| |].
  { exists (String.length R). rewrite upto_all.
    rewrite Etree, excess_app in Hbal. simpl in Hbal.
    rewrite excess_app in Hbal. simpl in Hbal.
    change (bracket space) with 0 in Hbal. lia. }
  rewrite Nat.sub_0_r in *.
  set (ci := closing 1 0 R) in *.
  exists (P +:+ " "), (token +:+ " " +:+ PyStr.upto (S ci) R), (PyStr.from (S ci) R).
  split; [|split; [|split; [done|split; [by eexists|]]]].
  - unfold remove_subtree. fold l.
    rewrite slice_to_nat by lia. fold P.
    replace (Z.of_nat index + 1) with (Z.of_nat (S index)) by lia.
    rewrite slice_from_nat by lia. fold R. fold ci.
    by rewrite (index_nat l index token Htok).
  - rewrite Etree. rewrite !app_assoc_str. str_simpl.
    by rewrite take_drop_str.
  - split.
    + rewrite !excess_app. simpl. change (bracket " ") with 0. lia.
    + intros n [Hn0 Hn].
      destruct (decide (n ≤ String.length token)%nat) as [Hle|Hgt].
      * rewrite take_app_le by done.
        rewrite opens_scope_excess; [lia|done|done].
      * replace n with (String.length token + S (n - S (String.length token)))%nat
          by lia.
        rewrite take_app_ge, app_cons_str, app_nil_str, upto_cons.
        rewrite excess_app, excess_cons.
        change (bracket " ") with 0. rewrite upto_upto.
        rewrite !length_app_str in Hn. simpl in Hn.
        rewrite length_take_str in Hn.
        specialize (Hopen' ((n - S (String.length token)) `min` S ci)%nat).
        lia.
Qed.

End TreeFacts.

(** ** The generator primitives *)

Section RngFacts.

Local Open Scope Qc_scope.

Lemma Qc_of_Z_le a b : (a ≤ b)%Z ↔ Qc_of_Z a ≤ Qc_of_Z b.
Proof.
  unfold Qc_of_Z, Qcle. simpl. rewrite !Qred_correct. by rewrite Zle_Qle.
Qed.

Lemma Qc_of_Z_lt a b : (a < b)%Z ↔ Qc_of_Z a < Qc_of_Z b.
Proof.
  unfold Qc_of_Z, Qclt. simpl. rewrite !Qred_correct. by rewrite Zlt_Qlt.
Qed.

(** The floor of [q] is the integer [j] with [j ≤ q < j + 1]. *)
Lemma Qc_floor_spec q j :
  Qc_floor q = j ↔ Qc_of_Z j ≤ q ∧ q < Qc_of_Z (j + 1).
Proof.
  unfold Qc_floor, Qc_of_Z, Qcle, Qclt. simpl. rewrite !Qred_correct. split.
  - intros <-. split; [apply Qfloor_le|apply Qlt_floor].
  - intros [Hlo Hhi].
    apply Qfloor_resp_le in Hlo. rewrite Qfloor_Z in Hlo.
    pose proof (Qfloor_le (this q)) as Hf.
    pose proof (Qle_lt_trans _ _ _ Hf Hhi) as Hlt.
    rewrite <- Zlt_Qlt in Hlt. lia.
Qed.

Lemma randbelow_spec n u j :
  randbelow n u = j ↔ Qc_of_Z j ≤ u * Qc_of_Z n ∧ u * Qc_of_Z n < Qc_of_Z (j + 1).
Proof. apply Qc_floor_spec. Qed.

(** A uniform variate gives an integer below [n]. *)
Lemma randbelow_range n u :
  (0 < n)%Z → 0 ≤ u → u < 1 → (0 ≤ randbelow n u < n)%Z.
Proof.
  intros Hn H0 H1.
  destruct (proj1 (randbelow_spec n u _) eq_refl) as [Hlo Hhi].
  assert (0 < Qc_of_Z n) as Hn'.
  { exact (proj1 (Qc_of_Z_lt 0 n) Hn). }
  split.
  - assert (0 < randbelow n u + 1)%Z; [|lia].
    apply (proj2 (Qc_of_Z_lt _ _)). eapply Qcle_lt_trans; [|exact Hhi].
    replace (Qc_of_Z 0) with (0 * Qc_of_Z n) by (by rewrite Qcmult_0_l).
    apply Qcmult_le_compat_r; [done|by apply Qclt_le_weak].
  - apply (proj2 (Qc_of_Z_lt _ _)). eapply Qcle_lt_trans; [exact Hlo|].
    rewrite <- (Qcmult_1_l (Qc_of_Z n)) at 2.
    by apply Qcmult_lt_compat_r.
Qed.

Lemma unit_tape_next g : unit_tape g → unit_tape (next g).2.
Proof. done. Qed.

End RngFacts.

(** ** [rand_subtree] *)

Section RandSubtreeFacts.

Import Tree.
Local Open Scope Qc_scope.

Lemma swappable_indices_NoDup G l : NoDup (swappable_indices G l).
Proof. apply NoDup_filter, NoDup_seq. Qed.

Lemma swappable_indices_elem G l i :
  i ∈ swappable_indices G l ↔
  ∃ token, l !! i = Some token ∧ head token ∈ swappable_nonterminals G.
Proof.
  unfold swappable_indices. rewrite list_elem_of_filter, elem_of_seq. split.
  - intros [Hh [_ Hi]]. destruct (lookup_lt_is_Some_2 l i) as [token Ht]; [lia|].
    exists token. split; [done|].
    by rewrite (list_lookup_total_correct _ _ _ Ht) in Hh.
  - intros (token & Ht & Hh). split.
    + by rewrite (list_lookup_total_correct _ _ _ Ht).
    + apply lookup_lt_Some in Ht. lia.
Qed.

(** What [rand_subtree] computes from the raw variate once the range of
    [np.random.randint] is not empty. *)
Lemma rand_subtree_unfold G tree g :
  let l := split tree in
  let positions := swappable_indices G l in
  (1 < Z.of_nat (length positions))%Z →
  (rand_subtree G tree g).1 =
    let+ chosen :=
      Py.index positions
        (1 + randbelow (Z.of_nat (length positions) - 1) (tape g (pos g))) in
    let+ token := Py.index l (Z.of_nat chosen) in
    Ret (head token, Z.of_nat chosen).
Proof.
  intros l positions Hlen. unfold rand_subtree, Py.bind, np_randint.
  fold l. fold positions.
  destruct (decide (1 < Z.of_nat (length positions))%Z) as [_|?]; [|done].
  simpl. unfold Py.lift.
  destruct (Py.index positions _) as [chosen| |]; simpl; [|done..].
  by destruct (Py.index l _).
Qed.

(** The draw of [rand_subtree] among the swappable positions. *)
Lemma rand_subtree_positions G tree g :
  unit_tape g →
  (2 ≤ length (swappable_indices G (split tree)))%nat →
  let positions := swappable_indices G (split tree) in
  let u := tape g (pos g) in
  let n := (Z.of_nat (length positions) - 1)%Z in
  ∃ i token,
    i ∈ positions ∧ split tree !! i = Some token ∧
    head token ∈ swappable_nonterminals G ∧
    (rand_subtree G tree g).1 = Ret (head token, Z.of_nat i) ∧
    ∀ k j, positions !! k = Some j →
      (rand_subtree G tree g).1 = Ret (head (split tree !!! j), Z.of_nat j) ↔
      (1 ≤ k)%nat ∧
      Qc_of_Z (Z.of_nat k - 1) ≤ u * Qc_of_Z n ∧ u * Qc_of_Z n < Qc_of_Z (Z.of_nat k).
Proof.
  intros Hg Hlen. cbv zeta.
  pose proof (swappable_indices_NoDup G (split tree)) as Hnd.
  pose proof (rand_subtree_unfold G tree g) as Hunfold. cbv zeta in Hunfold.
  pose proof (swappable_indices_elem G (split tree)) as Helem.
  remember (swappable_indices G (split tree)) as positions eqn:Epos.
  remember (tape g (pos g)) as u eqn:Eu.
  remember (Z.of_nat (length positions) - 1)%Z as n eqn:En.
  destruct (Hg (pos g)) as [Hu0 Hu1]. rewrite <- Eu in Hu0, Hu1.
  pose proof (randbelow_range n u ltac:(lia) Hu0 Hu1) as Hrb.
  remember (S (Z.to_nat (randbelow n u))) as r eqn:Er.
  destruct (lookup_lt_is_Some_2 positions r) as [i Hi]; [lia|].
  pose proof (list_elem_of_lookup_2 _ _ _ Hi) as Hin.
  destruct (proj1 (Helem _) Hin) as (token & Htok & Hhead).
  assert ((rand_subtree G tree g).1 = Ret (head token, Z.of_nat i)) as Hrun.
  { rewrite Hunfold by lia.
    replace (1 + randbelow n u)%Z with (Z.of_nat r) by lia.
    rewrite (index_nat _ _ _ Hi). simpl.
    by rewrite (index_nat _ _ _ Htok). }
  exists i, token. do 4 (split; [done|]).
  intros k j Hk. split.
  - intros Hj. rewrite Hrun in Hj. injection Hj as _ Hij.
    apply Nat2Z.inj in Hij. subst j.
    pose proof (NoDup_lookup _ _ _ _ Hnd Hk Hi) as ->.
    destruct (proj1 (randbelow_spec n u _) eq_refl) as [Hlo Hhi].
    split; [lia|]. split.
    + by replace (Z.of_nat r - 1)%Z with (randbelow n u) by lia.
    + by replace (Z.of_nat r) with (randbelow n u + 1)%Z by lia.
  - intros (Hk1 & Hlo & Hhi).
    assert (randbelow n u = Z.of_nat k - 1)%Z as Hr.
    { apply randbelow_spec. split; [done|].
      by replace (Z.of_nat k - 1 + 1)%Z with (Z.of_nat k) by lia. }
    assert (k = r) as -> by lia.
    assert (j = i) as -> by congruence.
    by rewrite Hrun, (list_lookup_total_correct _ _ _ Htok).
Qed.

(** C3 (amended). For a tree string with at least two tokens whose head is
    swappable, [rand_subtree] returns the head symbol and the index of one
    of them; the index is drawn uniformly among the swappable positions
    after the first: the [k]-th of them, [k ≥ 1], is returned exactly when
    the uniform variate [u] has [k - 1 ≤ u * n < k] for the [n] positions
    after the first, and the first one is never returned. *)
Theorem rand_subtree_uniform_after_first G tree g :
  unit_tape g →
  (2 ≤ length (swappable_indices G (split tree)))%nat →
  let positions := swappable_indices G (split tree) in
  let u := tape g (pos g) in
  let n := (Z.of_nat (length positions) - 1)%Z in
  ∃ i token,
    i ∈ positions ∧ split tree !! i = Some token ∧
    head token ∈ swappable_nonterminals G ∧
    (rand_subtree G tree g).1 = Ret (head token, Z.of_nat i) ∧
    ∀ k j, positions !! k = Some j →
      (rand_subtree G tree g).1 = Ret (head (split tree !!! j), Z.of_nat j) ↔
      (1 ≤ k)%nat ∧
      Qc_of_Z (Z.of_nat k - 1) ≤ u * Qc_of_Z n ∧ u * Qc_of_Z n < Qc_of_Z (Z.of_nat k).
Proof.
  exact (rand_subtree_positions G tree g).
Qed.

End RandSubtreeFacts.

(** ** [FloatHyperparameter] *)

Section FloatFacts.

Import Float.
Local Open Scope Qc_scope.

Lemma Qcdiv_mult_cancel (a d : Qc) : d ≠ 0 → a / d * d = a.
Proof. intros Hd. field. done. Qed.

Lemma Qcminus_pos (a b : Qc) : a < b → 0 < b - a.
Proof.
  intros Hab. by apply (proj1 (Qclt_minus_iff _ _)).
Qed.


End FloatFacts.

(** ** [_transform] and [_inv_transform] over binary64 floats *)

Section Binary64Facts.

Import Floats Binary64.







End Binary64Facts.

(** ** Rules for [wp] *)

Section WpRules.

Import Logic.
Context {S : Type}.

Lemma wp_bind {A B} (m : M S A) (k : A → M S B) Q s :
  wp m (after k Q) s → wp (Py.bind m k) Q s.
Proof.
  unfold wp, after, Py.bind. by destruct (m s) as [[a|e|] s'].
Qed.

Lemma wp_ret {A} (a : A) (Q : result A → S → Prop) s : Q (Ret a) s → wp (Py.ret a) Q s.
Proof. done. Qed.

Lemma wp_raise {A} e (Q : result A → S → Prop) s : Q (Raise e) s → wp (Py.raise e) Q s.
Proof. done. Qed.

Lemma wp_lift {A} (r : result A) (Q : result A → S → Prop) s : Q r s → wp (Py.lift r) Q s.
Proof. done. Qed.

Lemma wp_gets {A} (f : S → A) (Q : result A → S → Prop) s :
  Q (Ret (f s)) s → wp (Py.gets f) Q s.
Proof. done. Qed.

Lemma wp_modify (f : S → S) (Q : result () → S → Prop) s :
  Q (Ret ()) (f s) → wp (Py.modify f) Q s.
Proof. done. Qed.

Lemma wp_mono {A} (m : M S A) (Q Q' : result A → S → Prop) s :
  (∀ r s', Q r s' → Q' r s') → wp m Q s → wp m Q' s.
Proof. unfold wp. auto. Qed.

End WpRules.

Lemma wp_on_rng {S A} (m : M rng A) (Q : result A → S * rng → Prop) s g :
  Logic.wp m (λ r g', Q r (s, g')) g → Logic.wp (on_rng m) Q (s, g).
Proof. unfold Logic.wp, on_rng. by destruct (m g). Qed.

Lemma wp_rand (Q : result Qc → rng → Prop) g :
  Q (Ret (tape g (pos g))) (next g).2 → Logic.wp rand Q g.
Proof. done. Qed.

(** ** [mutate] of [FloatHyperparameter] *)

Section FloatMutate.

Import Float Logic.
Local Open Scope Qc_scope.
Context (exp ln gauss : Qc → Qc).

Lemma copy_cases self :
  copy self = Raise ValueError ∨
  ∃ c, copy self = Ret c ∧ value c = None ∧
       lower c = lower self ∧ upper c = upper self.
Proof.
  unfold copy, init. case_decide; [by left|].
  destruct (log self && _); [by left|]. right. by eexists.
Qed.

Lemma sample_wp self g :
  wp (sample exp ln self) (λ r _, ∃ c, r = Ret c ∧ has_number c) g.
Proof.
  unfold sample, uniform, wp, Py.bind, Py.ret, rand. simpl.
  destruct (log self); simpl; eexists; (split; [done|]); by eexists.
Qed.

Lemma inv_transform_number hp x :
  ∃ hp', _inv_transform (set_value (Some (fin x)) hp) = Ret hp' ∧ has_number hp'.
Proof. eexists. split; [done|]. by eexists. Qed.

(** The loop of [_get_neighbours] returns the asked number of neighbours,
    each with a number as its value, or raises [ValueError]. *)
Lemma neighbours_loop_wp fuel self std n nbs g :
  is_Some (value self) → Forall has_number nbs →
  wp (neighbours_loop gauss fuel self std n nbs)
     (λ r _, match r with
             | Ret l => Forall has_number l ∧ (n ≤ length l)%nat
             | Raise e => e = ValueError
             | Diverge => True
             end) g.
Proof.
  intros [v Hv]. revert nbs g.
  induction fuel as [|fuel IH]; intros nbs g Hnbs;
    unfold neighbours_loop; fold (neighbours_loop gauss);
    (destruct (decide (length nbs < n)%nat) as [Hlt|Hge];
     [|apply wp_ret; split; [done|lia]]); [done|].
  rewrite Hv. apply wp_bind, wp_lift. unfold after.
  apply wp_bind. unfold normal. case_decide; [by apply wp_raise|].
  apply wp_bind, wp_rand. unfold after.
  apply wp_ret. unfold after.
  assert (∀ x g', wp
    (let* neighbour := Py.lift (copy self) in
     let neighbour := set_value (Some x) neighbour in
     let* neighbour := Py.lift (_inv_transform neighbour) in
     let* i := rand in
     neighbours_loop gauss fuel self std n (nbs ++ [set_id i neighbour]))
    (λ r _, match r with
            | Ret l => Forall has_number l ∧ (n ≤ length l)%nat
            | Raise e => e = ValueError
            | Diverge => True
            end) g') as Hstep.
  { intros x g'. apply wp_bind, wp_lift. unfold after.
    destruct (copy_cases self) as [->|(c & -> & _)]; [done|].
    apply wp_bind, wp_lift. unfold after.
    destruct x as [|x]; [done|].
    destruct (inv_transform_number c x) as (hp' & -> & [q Hq]).
    apply wp_bind, wp_rand. unfold after. apply IH.
    apply Forall_app. split; [done|]. apply Forall_singleton. by exists q. }
  destruct v as [|m]; [apply Hstep|].
  case_decide; [by apply IH|apply Hstep].
Qed.

Lemma get_neighbours_wp fuel std n self g :
  is_Some (value self) → lower self < upper self →
  wp (_get_neighbours gauss fuel std n)
     (λ r _, match r with
             | Ret l => Forall has_number l ∧ (n ≤ length l)%nat
             | Raise e => e = ValueError
             | Diverge => True
             end) (self, g).
Proof.
  intros [v Hv] Hlu. unfold _get_neighbours.
  apply wp_bind. unfold wp, update_self, _transform, transform_value, after.
  rewrite Hv. destruct v as [|x]; simpl; [done|].
  destruct (decide (upper self - lower self = 0)) as [E|_].
  { apply Qcminus_pos in Hlu. rewrite E in Hlu.
    by destruct (Qclt_not_eq _ _ Hlu). }
  simpl. apply wp_bind, wp_gets. unfold after.
  apply wp_bind, wp_on_rng. simpl.
  eapply wp_mono; [|by apply neighbours_loop_wp].
  intros [l|e|] g' Hr; simpl; [|done..].
  apply wp_bind. unfold wp, update_self, after. simpl. done.
Qed.

(** The guard of [mutate] on [FloatHyperparameter]: a child that is
    returned has a value other than the parent's. *)
Lemma float_mutate_guard fuel self parent mutation_strategy g :
  is_Some (value self) → lower self < upper self →
  wp (mutate exp ln gauss fuel parent mutation_strategy)
     (λ r s, match r with
             | Ret child => value child ≠ value (default s.1 parent)
             | Raise e =>
                 e = ValueError ∨
                 (e = NotImplementedError ∧ ∃ name, mutation_strategy = other name)
             | Diverge => mutation_strategy = local_search
             end) (self, g).
Proof.
  intros Hv Hlu. unfold mutate. apply wp_bind.
  assert (∀ (child : FloatHyperparameter) (s : fstore), has_number child →
    wp (let* self := (Py.gets fst : M fstore FloatHyperparameter) in
        let parent := default self parent in
        let same := match value parent, value child with
                    | Some a, Some b => feq a b
                    | None, None => true
                    | _, _ => false
                    end in
        if same then Py.raise ValueError else Py.ret child)
       (λ r s, match r with
               | Ret child => value child ≠ value (default s.1 parent)
               | Raise e =>
                   e = ValueError ∨
                   (e = NotImplementedError ∧ ∃ name, mutation_strategy = other name)
               | Diverge => mutation_strategy = local_search
               end) s) as Hguard.
  { intros child s [q Hq]. apply wp_bind, wp_gets. unfold after, wp. simpl.
    rewrite Hq. destruct (value (default s.1 parent)) as [[|p]|] eqn:E;
      simpl; try (by rewrite ?Hq, ?E).
    case_bool_decide as Hpq; simpl; [by left|].
    rewrite Hq, E. congruence. }
  destruct mutation_strategy as [| |name].
  - apply wp_bind, wp_gets. unfold after. simpl.
    apply wp_bind, wp_lift. unfold after.
    destruct (copy_cases self) as [->|(c & -> & _)]; [by left|].
    apply wp_on_rng. eapply wp_mono; [|apply sample_wp].
    intros r g' (child & -> & Hchild). by apply Hguard.
  - apply wp_bind. eapply wp_mono; [|by apply get_neighbours_wp].
    intros [l|e|] s' Hr; unfold after; [|by left|done].
    destruct Hr as [Hl Hlen]. apply wp_lift.
    destruct l as [|child l]; [simpl in Hlen; lia|].
    apply Forall_cons in Hl as [Hchild _]. by apply Hguard.
  - apply wp_raise. right. split; [done|by exists name].
Qed.

End FloatMutate.

(** ** [mutate] of [CategoricalParameter] *)

Section CategoricalMutate.

Import Categorical Logic.
Context {V : Type} `{EqDecision V}.
Implicit Types (self : CategoricalParameter V).

Lemma index_raise {A} (l : list A) z e : Py.index l z = Raise e → e = IndexError.
Proof.
  unfold Py.index. case_decide; [|congruence].
  destruct (l !! _); congruence.
Qed.

Lemma index_not_diverge {A} (l : list A) z : Py.index l z ≠ Diverge.
Proof.
  unfold Py.index. case_decide; [|congruence].
  destruct (l !! _); congruence.
Qed.

Lemma wp_index {A S} (l : list A) z (Q : result A → S → Prop) s :
  (∀ a, a ∈ l → Q (Ret a) s) → Q (Raise IndexError) s →
  wp (Py.lift (Py.index l z)) Q s.
Proof.
  intros Hret Hraise. apply wp_lift.
  destruct (Py.index l z) as [a|e|] eqn:E.
  - apply Hret. by eapply index_ret_elem.
  - by rewrite (index_raise _ _ _ E).
  - by destruct (index_not_diverge l z).
Qed.

Lemma wp_np_randint low high (Q : result Z → rng → Prop) g :
  (∀ z, Q (Ret z) (next g).2) → Q (Raise ValueError) g →
  wp (np_randint low high) Q g.
Proof. intros Hret Hraise. unfold wp, np_randint. case_decide; simpl; auto. Qed.

Lemma sample_wp_cat self g :
  wp (sample self)
     (λ r _, match r with
             | Ret child => is_Some (value child)
             | Raise e => lookup_error e
             | Diverge => False
             end) g.
Proof.
  unfold sample. apply wp_bind. unfold np_choice.
  destruct (num_choices self); [apply wp_raise; by left|].
  apply wp_bind, wp_rand. unfold after. apply wp_ret. unfold after.
  apply wp_bind, wp_index; unfold after; [|by right].
  intros a _. by apply wp_ret.
Qed.

Lemma shuffle_from_wp i (x : list V) g :
  wp (shuffle_from i x) (λ r _, ∃ l, r = Ret l) g.
Proof.
  revert x g. induction i as [|i IH]; intros x g; simpl; [by eexists|].
  apply wp_bind, wp_rand. unfold after. apply IH.
Qed.

Lemma neighbours_loop_wp_cat fuel self shuffled n idx nbs g :
  wp (neighbours_loop fuel self shuffled n idx nbs)
     (λ r _, match r with
             | Ret l => (n ≤ length l)%nat
             | Raise e => lookup_error e
             | Diverge => True
             end) g.
Proof.
  revert idx nbs g. induction fuel as [|fuel IH]; intros idx nbs g;
    unfold neighbours_loop; fold (@neighbours_loop V _);
    (destruct (decide (length nbs < n)%nat) as [Hlt|Hge];
     [|apply wp_ret; lia]); [done|].
  apply wp_bind.
  assert (∀ choice idx' g',
    after (λ picked : V * nat,
             let '(choice, idx) := picked in
             if is_value self choice
             then neighbours_loop fuel self shuffled n idx nbs
             else neighbours_loop fuel self shuffled n idx
                    (nbs ++ [set_value (Some choice) (copy self)]))
          (λ r _, match r with
                  | Ret l => (n ≤ length l)%nat
                  | Raise e => lookup_error e
                  | Diverge => True
                  end) (Ret (choice, idx')) g') as Hstep.
  { intros choice idx' g'. unfold after. destruct (is_value self choice); apply IH. }
  case_decide.
  - apply wp_bind, wp_np_randint; unfold after; [|by left].
    intros z. apply wp_bind, wp_index; unfold after; [|by right].
    intros choice _. apply wp_ret, Hstep.
  - apply wp_bind, wp_index; unfold after; [|by right].
    intros choice _. apply wp_ret, Hstep.
Qed.

(** The guard of [mutate] on [CategoricalParameter]. *)
Lemma categorical_mutate_guard fuel self parent mutation_strategy g :
  wp (mutate fuel self parent mutation_strategy)
     (λ r _, match r with
             | Ret child => value child ≠ value (default self parent)
             | Raise e =>
                 lookup_error e ∨
                 (e = NotImplementedError ∧ ∃ name, mutation_strategy = other name)
             | Diverge => mutation_strategy = local_search
             end) g.
Proof.
  unfold mutate. apply wp_bind.
  assert (∀ (child : CategoricalParameter V) (g' : rng),
    wp (if bool_decide (value (default self parent) = value child)
        then Py.raise ValueError else Py.ret child)
       (λ r _, match r with
               | Ret child => value child ≠ value (default self parent)
               | Raise e =>
                   lookup_error e ∨
                   (e = NotImplementedError ∧ ∃ name, mutation_strategy = other name)
               | Diverge => mutation_strategy = local_search
               end) g') as Hguard.
  { intros child g'. case_bool_decide; [by left; left|]. by apply wp_ret. }
  destruct mutation_strategy as [| |name].
  - eapply wp_mono; [|apply sample_wp_cat].
    intros [child|e|] g' Hr; unfold after; [apply Hguard|by left|done].
  - apply wp_bind. unfold _get_neighbours. apply wp_bind.
    eapply wp_mono; [|apply shuffle_from_wp].
    intros r g' [l ->]. unfold after.
    eapply wp_mono; [|apply neighbours_loop_wp_cat].
    intros [nbs|e|] g'' Hr; [|by left|done].
    apply wp_index; [|by left; right].
    intros child _. apply Hguard.
  - apply wp_raise. right. split; [done|by exists name].
Qed.

End CategoricalMutate.

(** ** The claims on [mutate], [remove_subtree], [rand_subtree] at
    concrete inputs *)

Section MutateClaim.

Import Logic Examples.

(** C8 (amended). [mutate] of a [FloatHyperparameter] and of a
    [CategoricalParameter] never returns a child whose value equals the
    parent's: it returns a child with another value, or it raises, or the
    local search goes on. What it raises is [ValueError] (from the guard,
    among others), [NotImplementedError] for a strategy it does not know,
    and for a [CategoricalParameter] also [IndexError]. *)
Theorem mutate_child_differs_or_raises (exp ln gauss : Qc → Qc)
    {V : Type} `{EqDecision V} :
  (∀ fuel (self : Float.FloatHyperparameter) parent mutation_strategy g,
     is_Some (Float.value self) → (Float.lower self < Float.upper self)%Qc →
     match Float.mutate exp ln gauss fuel parent mutation_strategy (self, g) with
     | (Ret child, (self', _)) =>
         Float.value child ≠ Float.value (default self' parent)
     | (Raise e, _) =>
         e = ValueError ∨
         (e = NotImplementedError ∧ ∃ name, mutation_strategy = Float.other name)
     | (Diverge, _) => mutation_strategy = Float.local_search
     end) ∧
  (∀ fuel (self : Categorical.CategoricalParameter V) parent mutation_strategy g,
     match (Categorical.mutate fuel self parent mutation_strategy g).1 with
     | Ret child =>
         Categorical.value child ≠ Categorical.value (default self parent)
     | Raise e =>
         (e = ValueError ∨ e = IndexError) ∨
         (e = NotImplementedError ∧
          ∃ name, mutation_strategy = Categorical.other name)
     | Diverge => mutation_strategy = Categorical.local_search
     end).
Proof.
  split.
  - intros fuel self parent mutation_strategy g Hv Hlu.
    pose proof (float_mutate_guard exp ln gauss fuel self parent
                  mutation_strategy g Hv Hlu) as Hwp.
    unfold wp in Hwp.
    by destruct (Float.mutate _ _ _ _ _ _ _) as [[child|e|] [self' g']].
  - intros fuel self parent mutation_strategy g.
    exact (categorical_mutate_guard fuel self parent mutation_strategy g).
Qed.

(** C8 at work: a float on [0, 1] with the value 1/2 under the simple
    strategy with the draw 1/4, and [choices = [1, 2, 3]] with the value 1
    under local search. *)
Lemma mutate_child_differs_or_raises_witness :
  (∃ child self',
     (Float.mutate id id id 5 None Float.simple (unit_float, const_tape (Q2Qc (1 # 4)))).1
       = Ret child ∧
     (Float.mutate id id id 5 None Float.simple (unit_float, const_tape (Q2Qc (1 # 4)))).2.1
       = self' ∧
     Float.value child ≠ Float.value self') ∧
  (∃ child,
     (Categorical.mutate 5 (one_two_three 1) None Categorical.local_search
        (const_tape half)).1 = Ret child ∧
     Categorical.value child ≠ Some 1).
Proof.
  destruct (mutate_child_differs_or_raises id id id (V := Z)) as [HF HC]. split.
  - specialize (HF 5%nat unit_float None Float.simple (const_tape (Q2Qc (1 # 4)))).
    destruct (Float.mutate _ _ _ _ _ _ _) as [[child|e|] [self' g']] eqn:E;
      [|by vm_compute in E..].
    exists child, self'. repeat split. apply HF; [by eexists|done].
  - specialize (HC 5%nat (one_two_three 1) None Categorical.local_search
                  (const_tape half)).
    destruct (Categorical.mutate _ _ _ _ _) as [[child|e|] g'] eqn:E;
      [|by vm_compute in E..].
    by exists child.
Defined.

(** C8 as stated fails: [choices = [1, 1]] with the value 1 has no other
    choice; under the default strategy [mutate] neither returns a child
    nor raises [ValueError], it raises [IndexError]. *)
Lemma mutate_exhausted_choices_counterexample :
  let r := (Categorical.mutate 5 one_one None Categorical.local_search
              (const_tape half)).1 in
  is_Some (Categorical.value one_one) ∧
  r = Raise IndexError ∧
  ¬ ((∃ child, r = Ret child ∧
               Categorical.value child ≠ Categorical.value one_one) ∨
     r = Raise ValueError).
Proof.
  cbv zeta. split; [by eexists|]. split; [by vm_compute|].
  intros [(child & E & _)|E]; by vm_compute in E.
Qed.

End MutateClaim.

Section TreeClaims.

Import Tree Examples.
Local Open Scope Qc_scope.

(** Brackets of a given string are checked prefix by prefix. *)
Ltac check_brackets :=
  split; [by vm_compute|];
  let n := fresh "n" in
  intros n; do 40 (try (destruct n as [|n]; [by vm_compute|])); by vm_compute.

(** C6 at work: the example of the docstring, [(ADD +)] at index 4. *)
Lemma remove_subtree_reassembles_witness :
  ∃ pre_subtree removed post_subtree,
    remove_subtree "(S (S (T 2)) (ADD +) (T 1))" (Z.of_nat 4)
      = Ret (pre_subtree, removed, post_subtree) ∧
    pre_subtree +:+ removed +:+ post_subtree = "(S (S (T 2)) (ADD +) (T 1))" ∧
    pre_subtree = join (take 4 (split "(S (S (T 2)) (ADD +) (T 1))")) +:+ " " ∧
    (∃ rest, removed = "(ADD" +:+ " " +:+ rest) ∧
    delimited removed.
Proof.
  apply (remove_subtree_reassembles "(S (S (T 2)) (ADD +) (T 1))" 4 "(ADD").
  - lia.
  - check_brackets.
  - reflexivity.
  - reflexivity.
Defined.

(** C6 as stated fails at the root: index 0 points at the nonterminal
    [S], and the three parts put together start with a space that the tree
    string does not have. *)
Lemma remove_subtree_root_counterexample :
  well_bracketed "(S (T 1))" ∧
  split "(S (T 1))" !! 0%nat = Some "(S" ∧ opens_scope "(S" = true ∧
  remove_subtree "(S (T 1))" 0 = Ret (" ", "(S (T 1))", "") ∧
  " " +:+ "(S (T 1))" +:+ "" ≠ "(S (T 1))".
Proof.
  split; [check_brackets|]. by repeat split.
Qed.

(** C3 at work: three swappable positions, 0, 1 and 3; the draw 3/4 falls
    in the second half and gives the last one. *)
Lemma rand_subtree_uniform_after_first_witness :
  ∃ i token,
    i ∈ swappable_indices arithmetic (split "(S (S (T 1)) + (T 2))") ∧
    split "(S (S (T 1)) + (T 2))" !! i = Some token ∧
    head token ∈ swappable_nonterminals arithmetic ∧
    (rand_subtree arithmetic "(S (S (T 1)) + (T 2))" (const_tape (Q2Qc (3 # 4)))).1
      = Ret (head token, Z.of_nat i) ∧
    ∀ k j, swappable_indices arithmetic (split "(S (S (T 1)) + (T 2))") !! k = Some j →
      (rand_subtree arithmetic "(S (S (T 1)) + (T 2))" (const_tape (Q2Qc (3 # 4)))).1
        = Ret (head (split "(S (S (T 1)) + (T 2))" !!! j), Z.of_nat j) ↔
      (1 ≤ k)%nat ∧
      Qc_of_Z (Z.of_nat k - 1)
        ≤ Q2Qc (3 # 4) *
          Qc_of_Z (Z.of_nat (length (swappable_indices arithmetic
                                       (split "(S (S (T 1)) + (T 2))"))) - 1) ∧
      Q2Qc (3 # 4) *
        Qc_of_Z (Z.of_nat (length (swappable_indices arithmetic
                                     (split "(S (S (T 1)) + (T 2))"))) - 1)
        < Qc_of_Z (Z.of_nat k).
Proof.
  apply (rand_subtree_uniform_after_first arithmetic "(S (S (T 1)) + (T 2))"
           (const_tape (Q2Qc (3 # 4)))).
  - intros n. by vm_compute.
  - vm_compute. lia.
Defined.

(** C3 as stated fails: with one swappable occurrence (the root [S];
    [T] has a single rule) the range of the draw is empty and
    [rand_subtree] raises instead of returning that occurrence. *)
Lemma rand_subtree_single_occurrence_counterexample :
  swappable_indices unary (split "(S (T 1))") = [0%nat] ∧
  head "(S" ∈ swappable_nonterminals unary ∧
  ∀ g, (rand_subtree unary "(S (T 1))" g).1 = Raise ValueError.
Proof.
  split; [by vm_compute|]. split; [|done].
  vm_compute. apply list_elem_of_here.
Qed.

(** C3 as stated fails also with several occurrences: the first swappable
    position is returned for no draw. *)
Lemma rand_subtree_never_first :
  ∀ g, unit_tape g →
    (rand_subtree arithmetic "(S (S (T 1)) + (T 2))" g).1 ≠ Ret ("S", 0%Z).
Proof.
  intros g Hg E.
  destruct (rand_subtree_positions arithmetic
              "(S (S (T 1)) + (T 2))" g Hg) as (i & token & _ & _ & _ & _ & Hk).
  { vm_compute. lia. }
  destruct (proj1 (Hk 0%nat 0%nat eq_refl) E) as [Hle _]. lia.
Qed.

End TreeClaims.

(** ** [SearchSpace] *)

Section SearchSpaceFacts.

Import SearchSpace Logic.
Context {H P : Type} `{Hyperparameter H P}.
Implicit Types (kwargs d : list (string * P)).

Lemma dict_set_fresh key v d : key ∉ d.*1 → dict_set key v d = d ++ [(key, v)].
Proof.
  induction d as [|[k x] d IH]; simpl; [done|]. intros Hk.
  apply not_elem_of_cons in Hk as [Hne Hk].
  destruct (decide (k = key)); [done|]. by rewrite IH.
Qed.

Lemma dict_fold_fresh d kwargs :
  NoDup ((d ++ kwargs).*1) →
  foldl (λ d kv, dict_set kv.1 kv.2 d) d kwargs = d ++ kwargs.
Proof.
  revert d. induction kwargs as [|[k v] kwargs IH]; intros d Hnd; simpl.
  { by rewrite app_nil_r. }
  rewrite dict_set_fresh.
  - rewrite IH; rewrite <- app_assoc; done.
  - rewrite fmap_app in Hnd. apply NoDup_app in Hnd as (_ & Hd & _).
    intros Hin. apply (Hd k Hin). simpl. apply list_elem_of_here.
Qed.

(** A dictionary built from pairs with distinct keys is those pairs. *)
Lemma dict_NoDup kwargs : NoDup kwargs.*1 → dict kwargs = kwargs.
Proof. intros Hnd. unfold dict. by rewrite dict_fold_fresh. Qed.

(** The child built from the parameters of the parent is the parent. *)
Lemma child_of_get_array kwargs :
  NoDup kwargs.*1 → child_of (init kwargs) (get_array (init kwargs)) = init kwargs.
Proof.
  intros Hnd. unfold child_of, keys, get_array. simpl.
  by rewrite zip_fst_snd, dict_NoDup.
Qed.

(** With no patience left, the loop of [_smbo_mutation] does not call
    [hp.mutate()]. *)
Lemma mutation_attempts_zero hp idx new_config s :
  mutation_attempts 0 hp idx new_config s = (Ret new_config, s).
Proof. reflexivity. Qed.

(** When [hp.mutate()] raises whatever the store, the loop makes all its
    attempts and hands back the configuration as it was. *)
Lemma mutation_attempts_all_fail patience hp idx new_config s :
  (∀ s', is_raise (hp_mutate hp s').1 = true) →
  (mutation_attempts patience hp idx new_config s).1 = Ret new_config.
Proof.
  intros Hfail. revert s. induction patience as [|patience IH]; intros s; [done|].
  simpl. specialize (Hfail s).
  destruct (hp_mutate hp s) as [[child|e|] s']; simpl in *; [done|apply IH|done].
Qed.

(** C1 (amended). [mutate] with [patience = 0] on a space with at least
    one parameter does not raise: it draws the index, makes no call of the
    parameter's [mutate] (the store of the parameters is as before), and
    returns a child that holds the parent's parameters, unchanged. *)
Theorem mutate_patience_zero_returns_parent (kwargs : list (string * P))
    (h : H) (g : rng) :
  kwargs ≠ [] → NoDup kwargs.*1 → unit_tape g →
  mutate (init kwargs) 0 "smbo" (h, g) = (Ret (init kwargs), (h, (next g).2)).
Proof.
  intros Hne Hnd Hg.
  assert (0 < Z.of_nat (length kwargs))%Z as Hlen.
  { destruct kwargs; [done|simpl; lia]. }
  destruct (Hg (pos g)) as [Hu0 Hu1].
  pose proof (randbelow_range (Z.of_nat (length kwargs)) _ Hlen Hu0 Hu1) as Hrb.
  destruct (lookup_lt_is_Some_2 (get_array (init kwargs))
              (Z.to_nat (randbelow (Z.of_nat (length kwargs)) (tape g (pos g)))))
    as [hp Hhp].
  { unfold get_array. simpl. rewrite length_fmap. lia. }
  unfold mutate. destruct (decide ("smbo" = "smbo")) as [_|?]; [|done].
  unfold _smbo_mutation, Py.bind, on_rng, randint. simpl.
  destruct (decide (0 ≤ Z.of_nat (length kwargs) - 1)%Z) as [_|?]; [|lia].
  simpl. unfold Py.lift.
  replace (Z.of_nat (length kwargs) - 1 - 0 + 1)%Z
    with (Z.of_nat (length kwargs)) by lia.
  rewrite Z.add_0_l, <- (Z2Nat.id (randbelow _ _)) by lia.
  rewrite (index_nat _ _ _ Hhp). simpl.
  unfold Py.ret. by rewrite child_of_get_array.
Qed.

(** However much patience there is, [mutate] does not raise when the
    parameter's [mutate] always fails: it returns the parent's
    parameters. *)
Lemma mutate_all_fail_returns_parent (kwargs : list (string * P))
    (patience : Z) (h : H) (g : rng) :
  kwargs ≠ [] → NoDup kwargs.*1 → unit_tape g →
  (∀ hp s, is_raise (hp_mutate hp s).1 = true) →
  (mutate (init kwargs) patience "smbo" (h, g)).1 = Ret (init kwargs).
Proof.
  intros Hne Hnd Hg Hfail.
  assert (0 < Z.of_nat (length kwargs))%Z as Hlen.
  { destruct kwargs; [done|simpl; lia]. }
  destruct (Hg (pos g)) as [Hu0 Hu1].
  pose proof (randbelow_range (Z.of_nat (length kwargs)) _ Hlen Hu0 Hu1) as Hrb.
  destruct (lookup_lt_is_Some_2 (get_array (init kwargs))
              (Z.to_nat (randbelow (Z.of_nat (length kwargs)) (tape g (pos g)))))
    as [hp Hhp].
  { unfold get_array. simpl. rewrite length_fmap. lia. }
  unfold mutate. destruct (decide ("smbo" = "smbo")) as [_|?]; [|done].
  unfold _smbo_mutation, Py.bind, on_rng, randint. simpl.
  destruct (decide (0 ≤ Z.of_nat (length kwargs) - 1)%Z) as [_|?]; [|lia].
  simpl. unfold Py.lift.
  replace (Z.of_nat (length kwargs) - 1 - 0 + 1)%Z
    with (Z.of_nat (length kwargs)) by lia.
  rewrite Z.add_0_l, <- (Z2Nat.id (randbelow _ _)) by lia.
  rewrite (index_nat _ _ _ Hhp). simpl.
  match goal with
  | |- context [mutation_attempts ?n ?hp ?idx ?c ?s] =>
      pose proof (mutation_attempts_all_fail n hp idx c s (Hfail hp)) as Hloop;
      destruct (mutation_attempts n hp idx c s) as [r s']
  end.
  simpl in Hloop. subst r. simpl. by rewrite child_of_get_array.
Qed.

End SearchSpaceFacts.

Section CrossoverFacts.

Import SearchSpace Logic.
Context {H P : Type} `{Hyperparameter H P}.

(** A [crossover] that returns [None] uses up the patience: the unpacking
    of the result fails each time, and nothing is appended. *)
Lemma crossover_attempts_none patience hp
    (cross : P → M (H * rng) (option (P * P))) (o : P) s :
  (∀ o' s', cross o' s' = (Ret None, s')) →
  crossover_attempts patience hp cross (Ret o) s = (Ret (0%nat, None), s).
Proof.
  intros Hnone. induction patience as [|patience IH]; [done|].
  simpl. by rewrite Hnone.
Qed.

(** A [crossover] that raises [NotImplementedError] keeps both parents'
    parameters, when there is patience for one attempt. *)
Lemma crossover_attempts_not_implemented patience hp
    (cross : P → M (H * rng) (option (P * P))) (o : P) s s' :
  cross o s = (Raise NotImplementedError, s') →
  crossover_attempts (S patience) hp cross (Ret o) s
  = (Ret (S patience, Some (hp, o)), s').
Proof. intros Hraise. simpl. by rewrite Hraise. Qed.

End CrossoverFacts.

Section SearchSpaceClaims.

Import SearchSpace Examples.
Local Open Scope Qc_scope.

(** The shuffle of two equal choices. *)
Lemma shuffle_one_one g :
  (Categorical.shuffle [1%Z; 1%Z] g).1 = Ret [1%Z; 1%Z].
Proof.
  unfold Categorical.shuffle, Categorical.shuffle_from, Py.bind, rand. simpl.
  by destruct (Z.to_nat _) as [|[|j]].
Qed.

(** [mutate] of [choices = [1, 1]] with the value 1 fails whatever the
    generator gives. *)
Lemma one_one_mutate_fails g :
  (Categorical.mutate 5 one_one None Categorical.local_search g).1
  = Raise IndexError.
Proof.
  pose proof (shuffle_one_one g) as Hs.
  unfold Categorical.mutate, Categorical._get_neighbours, Py.bind.
  change (Categorical.choices one_one) with [1%Z; 1%Z].
  by destruct (Categorical.shuffle [1%Z; 1%Z] g) as [r g']; simpl in Hs; subst r.
Qed.

(** C1 as stated fails: on a space whose only parameter's [mutate] always
    fails, [mutate] with [patience = 0] does not raise; it returns the
    space, and no call of the parameter's [mutate] was made. *)
Lemma mutate_patience_zero_counterexample :
  let counting := counted (categorical_parameter 5) in
  let space := init (ops := counting) [("x", one_one)] in
  (∀ s, is_raise (hp_mutate (Hyperparameter := counting) one_one s).1 = true) ∧
  mutate space 0 "smbo" ((0%nat, ()), const_tape half)
  = (Ret space, ((0%nat, ()), (next (const_tape half)).2)) ∧
  is_raise (mutate space 0 "smbo" ((0%nat, ()), const_tape half)).1 = false.
Proof.
  cbv zeta. split; [|by split].
  intros [[calls []] g]. simpl. unfold on_rng.
  pose proof (one_one_mutate_fails g) as Hf.
  destruct (Categorical.mutate _ _ _ _ _) as [r g']. simpl in Hf. by subst r.
Qed.

(** C1 at work on that space. *)
Lemma mutate_patience_zero_returns_parent_witness :
  mutate (ops := categorical_parameter 5)
         (init (ops := categorical_parameter 5) [("x", one_one)]) 0 "smbo"
         ((), const_tape half)
  = (Ret (init (ops := categorical_parameter 5) [("x", one_one)]),
     ((), (next (const_tape half)).2)).
Proof.
  apply (mutate_patience_zero_returns_parent (H0 := categorical_parameter 5)
           [("x", one_one)] () (const_tape half)).
  - done.
  - apply NoDup_singleton.
  - intros n. by vm_compute.
Defined.

(** C2 fails on the code. Two spaces with one [CategoricalParameter]
    each: [crossover] of the parameter returns [None], each attempt ends in
    the handler of [Exception] until the patience is used up, nothing is
    appended to the new configurations, and both children come out without
    the parameter [x]. *)
Theorem crossover_drops_categorical_parameter (patience : Z) (g : rng) :
  unit_tape g →
  (crossover (ops := categorical_parameter 5)
     (init (ops := categorical_parameter 5) [("x", one_two_three 1)])
     (init (ops := categorical_parameter 5) [("x", one_two_three 2)])
     1 patience "simple" ((), g)).1
  = Ret (init (ops := categorical_parameter 5) [],
         init (ops := categorical_parameter 5) []).
Proof.
  intros Hg. destruct (Hg (pos g)) as [_ Hu].
  match goal with
  | |- (?m ?s).1 = ?r => enough (Logic.wp m (λ r' _, r' = r) s) by done
  end.
  unfold crossover. destruct (decide ("simple" = "simple")) as [_|?]; [|done].
  apply wp_bind. unfold _simple_crossover, crossover_items.
  apply wp_bind. simpl. apply wp_bind, wp_on_rng, wp_rand. unfold Logic.after.
  apply wp_ret. unfold Logic.after.
  destruct (decide (tape g (pos g) < 1)) as [_|?]; [|done].
  apply wp_bind. unfold Logic.wp.
  change (dict_get _ "x") with (Ret (one_two_three 2)).
  by rewrite crossover_attempts_none.
Qed.

(** The handler of [NotImplementedError] at work: [crossover] of a
    [FloatHyperparameter] raises it, and both children keep the parents'
    parameters. *)
Example crossover_keeps_float_parameter :
  (crossover (ops := float_parameter id id id 5)
     (init (ops := float_parameter id id id 5) [("x", unit_float)])
     (init (ops := float_parameter id id id 5)
           [("x", Float.set_value (Some (Float.fin 1)) unit_float)])
     1 50 "simple" ((), const_tape half)).1
  = Ret (init (ops := float_parameter id id id 5) [("x", unit_float)],
         init (ops := float_parameter id id id 5)
              [("x", Float.set_value (Some (Float.fin 1)) unit_float)]).
Proof. reflexivity. Qed.

(** C2 on the default patience of 50. *)
Lemma crossover_drops_categorical_parameter_witness :
  (crossover (ops := categorical_parameter 5)
     (init (ops := categorical_parameter 5) [("x", one_two_three 1)])
     (init (ops := categorical_parameter 5) [("x", one_two_three 2)])
     1 50 "simple" ((), const_tape half)).1
  = Ret (init (ops := categorical_parameter 5) [],
         init (ops := categorical_parameter 5) []).
Proof.
  apply (crossover_drops_categorical_parameter 50 (const_tape half)).
  intros n. by vm_compute.
Defined.

End SearchSpaceClaims.

(** ** [choice] without probabilities *)

Section ChoiceWithoutProbabilities.

Local Open Scope Qc_scope.

Lemma Qc_of_Z_add a b : Qc_of_Z (a + b) = Qc_of_Z a + Qc_of_Z b.
Proof.
  unfold Qc_of_Z. apply Qc_is_canon. simpl.
  rewrite !Qred_correct. by rewrite inject_Z_plus.
Qed.

Lemma Qc_of_Z_1 : Qc_of_Z 1 = 1.
Proof. by apply Qc_is_canon. Qed.

Lemma Qc_of_Z_0 : Qc_of_Z 0 = 0.
Proof. by apply Qc_is_canon. Qed.

Lemma Qc_of_nat_succ k : Qc_of_Z (Z.of_nat (S k)) = Qc_of_Z (Z.of_nat k) + 1.
Proof. by rewrite Nat2Z.inj_succ, <- Z.add_1_r, Qc_of_Z_add, Qc_of_Z_1. Qed.

Lemma Qc_of_nat_nonneg k : 0 ≤ Qc_of_Z (Z.of_nat k).
Proof. rewrite <- Qc_of_Z_0. apply (proj1 (Qc_of_Z_le 0 _)). lia. Qed.

Lemma Qc_of_nat_pos k : (0 < k)%nat → 0 < Qc_of_Z (Z.of_nat k).
Proof. intros Hk. rewrite <- Qc_of_Z_0. apply (proj1 (Qc_of_Z_lt 0 _)). lia. Qed.

(** On equal probabilities [p], the loop of [choice] stops at the index
    [k] whose interval [[k p, (k + 1) p)] above the start holds the draw. *)
Lemma scan_replicate x c0 i m p k :
  0 < p → (k < m)%nat →
  c0 + Qc_of_Z (Z.of_nat k) * p ≤ x →
  x < c0 + (Qc_of_Z (Z.of_nat k) + 1) * p →
  scan x c0 i (replicate m p) = Z.of_nat (i + k).
Proof.
  intros Hp. revert c0 i k.
  induction m as [|m IH]; intros c0 i k Hk Hlo Hhi; [lia|].
  simpl. destruct k as [|k].
  - change (Z.of_nat 0) with 0%Z in Hhi.
    rewrite Qc_of_Z_0, Qcplus_0_l, Qcmult_1_l in Hhi.
    destruct (decide (x < c0 + p)); [f_equal; lia|done].
  - rewrite Qc_of_nat_succ in Hlo, Hhi.
    destruct (decide (x < c0 + p)) as [Hlt|_].
    + exfalso. apply (Qclt_not_le _ _ Hlt). etrans; [|exact Hlo].
      replace (c0 + (Qc_of_Z (Z.of_nat k) + 1) * p)
        with (c0 + p + Qc_of_Z (Z.of_nat k) * p) by ring.
      rewrite <- (Qcplus_0_r (c0 + p)) at 1.
      apply Qcplus_le_mono_l.
      rewrite <- (Qcmult_0_l p). apply Qcmult_le_compat_r.
      * apply Qc_of_nat_nonneg.
      * by apply Qclt_le_weak.
    + rewrite (IH (c0 + p) (S i) k); [f_equal; lia|lia| |].
      * by replace (c0 + p + Qc_of_Z (Z.of_nat k) * p)
          with (c0 + (Qc_of_Z (Z.of_nat k) + 1) * p) by ring.
      * by replace (c0 + p + (Qc_of_Z (Z.of_nat k) + 1) * p)
          with (c0 + (Qc_of_Z (Z.of_nat k) + 1 + 1) * p) by ring.
Qed.

Lemma scan_first_draw m p : 0 < p → scan 0 0 0 (replicate (S m) p) = 0%Z.
Proof.
  intros Hp. simpl. rewrite Qcplus_0_l. by destruct (decide (0 < p)).
Qed.

Lemma uniform_prob_pos n : (0 < n)%nat → 0 < 1 / Qc_of_Z (Z.of_nat n).
Proof.
  intros Hn.
  assert (0 < Qc_of_Z (Z.of_nat n)) as Hm by (by apply Qc_of_nat_pos).
  apply (Qcmult_lt_mono_pos_r _ _ _ Hm).
  rewrite Qcmult_0_l, Qcdiv_mult_cancel; [done|].
  intros E. rewrite E in Hm. by apply (Qclt_not_eq _ _ Hm).
Qed.

(** [options[choice]] for the index that the loop of [choice] leaves. *)
Lemma index_position {A} (options : list A) z :
  options ≠ [] → (z = -1 ∨ 0 ≤ z < Z.of_nat (length options))%Z →
  ∃ k o, Py.index options z = Ret o ∧ options !! k = Some o ∧
         (z = -1 → k = (length options - 1)%nat)%Z ∧ (0 ≤ z → k = Z.to_nat z)%Z.
Proof.
  intros Hne [->|Hz].
  - destruct (last options) as [o|] eqn:Hlast; [|by apply last_None in Hlast].
    exists (length options - 1)%nat, o. split; [by apply index_last|].
    split; [|split; [done|lia]].
    rewrite last_lookup in Hlast. by rewrite Nat.sub_1_r.
  - destruct (lookup_lt_is_Some_2 options (Z.to_nat z)) as [o Ho]; [lia|].
    exists (Z.to_nat z), o. split; [|split; [done|split; [lia|done]]].
    rewrite <- (Z2Nat.id z) by lia. by apply index_nat.
Qed.

Lemma choice_none_unfold {A} (options : list A) g :
  options ≠ [] →
  choice options None g
  = (Py.index options
       (scan (tape g (pos g)) 0 0
          (replicate (length options)
                     (1 / Qc_of_Z (Z.of_nat (length options))))),
     (next g).2).
Proof. by destruct options. Qed.

(** In exact arithmetic the option at index [k] is returned when the
    variate [u] has [k ≤ u n < k + 1] for the [n] options. *)
Lemma choice_uniform {A} (options : list A) g k o :
  options !! k = Some o →
  Qc_of_Z (Z.of_nat k) ≤ tape g (pos g) * Qc_of_Z (Z.of_nat (length options)) →
  tape g (pos g) * Qc_of_Z (Z.of_nat (length options)) < Qc_of_Z (Z.of_nat k + 1) →
  choice options None g = (Ret o, (next g).2).
Proof.
  intros Ho Hlo Hhi.
  pose proof (lookup_lt_Some _ _ _ Ho) as Hk.
  set (n := Qc_of_Z (Z.of_nat (length options))) in *.
  assert (0 < n) as Hn by (apply Qc_of_nat_pos; lia).
  assert (n ≠ 0) as Hn0.
  { intros E. rewrite E in Hn. by apply (Qclt_not_eq _ _ Hn). }
  assert (0 < 1 / n) as Hp.
  { apply (Qcmult_lt_mono_pos_r _ _ n Hn).
    by rewrite Qcmult_0_l, Qcdiv_mult_cancel. }
  rewrite choice_none_unfold by (by destruct options). fold n.
  rewrite (scan_replicate _ 0 0 _ _ k Hp);
    [by rewrite Nat.add_0_l, (index_nat _ _ _ Ho)|lia| |].
  - rewrite Qcplus_0_l. apply (Qcmult_le_mono_pos_r _ _ n Hn).
    by rewrite <- Qcmult_assoc, Qcdiv_mult_cancel, Qcmult_1_r.
  - rewrite Qcplus_0_l. apply (Qcmult_lt_mono_pos_r _ _ n Hn).
    rewrite <- Qcmult_assoc, Qcdiv_mult_cancel, Qcmult_1_r by done.
    by rewrite Qc_of_Z_add, Qc_of_Z_1 in Hhi.
Qed.

(** The index that the loop of [choice] leaves on equal probabilities. *)
Lemma scan_uniform_range {A} (options : list A) x :
  let probs := replicate (length options)
                         (1 / Qc_of_Z (Z.of_nat (length options))) in
  scan x 0 0 probs = (-1)%Z ∨
  (0 ≤ scan x 0 0 probs < Z.of_nat (length options))%Z.
Proof.
  intros probs. destruct (scan_range x 0 0 probs) as [?|Hs]; [by left|right].
  assert (length probs = length options) as Hlen by apply length_replicate.
  rewrite Hlen in Hs. lia.
Qed.

(** Every option has a draw that selects it. *)
Lemma choice_none_reaches {A} (options : list A) k o :
  options !! k = Some o →
  ∃ u, 0 ≤ u ∧ u < 1 ∧
       ∀ g, tape g (pos g) = u → choice options None g = (Ret o, (next g).2).
Proof.
  intros Ho. pose proof (lookup_lt_Some _ _ _ Ho) as Hk.
  set (n := Qc_of_Z (Z.of_nat (length options))).
  assert (0 < n) as Hn by (apply Qc_of_nat_pos; lia).
  assert (n ≠ 0) as Hn0.
  { intros E. rewrite E in Hn. by apply (Qclt_not_eq _ _ Hn). }
  exists (Qc_of_Z (Z.of_nat k) / n). split; [|split].
  - apply (Qcmult_le_mono_pos_r _ _ _ Hn).
    rewrite Qcmult_0_l, Qcdiv_mult_cancel by done. apply Qc_of_nat_nonneg.
  - apply (Qcmult_lt_mono_pos_r _ _ _ Hn).
    rewrite Qcmult_1_l, Qcdiv_mult_cancel by done.
    apply (proj1 (Qc_of_Z_lt _ _)). lia.
  - intros g Hu. apply (choice_uniform _ _ _ _ Ho); rewrite Hu; fold n;
      rewrite Qcdiv_mult_cancel by done.
    + apply Qcle_refl.
    + apply (proj1 (Qc_of_Z_lt _ _)). lia.
Qed.

(** Without probabilities [choice] returns one of the options after one
    draw, and the first of them on the draw 0: [0 < 1 / num]. *)
Lemma choice_none_returns {A} (options : list A) g :
  options ≠ [] →
  ∃ k o, options !! k = Some o ∧
         choice options None g = (Ret o, (next g).2) ∧
         (tape g (pos g) = 0 → k = 0%nat).
Proof.
  intros Hne. rewrite choice_none_unfold by done.
  destruct (index_position options _ Hne (scan_uniform_range options (tape g (pos g))))
    as (k & o & Hi & Ho & _ & Hpos).
  exists k, o. split; [done|]. split; [by rewrite Hi|].
  intros Hu.
  assert (0 < length options)%nat as Hn by (destruct options; [done|simpl; lia]).
  destruct (Nat.lt_exists_pred 0 _ Hn) as (m & Hm & _).
  revert Hpos. rewrite Hu, Hm, scan_first_draw; [intros Hpos; by apply Hpos|].
  apply uniform_prob_pos. lia.
Qed.

End ChoiceWithoutProbabilities.

(** ** The depth-constrained sampler *)

Section DepthConstrained.

Import Sampler Examples.
Local Open Scope Qc_scope.

(** The filter of the code, on the names of the nonterminals of the
    right-hand side, asks whether the nonterminal itself occurs there. *)
Lemma recurses_iff lhs prod : recurses lhs prod ↔ NT lhs ∈ rhs prod.
Proof.
  unfold recurses. rewrite list_elem_of_fmap. split.
  - intros (sym & -> & Hsym). apply list_elem_of_filter in Hsym as [Hnt Hin].
    by destruct sym.
  - intros Hin. exists (NT lhs). split; [done|].
    by apply list_elem_of_filter.
Qed.

Lemma candidates_exceeded G constraints depth_information symbol bound :
  constraints !! symbol = Some bound →
  (bound < default 0 (depth_information !! symbol))%Z →
  candidates G constraints depth_information symbol
  = filter (λ prod, NT symbol ∉ rhs prod) (productions G symbol).
Proof.
  intros Hb Hlt. unfold candidates. rewrite Hb.
  destruct (decide (bound < _)%Z) as [_|?]; [|done].
  apply list_filter_iff. intros prod. by rewrite recurses_iff.
Qed.

(** The depth-constrained sampler at a nonterminal whose count of open
    recursions, the entry included, exceeds its bound: the candidates are
    the productions of the nonterminal whose right-hand side does not
    contain it, in rule order; with no candidate left the sampler raises,
    whatever the fuel; otherwise it reads one variate, picks the candidate
    that [choice] without probabilities returns for it (the first one on
    the draw 0), which does not recurse on the nonterminal, and the
    derivation goes on with the right-hand side of that candidate. *)
Theorem depth_constrained_excludes_recursion (fuel : nat) (G : Grammar)
    (constraints depth_information : gmap string Z) (symbol : string)
    (bound : Z) (g : rng) :
  let entered := enter symbol depth_information in
  let remainder := candidates G constraints entered symbol in
  constraints !! symbol = Some bound →
  (bound < default 0 (entered !! symbol))%Z →
  remainder = filter (λ prod, NT symbol ∉ rhs prod) (productions G symbol) ∧
  (∀ prod, prod ∈ remainder ↔ prod ∈ productions G symbol ∧ NT symbol ∉ rhs prod) ∧
  (remainder = [] →
   _depth_constrained_sampler (S fuel) G constraints symbol (depth_information, g)
   = (Raise Exception, (entered, g))) ∧
  (remainder ≠ [] →
   ∃ k prod,
     remainder !! k = Some prod ∧
     choice remainder None g = (Ret prod, (next g).2) ∧
     (tape g (pos g) = 0 → k = 0%nat) ∧
     prod ∈ productions G symbol ∧ (NT symbol ∉ rhs prod) ∧
     _depth_constrained_sampler (S fuel) G constraints symbol (depth_information, g)
     = (let* tree :=
          plain_rhs (_depth_constrained_sampler fuel G constraints)
                    (rhs prod) ("(" +:+ symbol) in
        let* _ := leave symbol in
        Py.ret tree) (entered, (next g).2)).
Proof.
  intros entered remainder Hb Hlt.
  pose proof (candidates_exceeded G constraints entered symbol bound Hb Hlt) as Hc.
  fold remainder in Hc.
  assert (∀ prod, prod ∈ remainder ↔
                  prod ∈ productions G symbol ∧ NT symbol ∉ rhs prod) as Hin.
  { intros prod. rewrite Hc, list_elem_of_filter. tauto. }
  split; [done|]. split; [done|]. split.
  - intros Hnil. simpl. unfold Py.bind, Py.modify, Py.gets. simpl.
    fold entered. fold remainder. by rewrite Hnil.
  - intros Hne.
    destruct (choice_none_returns remainder g Hne) as (k & prod & Hk & Hrun & Hfirst).
    exists k, prod. split; [done|]. split; [done|]. split; [done|].
    destruct (proj1 (Hin prod)) as [Hprod Hrec];
      [by eapply list_elem_of_lookup_2|].
    split; [done|]. split; [done|].
    simpl. unfold Py.bind at 1 2.
    unfold Py.modify, Py.gets. simpl. fold entered. fold remainder.
    destruct (decide (length remainder = 0%nat)) as [E|_].
    { by destruct remainder. }
    unfold Py.bind at 1. unfold on_rng at 1.
    by rewrite Hrun.
Qed.

(** [S] entered for the third time under the bound 2, in the grammar
    [S -> S + T | T]: the rule [S -> T] is what is left. *)
Lemma depth_constrained_excludes_recursion_witness :
  let depth_information : gmap string Z := {[ "S" := 2%Z ]} in
  let entered := enter "S" depth_information in
  let remainder := candidates arithmetic {[ "S" := 2%Z ]} entered "S" in
  remainder = filter (λ prod, NT "S" ∉ rhs prod) (productions arithmetic "S") ∧
  remainder = [Production "S" [NT "T"]] ∧
  (_depth_constrained_sampler 5 arithmetic {[ "S" := 2%Z ]} "S"
     (depth_information, const_tape half)).1 = Ret "(S (T 2)".
Proof.
  cbv zeta.
  destruct (depth_constrained_excludes_recursion 4 arithmetic {[ "S" := 2%Z ]}
              {[ "S" := 2%Z ]} "S" 2 (const_tape half)) as (Hrem & _ & _ & _).
  - reflexivity.
  - by vm_compute.
  - split; [exact Hrem|]. split; by vm_compute.
Defined.

(** With every rule recursive the exclusion leaves nothing and the sampler
    raises. *)
Example depth_constrained_no_candidate :
  (_depth_constrained_sampler 5 looping {[ "S" := 0%Z ]} "S"
     (∅, const_tape half)).1 = Raise Exception.
Proof. by vm_compute. Qed.

End DepthConstrained.

(** ** The convergent sampler: counts and weights *)

Section Counts.

Import Sampler PathWeights.
Local Open Scope Qc_scope.
Implicit Types (pcount : gmap production Z) (prod : production).

Lemma count_bump d prod pcount prod' :
  count (bump d prod pcount) prod'
  = if decide (prod' = prod) then (count pcount prod' + d)%Z else count pcount prod'.
Proof.
  unfold bump, count at 1. destruct (decide (prod' = prod)) as [->|Hne].
  - by rewrite lookup_insert_eq.
  - by rewrite lookup_insert_ne.
Qed.

Lemma agree_refl pcount : agree pcount pcount.
Proof. done. Qed.

Lemma agree_sym pcount1 pcount2 : agree pcount1 pcount2 → agree pcount2 pcount1.
Proof. intros Ha prod. by rewrite Ha. Qed.

Lemma agree_trans pcount1 pcount2 pcount3 :
  agree pcount1 pcount2 → agree pcount2 pcount3 → agree pcount1 pcount3.
Proof. intros H12 H23 prod. by rewrite H12. Qed.

Lemma agree_bump d prod pcount1 pcount2 :
  agree pcount1 pcount2 → agree (bump d prod pcount1) (bump d prod pcount2).
Proof. intros Ha prod'. rewrite !count_bump. by rewrite Ha. Qed.

(** The decrement undoes the increment, as far as the counts go. *)
Lemma agree_bump_back prod pcount pcount' :
  agree pcount' (bump 1 prod pcount) → agree (bump (-1) prod pcount') pcount.
Proof.
  intros Ha prod'. rewrite count_bump, Ha, count_bump.
  case_decide; lia.
Qed.

(** The weight of a production depends on its count alone: a key with the
    count 0 weighs [cfactor ** 0 = 1], as an absent key does. *)
Lemma weight_by_count cfactor pcount prod :
  match pcount !! prod with
  | Some k => pow cfactor k
  | None => Ret 1
  end = pow cfactor (count pcount prod).
Proof. unfold count. by destruct (pcount !! prod). Qed.

Lemma weights_by_count cfactor pcount prods :
  weights cfactor pcount prods
  = foldr (λ prod acc,
             let+ w := pow cfactor (count pcount prod) in
             let+ ws := acc in Ret (w :: ws)) (Ret []) prods.
Proof.
  induction prods as [|prod prods IH]; simpl; [done|].
  by rewrite weight_by_count, IH.
Qed.

Lemma weights_agree cfactor pcount1 pcount2 prods :
  agree pcount1 pcount2 →
  weights cfactor pcount1 prods = weights cfactor pcount2 prods.
Proof.
  intros Ha. rewrite !weights_by_count.
  induction prods as [|prod prods IH]; simpl; [done|]. by rewrite Ha, IH.
Qed.

Lemma pow_nat cfactor (n : nat) : pow cfactor (Z.of_nat n) = Ret (cfactor ^ n).
Proof.
  destruct n as [|n]; [done|]. simpl. by rewrite SuccNat2Pos.id_succ.
Qed.

(** Under counts that are the uses on the path, the weights of the code
    are [cfactor] to the power of the uses. *)
Lemma weights_path cfactor pcount path prods :
  counts_path pcount path →
  weights cfactor pcount prods = Ret (path_weight cfactor path <$> prods).
Proof.
  intros Hc. rewrite weights_by_count.
  induction prods as [|prod prods IH]; simpl; [done|].
  by rewrite IH, Hc, pow_nat.
Qed.

Lemma uses_cons prod path prod' :
  uses (prod :: path) prod'
  = if decide (prod' = prod) then S (uses path prod') else uses path prod'.
Proof.
  unfold uses. rewrite filter_cons.
  destruct (decide (prod = prod')) as [->|Hne].
  - by rewrite decide_True.
  - by rewrite decide_False by congruence.
Qed.

Lemma counts_path_bump prod pcount path :
  counts_path pcount path → counts_path (bump 1 prod pcount) (prod :: path).
Proof.
  intros Hc prod'. rewrite count_bump, uses_cons, Hc. case_decide; lia.
Qed.

Lemma counts_path_agree pcount pcount' path :
  agree pcount' pcount → counts_path pcount path → counts_path pcount' path.
Proof. intros Ha Hc prod. by rewrite Ha. Qed.

End Counts.

(** ** Weights and probabilities *)

Section Draws.

Import Sampler PathWeights.
Local Open Scope Qc_scope.
Implicit Types (ws probs : list Qc) (x : Qc).

Lemma sum_from (c0 : Qc) ws : foldl Qcplus c0 ws = c0 + sum_probs ws.
Proof.
  revert c0. induction ws as [|w ws IH]; intros c0; simpl.
  - by rewrite Qcplus_0_r.
  - by rewrite IH, Qcplus_assoc.
Qed.

(** Python's [sum], a left fold, is the sum. *)
Lemma sum_sum_probs ws : sum ws = sum_probs ws.
Proof. unfold sum. by rewrite sum_from, Qcplus_0_l. Qed.

Lemma sum_probs_ones n : sum_probs (replicate n 1) = Qc_of_Z (Z.of_nat n).
Proof.
  induction n as [|n IH]; [by apply Qc_is_canon|].
  rewrite Qc_of_nat_succ, <- IH. simpl. apply Qcplus_comm.
Qed.

(** With no production used the weights are all 1. *)
Lemma path_weights_root cfactor prods :
  path_weight cfactor [] <$> prods = replicate (length prods) 1.
Proof. induction prods as [|prod prods IH]; [done|]. by rewrite fmap_cons, IH. Qed.

(** Weights that are all 1 are normalised to the probabilities that
    [choice] takes when it is given none. *)
Lemma normalize_ones n :
  (0 < n)%nat → normalize (replicate n 1) = uniform_probs n.
Proof.
  intros Hn. unfold normalize. rewrite sum_sum_probs, sum_probs_ones.
  destruct n as [|n]; [lia|].
  change (replicate (S n) 1) with (1 :: replicate n 1) at 1.
  cbv iota beta.
  destruct (decide (Qc_of_Z (Z.of_nat (S n)) = 0)) as [E|_].
  - pose proof (Qc_of_nat_pos (S n) Hn) as Hpos. rewrite E in Hpos.
    by destruct (Qclt_not_eq _ _ Hpos).
  - unfold uniform_probs. by rewrite fmap_replicate.
Qed.

(** What [choice] returns is one of the options, and it reads one
    variate. *)
Lemma choice_ret_elem {A} (options : list A) probs g o g1 :
  choice options (Some probs) g = (Ret o, g1) → o ∈ options ∧ g1 = (next g).2.
Proof.
  rewrite choice_unfold. intros [= Hi <-]. split; [|done].
  by eapply index_ret_elem.
Qed.

End Draws.

(** ** The convergent sampler, step by step *)

Section ConvergentSteps.

Import Sampler PathWeights.
Local Open Scope Z_scope.

Implicit Types (rec : string → M cstore (string * Z * Z)).

Lemma convergent_rhs_nil rec tree depths num_prod s :
  convergent_rhs rec [] tree depths num_prod s = (Ret (tree, depths, num_prod), s).
Proof. reflexivity. Qed.

Lemma convergent_rhs_terminal rec sym rest tree depths num_prod s :
  convergent_rhs rec (T sym :: rest) tree depths num_prod s
  = convergent_rhs rec rest (tree +:+ " " +:+ sym) depths num_prod s.
Proof. reflexivity. Qed.

Lemma convergent_rhs_nonterminal rec sym rest tree depths num_prod s :
  convergent_rhs rec (NT sym :: rest) tree depths num_prod s
  = match rec sym s with
    | (Ret (subtree, depth, n), s') =>
        convergent_rhs rec rest (tree +:+ " " +:+ subtree +:+ ")")
                       (depths ++ [depth]) (num_prod + n) s'
    | (Raise e, s') => (Raise e, s')
    | (Diverge, s') => (Diverge, s')
    end.
Proof.
  simpl. unfold Py.bind. by destruct (rec sym s) as [[[[subtree depth] n]|e|] s'].
Qed.

(** One node of the convergent sampler. *)
Lemma convergent_sampler_node fuel G cfactor symbol pcount g :
  _convergent_sampler (S fuel) G cfactor symbol (pcount, g)
  = match weights cfactor pcount (productions G symbol) with
    | Ret ws =>
        match normalize ws with
        | Ret probs =>
            match choice (productions G symbol) (Some probs) g with
            | (Ret chosen, g1) =>
                match convergent_rhs (_convergent_sampler fuel G cfactor)
                        (rhs chosen) ("(" +:+ symbol) [] 1
                        (bump 1 chosen pcount, g1) with
                | (Ret walked, (pcount2, g2)) =>
                    (Ret (finish walked), (bump (-1) chosen pcount2, g2))
                | (Raise e, s) => (Raise e, s)
                | (Diverge, s) => (Diverge, s)
                end
            | (Raise e, g1) => (Raise e, (pcount, g1))
            | (Diverge, g1) => (Diverge, (pcount, g1))
            end
        | Raise e => (Raise e, (pcount, g))
        | Diverge => (Diverge, (pcount, g))
        end
    | Raise e => (Raise e, (pcount, g))
    | Diverge => (Diverge, (pcount, g))
    end.
Proof.
  change (_convergent_sampler (S fuel) G cfactor symbol)
    with (let* pcount := Py.gets fst in
          let* weights := Py.lift (weights cfactor pcount (productions G symbol)) in
          let* probs := Py.lift (normalize weights) in
          let* chosen := on_rng (choice (productions G symbol) (Some probs)) in
          let* _ := Py.modify (prod_map (bump 1 chosen) id) in
          let* walked :=
            convergent_rhs (_convergent_sampler fuel G cfactor)
                           (rhs chosen) ("(" +:+ symbol) [] 1 in
          let '(tree, depths, num_prod) := walked in
          let depth := if decide (0 < length depths)%nat
                       then max_list depths + 1 else 1 in
          let* _ := Py.modify (prod_map (bump (-1) chosen) id) in
          Py.ret (tree, depth, num_prod)).
  unfold Py.bind, Py.gets, Py.lift, Py.modify, Py.ret, on_rng.
  cbn [fst snd prod_map id].
  destruct (weights _ _ _) as [ws|e|]; [|reflexivity..].
  destruct (normalize ws) as [probs|e|]; [|reflexivity..].
  destruct (choice _ _ _) as [[chosen|e|] g1]; [|reflexivity..].
  by destruct (convergent_rhs _ _ _ _ _ _)
    as [[[[tree depths] num_prod]|e|] [pcount2 g2]].
Qed.

(** *** The counts come back *)

Lemma convergent_rhs_restores rec syms tree depths num_prod pcount g :
  (∀ sym p g', restores (rec sym (p, g')) p) →
  restores (convergent_rhs rec syms tree depths num_prod (pcount, g)) pcount.
Proof.
  intros Hrec. revert tree depths num_prod pcount g.
  induction syms as [|[sym|sym] rest IH]; intros tree depths num_prod pcount g.
  - rewrite convergent_rhs_nil. apply agree_refl.
  - rewrite convergent_rhs_nonterminal.
    specialize (Hrec sym pcount g).
    destruct (rec sym (pcount, g)) as [[[[subtree depth] n]|e|] [p1 g1]]; [|done..].
    simpl in Hrec.
    specialize (IH (tree +:+ " " +:+ subtree +:+ ")") (depths ++ [depth])
                   (num_prod + n) p1 g1).
    destruct (convergent_rhs _ _ _ _ _ _) as [[walked|e|] [p2 g2]]; [|done..].
    simpl in *. by eapply agree_trans.
  - rewrite convergent_rhs_terminal. apply IH.
Qed.

(** A call of the convergent sampler that returns leaves every count of
    [pcount] as it found it. *)
Lemma convergent_sampler_restores fuel G cfactor symbol pcount g :
  restores (_convergent_sampler fuel G cfactor symbol (pcount, g)) pcount.
Proof.
  revert symbol pcount g. induction fuel as [|fuel IH]; intros symbol pcount g;
    [done|].
  rewrite convergent_sampler_node.
  destruct (weights _ _ _) as [ws|e|]; [|done..].
  destruct (normalize ws) as [probs|e|]; [|done..].
  destruct (choice _ _ _) as [[chosen|e|] g1]; [|done..].
  pose proof (convergent_rhs_restores (_convergent_sampler fuel G cfactor)
                (rhs chosen) ("(" +:+ symbol) [] 1 (bump 1 chosen pcount) g1 IH)
    as Hwalk.
  destruct (convergent_rhs _ _ _ _ _ _) as [[walked|e|] [pcount2 g2]]; [|done..].
  simpl in *. by apply agree_bump_back.
Qed.

(** *** Only the counts matter *)

Lemma convergent_rhs_same rec syms tree depths num_prod pcount1 pcount2 g :
  (∀ sym p1 p2 g', agree p1 p2 → same_outcome (rec sym (p1, g')) (rec sym (p2, g'))) →
  agree pcount1 pcount2 →
  same_outcome (convergent_rhs rec syms tree depths num_prod (pcount1, g))
               (convergent_rhs rec syms tree depths num_prod (pcount2, g)).
Proof.
  intros Hrec. revert tree depths num_prod pcount1 pcount2 g.
  induction syms as [|[sym|sym] rest IH];
    intros tree depths num_prod pcount1 pcount2 g Ha.
  - by rewrite !convergent_rhs_nil.
  - rewrite !convergent_rhs_nonterminal.
    destruct (Hrec sym pcount1 pcount2 g Ha) as (Hr & Hg & Hp).
    destruct (rec sym (pcount1, g)) as [r1 [p1 g1]].
    destruct (rec sym (pcount2, g)) as [r2 [p2 g2]].
    simpl in Hr, Hg, Hp. subst r2 g2.
    destruct r1 as [[[subtree depth] n]|e|]; [by apply IH|done..].
  - rewrite !convergent_rhs_terminal. by apply IH.
Qed.

(** Two calls from dictionaries with the same counts and from the same
    generator state return the same, leave the generator in the same
    state, and leave dictionaries with the same counts. *)
Lemma convergent_sampler_same fuel G cfactor symbol pcount1 pcount2 g :
  agree pcount1 pcount2 →
  same_outcome (_convergent_sampler fuel G cfactor symbol (pcount1, g))
               (_convergent_sampler fuel G cfactor symbol (pcount2, g)).
Proof.
  revert symbol pcount1 pcount2 g.
  induction fuel as [|fuel IH]; intros symbol pcount1 pcount2 g Ha; [done|].
  rewrite !convergent_sampler_node.
  rewrite <- (weights_agree cfactor pcount1 pcount2) by done.
  destruct (weights _ _ _) as [ws|e|]; [|done..].
  destruct (normalize ws) as [probs|e|]; [|done..].
  destruct (choice _ _ _) as [[chosen|e|] g1]; [|done..].
  destruct (convergent_rhs_same (_convergent_sampler fuel G cfactor)
              (rhs chosen) ("(" +:+ symbol) [] 1
              (bump 1 chosen pcount1) (bump 1 chosen pcount2) g1 IH)
    as (Hr & Hg & Hp); [by apply agree_bump|].
  destruct (convergent_rhs _ _ _ _ _ (bump 1 chosen pcount1, g1)) as [r1 [p1 g1']].
  destruct (convergent_rhs _ _ _ _ _ (bump 1 chosen pcount2, g1)) as [r2 [p2 g2']].
  simpl in Hr, Hg, Hp. subst r2 g2'.
  destruct r1 as [walked|e|]; [|done..].
  repeat split; simpl; [done..|]. by apply agree_bump.
Qed.

End ConvergentSteps.

(** ** The claims on convergent sampling *)

Section ConvergentClaims.

Import Sampler PathWeights Examples.
Local Open Scope Qc_scope.

Lemma repeat_sample_restores n (body : M cstore string) pcount g :
  (∀ p g', restores (body (p, g')) p) →
  restores (repeat_sample n body (pcount, g)) pcount.
Proof.
  intros Hbody. revert pcount g. induction n as [|n IH]; intros pcount g.
  { apply agree_refl. }
  simpl. unfold Py.bind at 1. specialize (Hbody pcount g).
  destruct (body (pcount, g)) as [[tree|e|] [p1 g1]]; [|done..].
  unfold Py.bind at 1. specialize (IH p1 g1).
  destruct (repeat_sample n body (p1, g1)) as [[trees|e|] [p2 g2]]; [|done..].
  simpl in *. by eapply agree_trans.
Qed.

Lemma repeat_sample_same n (body : M cstore string) pcount1 pcount2 g :
  (∀ p1 p2 g', agree p1 p2 → same_outcome (body (p1, g')) (body (p2, g'))) →
  agree pcount1 pcount2 →
  same_outcome (repeat_sample n body (pcount1, g))
               (repeat_sample n body (pcount2, g)).
Proof.
  intros Hbody. revert pcount1 pcount2 g.
  induction n as [|n IH]; intros pcount1 pcount2 g Ha; [done|].
  simpl. unfold Py.bind at 1 3.
  destruct (Hbody pcount1 pcount2 g Ha) as (Hr & Hg & Hp).
  destruct (body (pcount1, g)) as [r1 [p1 g1]].
  destruct (body (pcount2, g)) as [r2 [p2 g2]].
  simpl in Hr, Hg, Hp. subst r2 g2.
  destruct r1 as [tree|e|]; [|done..].
  unfold Py.bind at 1 2.
  destruct (IH p1 p2 g1 Hp) as (Hr' & Hg' & Hp').
  destruct (repeat_sample n body (p1, g1)) as [r1' [p1' g1']].
  destruct (repeat_sample n body (p2, g1)) as [r2' [p2' g2']].
  simpl in Hr', Hg', Hp'. subst r2' g2'.
  by destruct r1'.
Qed.

Lemma convergent_body_restores fuel G cfactor start_symbol p g :
  restores (convergent_body fuel G cfactor start_symbol (p, g)) p.
Proof.
  unfold convergent_body, Py.bind.
  pose proof (convergent_sampler_restores fuel G cfactor start_symbol p g) as Hr.
  by destruct (_convergent_sampler _ _ _ _ _) as [[sample|e|] [p1 g1]].
Qed.

Lemma convergent_body_same fuel G cfactor start_symbol p1 p2 g :
  agree p1 p2 →
  same_outcome (convergent_body fuel G cfactor start_symbol (p1, g))
               (convergent_body fuel G cfactor start_symbol (p2, g)).
Proof.
  intros Ha. unfold convergent_body, Py.bind.
  destruct (convergent_sampler_same fuel G cfactor start_symbol p1 p2 g Ha)
    as (Hr & Hg & Hp).
  destruct (_convergent_sampler _ _ _ _ (p1, g)) as [r1 [p1' g1]].
  destruct (_convergent_sampler _ _ _ _ (p2, g)) as [r2 [p2' g2]].
  simpl in Hr, Hg, Hp. subst r2 g2. by destruct r1.
Qed.

Lemma sampler_convergent fuel G n cfactor depth_information start_symbol s :
  convergent G = true → depth_constrained G = false →
  sampler fuel G n cfactor depth_information start_symbol s
  = repeat_sample n
      (convergent_body fuel G cfactor (default (start G) start_symbol)) s.
Proof. intros Hc Hd. unfold sampler. by rewrite Hc, Hd. Qed.

(** C4. In convergent mode, when a call of [sampler] completes, every
    production has in the shared dictionary [pcount] the count it had
    before the call; and the call made again from the same generator state,
    on the dictionary the first call left, returns the same trees. *)
Theorem convergent_sampling_restores_counts (fuel : nat) (G : Grammar) (n : nat)
    (cfactor : Qc) (depth_information : option (gmap string Z))
    (start_symbol : option string) (pcount pcount' : gmap production Z)
    (g g' : rng) (trees : list string) :
  convergent G = true →
  sampler fuel G n cfactor depth_information start_symbol (pcount, g)
  = (Ret trees, (pcount', g')) →
  (∀ prod, count pcount' prod = count pcount prod) ∧
  (sampler fuel G n cfactor depth_information start_symbol (pcount', g)).1
  = Ret trees.
Proof.
  intros Hconv Hrun.
  destruct (depth_constrained G) eqn:Hd.
  { unfold sampler in Hrun. by rewrite Hconv, Hd in Hrun. }
  rewrite sampler_convergent in Hrun |- * by done.
  pose proof (repeat_sample_restores n
                (convergent_body fuel G cfactor (default (start G) start_symbol))
                pcount g (convergent_body_restores _ _ _ _)) as Hres.
  rewrite Hrun in Hres. simpl in Hres. split; [exact Hres|].
  destruct (repeat_sample_same n
              (convergent_body fuel G cfactor (default (start G) start_symbol))
              pcount' pcount g (convergent_body_same _ _ _ _) Hres)
    as (Hr & _ & _).
  by rewrite Hr, Hrun.
Qed.

(** C4 at work: two trees of the arithmetic grammar; the first call
    leaves keys with the count 0 in the dictionary, and the second call
    returns the same trees. *)
Lemma convergent_sampling_restores_counts_witness :
  let run := sampler 10 (set_convergent arithmetic) 2 half None None
                     (∅, of_list [Q2Qc (1 # 10); Q2Qc (9 # 10); Q2Qc (3 # 10);
                                  Q2Qc (7 # 10); Q2Qc (9 # 10); Q2Qc (6 # 10)]) in
  run.1 = Ret ["(S (S (T 1)) + (T 2))"; "(S (T 2))"] ∧
  run.2.1 !! Production "T" [T "2"] = Some 0%Z ∧
  (∀ prod, count run.2.1 prod = count ∅ prod) ∧
  (sampler 10 (set_convergent arithmetic) 2 half None None
           (run.2.1, of_list [Q2Qc (1 # 10); Q2Qc (9 # 10); Q2Qc (3 # 10);
                              Q2Qc (7 # 10); Q2Qc (9 # 10); Q2Qc (6 # 10)])).1
  = Ret ["(S (S (T 1)) + (T 2))"; "(S (T 2))"].
Proof.
  cbv zeta.
  destruct (sampler 10 (set_convergent arithmetic) 2 half None None
              (∅, of_list [Q2Qc (1 # 10); Q2Qc (9 # 10); Q2Qc (3 # 10);
                           Q2Qc (7 # 10); Q2Qc (9 # 10); Q2Qc (6 # 10)]))
    as [r [pcount' g']] eqn:Hrun.
  assert (r = Ret ["(S (S (T 1)) + (T 2))"; "(S (T 2))"]) as ->.
  { apply (f_equal fst) in Hrun. simpl in Hrun. rewrite <- Hrun. by vm_compute. }
  split; [done|]. split.
  - change (pcount' !! Production "T" [T "2"] = Some 0%Z).
    apply (f_equal (λ run, run.2.1 !! Production "T" [T "2"])) in Hrun.
    cbn [fst snd] in Hrun. rewrite <- Hrun. vm_compute. reflexivity.
  - by apply (convergent_sampling_restores_counts 10 (set_convergent arithmetic)
                2 half None None ∅ pcount' _ g').
Defined.

(** The convergent sampler at a node, from counts that are the uses of
    the productions on the path to the node (all 0 at the root of a
    top-level call). For a [cfactor] from 0 to 1 the weight of each
    candidate production is [cfactor] to the power of its uses on the
    path, and it is 1 when there is none, whatever the [cfactor]; at the
    root the weights are normalised to the probabilities that [choice]
    takes when it is given none. A call that returns has normalised the
    weights to probabilities and has gone on with the candidate that
    [choice] returns for them, after one draw: the walk of its right-hand
    side ran on counts that are the uses on the path with that production
    added, its result is what the call returns, and the counts that the
    call leaves are again the uses on the path. *)
Theorem convergent_sampler_weighs_by_path_uses (fuel : nat) (G : Grammar)
    (cfactor : Qc) (symbol : string) (path : list production)
    (pcount : gmap production Z) (g : rng) :
  counts_path pcount path →
  let prods := productions G symbol in
  (0 ≤ cfactor ∧ cfactor ≤ 1 →
   weights cfactor pcount prods = Ret (path_weight cfactor path <$> prods)) ∧
  (∀ prod, uses path prod = 0%nat → path_weight cfactor path prod = 1) ∧
  (path = [] → prods ≠ [] →
   normalize (path_weight cfactor path <$> prods) = uniform_probs (length prods)) ∧
  (∀ sample pcount' g',
     _convergent_sampler (S fuel) G cfactor symbol (pcount, g)
     = (Ret sample, (pcount', g')) →
     ∃ probs chosen walked pcount2,
       normalize (path_weight cfactor path <$> prods) = Ret probs ∧
       choice prods (Some probs) g = (Ret chosen, (next g).2) ∧
       chosen ∈ prods ∧
       counts_path (bump 1 chosen pcount) (chosen :: path) ∧
       convergent_rhs (_convergent_sampler fuel G cfactor) (rhs chosen)
                      ("(" +:+ symbol) [] 1 (bump 1 chosen pcount, (next g).2)
       = (Ret walked, (pcount2, g')) ∧
       sample = finish walked ∧
       pcount' = bump (-1) chosen pcount2 ∧
       counts_path pcount' path).
Proof.
  intros Hc prods.
  split; [by intros _; apply weights_path|].
  split; [by intros prod Hu; unfold path_weight; rewrite Hu|].
  split.
  - intros -> Hne. rewrite path_weights_root. apply normalize_ones.
    destruct prods; [done|simpl; lia].
  - intros sample pcount' g' Hrun.
    pose proof (convergent_sampler_restores (S fuel) G cfactor symbol pcount g)
      as Hres.
    rewrite Hrun in Hres. simpl in Hres.
    rewrite convergent_sampler_node in Hrun. fold prods in Hrun.
    rewrite (weights_path cfactor pcount path prods Hc) in Hrun.
    destruct (normalize _) as [probs|e|] eqn:Hnorm; [|done..].
    destruct (choice _ _ _) as [[chosen|e|] g1] eqn:Hch; [|done..].
    destruct (choice_ret_elem _ _ _ _ _ Hch) as [Hin ->].
    destruct (convergent_rhs _ _ _ _ _ _) as [[walked|e|] [pcount2 g2]] eqn:Hwalk;
      [|done..].
    injection Hrun as <- <- <-.
    exists probs, chosen, walked, pcount2.
    split; [done|]. split; [done|].
    split; [done|]. split; [by apply counts_path_bump|].
    split; [done|]. split; [done|]. split; [done|].
    by eapply counts_path_agree.
Qed.

(** A top-level call on the arithmetic grammar with [cfactor = 1/2], from
    the empty dictionary and the empty path. *)
Lemma convergent_sampler_weighs_by_path_uses_witness :
  let g := const_tape (Q2Qc (3 # 10)) in
  let prods := productions arithmetic "S" in
  weights half ∅ prods = Ret [1; 1] ∧
  normalize [1; 1] = Ret [half; half] ∧
  ∃ chosen pcount',
    (_convergent_sampler 10 arithmetic half "S" (∅, g)).1
    = Ret ("(S (S (S (T 1)) + (T 1)) + (T 1)", 4%Z, 6%Z) ∧
    (_convergent_sampler 10 arithmetic half "S" (∅, g)).2.1 = pcount' ∧
    chosen ∈ prods ∧
    counts_path (bump 1 chosen ∅) [chosen] ∧
    counts_path pcount' [].
Proof.
  cbv zeta.
  destruct (convergent_sampler_weighs_by_path_uses 9 arithmetic half "S" []
              ∅ (const_tape (Q2Qc (3 # 10))))
    as (Hw & _ & Hn & Hrun); [done|].
  split; [by apply Hw|]. split; [by apply Hn|].
  destruct (_convergent_sampler 10 arithmetic half "S"
              (∅, const_tape (Q2Qc (3 # 10)))) as [r [pcount' g']] eqn:E.
  assert (r = Ret ("(S (S (S (T 1)) + (T 1)) + (T 1)", 4%Z, 6%Z)) as ->.
  { apply (f_equal fst) in E. simpl in E. rewrite <- E. by vm_compute. }
  destruct (Hrun _ pcount' g' eq_refl)
    as (probs & chosen & walked & pcount2 & _ & _ & Hin & Hbump & _ & _ & _ & Hback).
  by exists chosen, pcount'.
Defined.

End ConvergentClaims.

(** ** [check_grammar] and symbols without productions *)

Section GrammarChecks.

Import Sampler Methods Examples.

Lemma nonterminal_has_production G nt :
  nt ∈ nonterminals G → productions G nt ≠ [].
Proof.
  unfold nonterminals, non_unique_nonterminals, productions.
  rewrite elem_of_remove_dups, list_elem_of_fmap.
  intros (prod & -> & Hprod) Hnil.
  assert (prod ∈ filter (λ p, lhs p = lhs prod) (rules G)) as Hin
    by by apply list_elem_of_filter.
  rewrite Hnil in Hin. by apply elem_of_nil in Hin.
Qed.

Lemma check_productions_ok G nts :
  Forall (λ nt, nt ∈ nonterminals G) nts → check_productions G nts = Ret ().
Proof.
  induction 1 as [|nt nts Hnt _ IH]; simpl; [done|].
  case_decide as Hlen; [|done].
  apply nonterminal_has_production in Hnt.
  by destruct (productions G nt).
Qed.

Lemma terminals_disjoint G :
  filter (λ t, t ∈ nonterminals G) (terminals G) = [].
Proof.
  destruct (filter _ (terminals G)) as [|t l] eqn:E; [done|].
  assert (t ∈ filter (λ t, t ∈ nonterminals G) (terminals G)) as Hin
    by (rewrite E; by left).
  apply list_elem_of_filter in Hin as [Hnt Hin]. unfold terminals in Hin.
  apply elem_of_remove_dups, list_elem_of_filter in Hin. by destruct Hin.
Qed.

(** [check_grammar] accepts every grammar: no string is both in
    [terminals] and in [nonterminals], and every nonterminal has a
    production, by the way [__init__] builds the two lists. A nonterminal
    that a right-hand side names and no rule defines is not found: it is
    listed among the terminals. *)
Theorem check_grammar_accepts_every_grammar G :
  check_grammar G = Ret () ∧
  ∀ prod name,
    prod ∈ rules G → NT name ∈ rhs prod → productions G name = [] →
    name ∈ terminals G ∧ name ∉ nonterminals G.
Proof.
  split.
  - unfold check_grammar. rewrite terminals_disjoint. simpl.
    apply check_productions_ok, Forall_forall. auto.
  - intros prod name Hprod Hname Hnil.
    assert (name ∉ nonterminals G) as Hnt.
    { intros Hnt. by apply nonterminal_has_production in Hnt. }
    split; [|done]. unfold terminals.
    rewrite elem_of_remove_dups, list_elem_of_filter. split; [done|].
    apply list_elem_of_bind. exists prod. split; [|done].
    apply list_elem_of_fmap. by exists (NT name).
Qed.

Lemma check_grammar_accepts_every_grammar_witness :
  check_grammar dangling = Ret () ∧
  "A" ∈ terminals dangling ∧ "A" ∉ nonterminals dangling.
Proof.
  destruct (check_grammar_accepts_every_grammar dangling) as [Hcheck Hname].
  split; [done|].
  apply (Hname (Production "S" [NT "A"; T "x"]) "A"); [|by left|done].
  by left.
Defined.

(** On a symbol without productions every sampler fails, each in its own
    way: [_sampler] divides by zero in [choice] after one draw,
    [_convergent_sampler] indexes an empty list after one draw,
    [sampler_maxMin_func] indexes an empty list, and
    [_depth_constrained_sampler] raises its own exception after it has
    entered the symbol in [depth_information]. *)
Theorem samplers_without_productions (fuel : nat) G symbol cfactor pcount
    constraints depth_information largest g :
  productions G symbol = [] →
  _sampler (S fuel) G symbol g = (Raise ZeroDivisionError, (next g).2) ∧
  _convergent_sampler (S fuel) G cfactor symbol (pcount, g)
    = (Raise IndexError, (pcount, (next g).2)) ∧
  sampler_maxMin_func (S fuel) G symbol largest g = (Raise IndexError, g) ∧
  _depth_constrained_sampler (S fuel) G constraints symbol (depth_information, g)
    = (Raise Exception, (enter symbol depth_information, g)).
Proof.
  intros Hnil. repeat split.
  - simpl. by rewrite Hnil.
  - simpl. unfold Py.bind, Py.gets, Py.lift. simpl. by rewrite Hnil.
  - simpl. unfold Py.bind, Py.lift. rewrite Hnil. by destruct largest.
  - simpl. unfold Py.bind, Py.modify, Py.gets. simpl.
    assert (candidates G constraints (enter symbol depth_information) symbol = [])
      as ->; [|done].
    unfold candidates. rewrite Hnil.
    destruct (constraints !! symbol); [case_decide|]; done.
Qed.

Lemma samplers_without_productions_witness :
  _sampler 3 dangling "A" (const_tape half)
    = (Raise ZeroDivisionError, (next (const_tape half)).2) ∧
  _convergent_sampler 3 dangling half "A" (∅, const_tape half)
    = (Raise IndexError, (∅, (next (const_tape half)).2)) ∧
  sampler_maxMin_func 3 dangling "A" true (const_tape half)
    = (Raise IndexError, const_tape half) ∧
  _depth_constrained_sampler 3 dangling ∅ "A" (∅, const_tape half)
    = (Raise Exception, (enter "A" ∅, const_tape half)).
Proof.
  apply (samplers_without_productions 2 dangling "A" half ∅ ∅ ∅ true
           (const_tape half)).
  reflexivity.
Defined.

End GrammarChecks.

(** ** The brackets of sampled trees *)

Section SampledTrees.

Import Tree Sampler Shape Logic Examples.
Implicit Types (s t : string) (n : nat).

Lemma upto_app_cases n s t :
  (n ≤ String.length s)%nat ∧ PyStr.upto n (s +:+ t) = PyStr.upto n s ∨
  ∃ k, PyStr.upto n (s +:+ t) = s +:+ PyStr.upto k t.
Proof.
  destruct (decide (n ≤ String.length s)%nat) as [Hn|Hn].
  - left. split; [done|]. by apply take_app_le.
  - right. exists (n - String.length s)%nat.
    rewrite <- take_app_ge. f_equal. lia.
Qed.

Lemma open_tree_app s t : open_tree s → well_bracketed t → open_tree (s +:+ t).
Proof.
  intros [Hs Hpre] [Ht Htpre]. split.
  - rewrite excess_app. lia.
  - intros n Hn. destruct (upto_app_cases n s t) as [[_ ->]|[k ->]].
    + by apply Hpre.
    + rewrite excess_app. specialize (Htpre k). lia.
Qed.

Lemma well_bracketed_word w : bracket_free w = true → well_bracketed (" " +:+ w).
Proof.
  intros Hw. split.
  - change (" " +:+ w) with (String " " w). rewrite excess_cons.
    rewrite <- (upto_all w). rewrite bracket_free_excess by done. done.
  - intros [|n]; [done|]. change (" " +:+ w) with (String " " w).
    rewrite upto_cons, excess_cons, bracket_free_excess by done. done.
Qed.

Lemma open_tree_closed t :
  open_tree t → well_bracketed (t +:+ ")") ∧ delimited (t +:+ ")").
Proof.
  intros [Ht Hpre].
  assert (excess (t +:+ ")") = 0) as Hall by (rewrite excess_app, Ht; done).
  split; split; try done.
  - intros n. destruct (upto_app_cases n t ")") as [[_ ->]|[k ->]].
    + destruct n as [|n]; [done|]. specialize (Hpre (S n)). lia.
    + rewrite excess_app, Ht. destruct k as [|[|k]]; by vm_compute.
  - intros n [Hn Hlen]. rewrite length_app_str in Hlen. simpl in Hlen.
    rewrite take_app_le by lia. by apply Hpre.
Qed.

Lemma well_bracketed_subtree t : open_tree t → well_bracketed (" " +:+ t +:+ ")").
Proof.
  intros Ht. apply open_tree_closed in Ht as [[Hall Hpre] _].
  change (" " +:+ t +:+ ")") with (String " " (t +:+ ")")). split.
  - by rewrite excess_cons, Hall.
  - intros [|n]; [done|]. rewrite upto_cons, excess_cons. specialize (Hpre n).
    change (bracket " ") with 0. lia.
Qed.

Lemma open_tree_root symbol : bracket_free symbol = true → open_tree ("(" +:+ symbol).
Proof.
  intros Hs. change ("(" +:+ symbol) with (String "(" symbol). split.
  - rewrite excess_cons. rewrite <- (upto_all symbol).
    by rewrite bracket_free_excess.
  - intros [|n] Hn; [lia|]. by rewrite upto_cons, excess_cons, bracket_free_excess.
Qed.

Lemma wp_choice {A} (options : list A) probs (Q : result A → rng → Prop) g :
  (∀ o, o ∈ options → Q (Ret o) (next g).2) →
  (∀ e, Q (Raise e) (next g).2) →
  wp (choice options probs) Q g.
Proof.
  intros Hret Hraise. unfold choice. apply wp_bind, wp_rand. unfold after.
  apply wp_bind.
  assert (∀ ps, wp (Py.lift (Py.index options (scan (tape g (pos g)) 0 0 ps)))
                   Q (next g).2) as Hindex.
  { intros ps. apply wp_lift.
    destruct (Py.index options _) as [o|e|] eqn:E.
    - apply Hret. by eapply index_ret_elem.
    - apply Hraise.
    - by apply index_not_diverge in E. }
  destruct probs as [ps|].
  - apply wp_ret. unfold after. apply Hindex.
  - apply wp_lift. unfold after, uniform_probs.
    destruct (length options); [apply Hraise|apply Hindex].
Qed.

Lemma plain_words_rule G prod :
  plain_words G = true → prod ∈ rules G →
  bracket_free (lhs prod) = true ∧
  ∀ word, T word ∈ rhs prod → bracket_free word = true.
Proof.
  intros HG Hprod. unfold plain_words in HG.
  rewrite forallb_forall in HG. apply list_elem_of_In, HG in Hprod.
  apply andb_true_iff in Hprod as [Hl Hr]. split; [done|].
  intros word Hword. rewrite forallb_forall in Hr.
  by apply list_elem_of_In, Hr in Hword.
Qed.

Lemma productions_rule G symbol prod :
  prod ∈ productions G symbol → prod ∈ rules G ∧ lhs prod = symbol.
Proof. unfold productions. rewrite list_elem_of_filter. tauto. Qed.

(** The walk of a right-hand side keeps the tree open. *)
Lemma plain_rhs_open {S} (rec : string → M S string) syms tree (st : S) :
  (∀ sym (st' : S), wp (rec sym) returns_open st') →
  (∀ word, T word ∈ syms → bracket_free word = true) →
  open_tree tree →
  wp (plain_rhs rec syms tree) returns_open st.
Proof.
  intros Hrec. revert tree st.
  induction syms as [|[sym|word] syms IH]; intros tree st Hwords Htree; simpl.
  - apply wp_ret. by intros t [= <-].
  - apply wp_bind. eapply wp_mono; [|apply Hrec].
    intros [subtree|e|] st' Hsub; unfold after; [|by intros t..].
    apply IH.
    + intros word Hword. apply Hwords. by right.
    + apply open_tree_app; [done|]. apply well_bracketed_subtree. by apply Hsub.
  - apply IH.
    + intros w Hw. apply Hwords. by right.
    + apply open_tree_app; [done|].
      apply well_bracketed_word, Hwords. by left.
Qed.

Lemma sampler_open fuel G symbol g :
  plain_words G = true → wp (_sampler fuel G symbol) returns_open g.
Proof.
  intros HG. revert symbol g.
  induction fuel as [|fuel IH]; intros symbol g; [by intros t|]. simpl.
  apply wp_bind, wp_choice; [|by intros e t].
  intros prod [Hrule <-]%productions_rule. unfold after.
  destruct (plain_words_rule G prod HG Hrule) as [Hlhs Hwords].
  apply plain_rhs_open; [apply IH|done|by apply open_tree_root].
Qed.

Lemma candidates_rule G constraints depth_information symbol prod :
  prod ∈ candidates G constraints depth_information symbol →
  prod ∈ rules G ∧ lhs prod = symbol.
Proof.
  unfold candidates. destruct (constraints !! symbol); [case_decide|];
    rewrite ?list_elem_of_filter; intros Hin; apply productions_rule; tauto.
Qed.

Lemma depth_constrained_sampler_open fuel G constraints symbol (st : dstore) :
  plain_words G = true →
  wp (_depth_constrained_sampler fuel G constraints symbol) returns_open st.
Proof.
  intros HG. revert symbol st.
  induction fuel as [|fuel IH]; intros symbol st; [by intros t|]. simpl.
  apply wp_bind, wp_modify. unfold after.
  apply wp_bind, wp_gets. unfold after.
  case_decide; [by intros t|].
  destruct st as [depth_information g]. cbn [prod_map fst snd id].
  apply wp_bind, wp_on_rng, wp_choice; [|by intros e t].
  intros prod [Hrule <-]%candidates_rule. unfold after.
  destruct (plain_words_rule G prod HG Hrule) as [Hlhs Hwords].
  apply wp_bind. eapply wp_mono;
    [|apply plain_rhs_open; [apply IH|done|by apply open_tree_root]].
  intros [tree|e|] [d g'] Htree; unfold after; [|by intros t..].
  apply wp_bind. unfold wp, leave, after.
  destruct (d !! lhs prod); simpl; [|by intros t].
  intros t [= <-]. by apply Htree.
Qed.

Lemma convergent_rhs_open (rec : string → M cstore (string * Z * Z))
    syms tree depths num_prod (st : cstore) :
  (∀ sym (st1 st2 : cstore) x, rec sym st1 = (Ret x, st2) → open_tree x.1.1) →
  (∀ word, T word ∈ syms → bracket_free word = true) →
  open_tree tree →
  ∀ walked st', convergent_rhs rec syms tree depths num_prod st = (Ret walked, st') →
                open_tree walked.1.1.
Proof.
  intros Hrec. revert tree depths num_prod st.
  induction syms as [|[sym|word] syms IH];
    intros tree depths num_prod st Hwords Htree walked st'.
  - rewrite convergent_rhs_nil. by intros [= <- _].
  - rewrite convergent_rhs_nonterminal.
    destruct (rec sym st) as [[[[subtree depth] k]|e|] st1] eqn:E; [|done..].
    apply IH.
    + intros word Hword. apply Hwords. by right.
    + apply open_tree_app; [done|]. apply well_bracketed_subtree.
      apply (Hrec _ _ _ _ E).
  - rewrite convergent_rhs_terminal. apply IH.
    + intros w Hw. apply Hwords. by right.
    + apply open_tree_app; [done|]. apply well_bracketed_word, Hwords. by left.
Qed.

Lemma convergent_sampler_open fuel G cfactor symbol (st st' : cstore) x :
  plain_words G = true →
  _convergent_sampler fuel G cfactor symbol st = (Ret x, st') → open_tree x.1.1.
Proof.
  intros HG. revert symbol st st' x.
  induction fuel as [|fuel IH]; intros symbol [pcount g] st' x; [done|].
  rewrite convergent_sampler_node.
  destruct (weights _ _ _) as [ws|e|]; [|done..].
  destruct (normalize ws) as [probs|e|]; [|done..].
  destruct (choice _ _ _) as [[chosen|e|] g1] eqn:Hchoice; [|done..].
  destruct (convergent_rhs _ _ _ _ _ _) as [[walked|e|] [pcount2 g2]] eqn:Hwalk;
    [|done..].
  intros [= <- _].
  rewrite choice_unfold in Hchoice. injection Hchoice as Hchosen _.
  apply index_ret_elem, productions_rule in Hchosen as [Hrule <-].
  destruct (plain_words_rule G chosen HG Hrule) as [Hlhs Hwords].
  assert (open_tree walked.1.1) as Hopen.
  { eapply convergent_rhs_open; [|exact Hwords| |exact Hwalk].
    - intros sym st1 st2 y. apply IH.
    - by apply open_tree_root. }
  by destruct walked as [[tree depths] num_prod].
Qed.

Lemma repeat_sample_closed {S} n (body : M S string) (st : S) :
  (∀ st', wp body returns_open st') →
  wp (repeat_sample n body)
     (λ r _, ∀ trees, r = Ret trees →
        length trees = n ∧ Forall (λ t, well_bracketed t ∧ delimited t) trees) st.
Proof.
  intros Hbody. revert st. induction n as [|n IH]; intros st; simpl.
  - apply wp_ret. by intros trees [= <-].
  - apply wp_bind. eapply wp_mono; [|apply Hbody].
    intros [tree|e|] st1 Htree; unfold after; [|by intros trees..].
    apply wp_bind. eapply wp_mono; [|apply IH].
    intros [trees|e|] st2 Htrees; unfold after; [|by intros trees..].
    apply wp_ret. intros ? [= <-].
    destruct (Htrees trees eq_refl) as [Hlen Hall]. split; [simpl; lia|].
    apply Forall_cons. split; [|done]. by apply open_tree_closed, Htree.
Qed.

(** Every tree that [sampler] returns, in each of its three modes, has
    its brackets matched and is delimited by its first and last bracket,
    provided no left-hand side and no terminal of the grammar holds a
    bracket; and [sampler] returns as many trees as it was asked for. *)
Theorem sampled_trees_are_well_bracketed fuel G n cfactor depth_information
    start_symbol (st : cstore) trees :
  plain_words G = true →
  (sampler fuel G n cfactor depth_information start_symbol st).1 = Ret trees →
  length trees = n ∧ ∀ tree, tree ∈ trees → well_bracketed tree ∧ delimited tree.
Proof.
  intros HG Hrun.
  enough (wp (sampler fuel G n cfactor depth_information start_symbol)
             (λ r _, ∀ trees, r = Ret trees →
                length trees = n ∧
                Forall (λ t, well_bracketed t ∧ delimited t) trees) st) as Hwp.
  { destruct (Hwp trees Hrun) as [Hlen Hall]. split; [done|].
    by apply Forall_forall. }
  clear Hrun. unfold sampler.
  destruct (convergent G && depth_constrained G); [by intros ?|].
  destruct (convergent G).
  { apply repeat_sample_closed. intros st1. apply wp_bind.
    unfold wp, after.
    destruct (_convergent_sampler _ _ _ _ _) as [[x|e|] st2] eqn:E;
      [|by intros ?..].
    intros t [= <-]. by eapply convergent_sampler_open. }
  destruct (depth_constrained G).
  - destruct (depth_constraints G) as [constraints|]; [|by intros ?].
    destruct st as [pcount g]. unfold wp, with_depth_information.
    pose proof (repeat_sample_closed n
      (_depth_constrained_sampler fuel G constraints (default (start G) start_symbol))
      (default ∅ depth_information, g)) as Hwp.
    unfold wp in Hwp.
    destruct (repeat_sample _ _ _) as [r [d g']]. simpl in *.
    apply Hwp. intros st'. by apply depth_constrained_sampler_open.
  - destruct st as [pcount g]. apply wp_on_rng.
    pose proof (repeat_sample_closed n
      (_sampler fuel G (default (start G) start_symbol)) g) as Hwp.
    apply Hwp. intros g'. by apply sampler_open.
Qed.

Lemma sampled_trees_are_well_bracketed_witness :
  length ["(S (S (T 1)) + (T 2))"; "(S (T 2))"] = 2%nat ∧
  ∀ tree, tree ∈ ["(S (S (T 1)) + (T 2))"; "(S (T 2))"] →
          well_bracketed tree ∧ delimited tree.
Proof.
  apply (sampled_trees_are_well_bracketed 10 (set_convergent arithmetic) 2 half
           None None
           (∅, of_list [Q2Qc (1 # 10); Q2Qc (9 # 10); Q2Qc (3 # 10);
                        Q2Qc (7 # 10); Q2Qc (9 # 10); Q2Qc (6 # 10)])).
  - reflexivity.
  - vm_compute. reflexivity.
Defined.

End SampledTrees.

(** ** [sampler_maxMin_func] and the lowest draws *)

Section ExtremeDraws.

Import Tree Sampler Methods Shape Logic Examples.
Local Open Scope Qc_scope.

Lemma lowest_draws_tape g g' : tape g' = tape g → lowest_draws g → lowest_draws g'.
Proof. intros Ht. unfold lowest_draws. by rewrite Ht. Qed.

(** On the draw 0 [choice] takes the first option: [0 < 1 / num]. *)
Lemma choice_lowest G symbol g :
  lowest_draws g →
  choice (productions G symbol) None g
  = (as_choice_failure (Py.index (productions G symbol) 0%Z), (next g).2).
Proof.
  intros Hg. destruct (productions G symbol) as [|prod prods] eqn:E; [done|].
  rewrite <- E.
  destruct (choice_none_returns (productions G symbol) g)
    as (k & o & Ho & -> & Hk); [by rewrite E|].
  rewrite (Hk (Hg (pos g))) in Ho.
  pose proof (index_nat _ 0 _ Ho) as Hi.
  change (Z.of_nat 0) with 0%Z in Hi. by rewrite Hi.
Qed.

Lemma plain_rhs_lowest (P : rng → Prop)
    (rec1 : string → M rng string) (rec2 : string → M () string) syms tree g :
  (∀ sym g1, P g1 →
     (rec1 sym g1).1 = as_choice_failure (rec2 sym ()).1 ∧ P (rec1 sym g1).2) →
  P g →
  (plain_rhs rec1 syms tree g).1 = as_choice_failure (plain_rhs rec2 syms tree ()).1 ∧
  P (plain_rhs rec1 syms tree g).2.
Proof.
  intros Hrec. revert tree g.
  induction syms as [|[sym|word] syms IH]; intros tree g Hg; simpl; [done| |by apply IH].
  unfold Py.bind. destruct (Hrec sym g Hg) as [Hr HP].
  destruct (rec1 sym g) as [r1 g1], (rec2 sym ()) as [r2 []]. simpl in *.
  subst r1. destruct r2 as [subtree|e|]; simpl; [by apply IH|done..].
Qed.

Lemma plain_rhs_keeps {S} (rec : string → M S string) syms tree (st : S) :
  (∀ sym, wp (rec sym) (keeps st) st) →
  wp (plain_rhs rec syms tree) (keeps st) st.
Proof.
  intros Hrec. revert tree.
  induction syms as [|[sym|word] syms IH]; intros tree; simpl.
  - apply wp_ret. by split.
  - apply wp_bind. eapply wp_mono; [|apply Hrec].
    intros [subtree|e|] st' [-> He]; unfold after; [apply IH|by split|by split].
  - apply IH.
Qed.

Lemma sampler_maxMin_func_keeps {S} fuel G symbol largest (st : S) :
  wp (sampler_maxMin_func fuel G symbol largest) (keeps st) st.
Proof.
  revert symbol. induction fuel as [|fuel IH]; intros symbol; [by split|]. simpl.
  apply wp_bind, wp_index; unfold after.
  - intros prod _. apply plain_rhs_keeps. intros sym. apply IH.
  - split; [done|]. by intros e [= <-].
Qed.

Lemma sampler_maxMin_func_open {S} fuel G symbol largest (st : S) :
  plain_words G = true →
  wp (sampler_maxMin_func fuel G symbol largest) returns_open st.
Proof.
  intros HG. revert symbol st.
  induction fuel as [|fuel IH]; intros symbol st; [by intros t|]. simpl.
  apply wp_bind, wp_index; unfold after; [|by intros t].
  intros prod [Hrule <-]%productions_rule.
  destruct (plain_words_rule G prod HG Hrule) as [Hlhs Hwords].
  apply plain_rhs_open; [intros sym st'; apply IH|done|by apply open_tree_root].
Qed.

(** [sampler_maxMin_func] walks the grammar without a draw: it leaves the
    generator as it was, raises nothing but the [IndexError] of a symbol
    without productions, and a tree that it returns has every bracket
    matched but the first, which [sampler] would close, when no word of
    the grammar holds a bracket. With [largest=False] it returns the tree
    that [_sampler] returns when every draw is 0: where it raises,
    [_sampler] raises the division by zero of [choice], and where one goes
    on the other does. *)
Theorem sampler_maxMin_func_walks_without_draws fuel G symbol g :
  (∀ largest,
     (sampler_maxMin_func fuel G symbol largest g).2 = g ∧
     match (sampler_maxMin_func fuel G symbol largest g).1 with
     | Ret tree => plain_words G = true → open_tree tree
     | Raise e => e = IndexError
     | Diverge => True
     end) ∧
  (lowest_draws g →
   (_sampler fuel G symbol g).1
   = as_choice_failure (sampler_maxMin_func fuel G symbol false ()).1 ∧
   lowest_draws (_sampler fuel G symbol g).2).
Proof.
  split.
  - intros largest.
    pose proof (sampler_maxMin_func_keeps fuel G symbol largest g) as [Hst He].
    split; [done|].
    destruct (sampler_maxMin_func fuel G symbol largest g).1 as [tree|e|] eqn:E;
      [|by apply He|done].
    intros HG.
    pose proof (sampler_maxMin_func_open fuel G symbol largest g HG) as Hopen.
    by apply Hopen.
  - revert symbol g. induction fuel as [|fuel IH]; intros symbol g Hg; [done|].
    simpl. unfold Py.bind, Py.lift. rewrite (choice_lowest _ _ _ Hg).
    destruct (Py.index _ _) as [prod|e|]; simpl.
    + apply (plain_rhs_lowest lowest_draws).
      * intros sym g1. apply IH.
      * by apply (lowest_draws_tape g).
    + split; [done|]. by apply (lowest_draws_tape g).
    + split; [done|]. by apply (lowest_draws_tape g).
Qed.

Lemma sampler_maxMin_func_walks_without_draws_witness :
  sampler_maxMin_func 5 arithmetic "T" true (const_tape 0)
  = (Ret "(T 2", const_tape 0) ∧
  open_tree "(T 2" ∧
  (_sampler 5 arithmetic "T" (const_tape 0)).1 = Ret "(T 1".
Proof.
  destruct (sampler_maxMin_func_walks_without_draws 5 arithmetic "T" (const_tape 0))
    as [Hall Hlow].
  split; [reflexivity|]. split.
  - destruct (Hall true) as [_ Htree]. by apply Htree.
  - destruct Hlow as [-> _]; [|reflexivity]. by intros k.
Defined.

End ExtremeDraws.

(** ** The enumeration of sentences: [generator] *)

Section Generators.

Import Methods Examples.

Lemma bind_sublist_both {A B} (f1 f2 : A → list B) l1 l2 :
  l1 `sublist_of` l2 → (∀ x, f1 x `sublist_of` f2 x) →
  l1 ≫= f1 `sublist_of` l2 ≫= f2.
Proof.
  intros Hl Hf. induction Hl as [|x l1 l2 _ IH|x l1 l2 _ IH]; simpl.
  - done.
  - by apply sublist_app.
  - by apply sublist_inserts_l.
Qed.

Lemma generate_all_with_sublist one1 one2 items :
  (∀ item, one1 item `sublist_of` one2 item) →
  generate_all_with one1 items `sublist_of` generate_all_with one2 items.
Proof.
  intros Hone. induction items as [|item items IH]; simpl; [done|].
  apply bind_sublist_both; [done|]. intros frag1.
  by apply bind_sublist_both.
Qed.

Lemma generate_one_deeper G depth item :
  _generate_one G depth item `sublist_of` _generate_one G (S depth) item.
Proof.
  revert item. induction depth as [|depth IH]; intros item.
  { apply sublist_nil_l. }
  destruct item as [name|word]; [|done].
  change (_generate_one G (S depth) (NT name))
    with (prod ← productions G name;
          generate_all_with (_generate_one G depth) (rhs prod)).
  change (_generate_one G (S (S depth)) (NT name))
    with (prod ← productions G name;
          generate_all_with (_generate_one G (S depth)) (rhs prod)).
  apply bind_sublist_both; [done|]. intros prod.
  by apply generate_all_with_sublist.
Qed.

Lemma generate_one_mono G depth depth' item :
  (depth ≤ depth')%nat →
  _generate_one G depth item `sublist_of` _generate_one G depth' item.
Proof.
  induction 1 as [|depth' _ IH]; [done|].
  etrans; [exact IH|apply generate_one_deeper].
Qed.

(** The arguments of [generator] at their edges: without depth there is
    no sentence; an [n] that is negative or above [sys.maxsize] is refused;
    and [n = 0] does not stand for no sentence but for no limit, so that
    an [n] from 1 to [sys.maxsize] returns the first [n] of what [n = 0]
    returns. *)
Theorem generator_limits G (n depth : Z) :
  (depth ≤ 0 → 0 ≤ n ≤ maxsize → generator G n depth = Ret []) ∧
  (n < 0 ∨ maxsize < n → generator G n depth = Raise ValueError) ∧
  (0 < n ≤ maxsize → ∃ sentences,
     generator G 0 depth = Ret sentences ∧
     generator G n depth = Ret (take (Z.to_nat n) sentences)).
Proof.
  assert (0 < maxsize) as Hmax by done.
  unfold generator, _generate. cbn [default Py.rbind]. repeat split.
  - intros Hdepth Hn. assert (Z.to_nat depth = 0%nat) as Hd by lia.
    assert (_generate_all G [NT (start G)] 0 = []) as Hnil by reflexivity.
    repeat case_decide; try lia; simpl; rewrite Hd, Hnil, ?take_nil; done.
  - intros Hn. repeat case_decide; try lia; done.
  - intros Hn. eexists. split; [done|].
    repeat case_decide; try lia. cbn [Py.rbind]. by rewrite fmap_take.
Qed.

Lemma generator_limits_witness :
  generator arithmetic 1 0 = Ret [] ∧
  generator arithmetic (-1) 3 = Raise ValueError ∧
  generator arithmetic (maxsize + 1) 3 = Raise ValueError ∧
  ∃ sentences,
    generator arithmetic 0 4 = Ret sentences ∧
    generator arithmetic 2 4 = Ret (take (Z.to_nat 2) sentences).
Proof.
  split; [|split; [|split]].
  - apply (generator_limits arithmetic 1 0); [lia|]. by vm_compute.
  - apply (generator_limits arithmetic (-1) 3); lia.
  - apply (generator_limits arithmetic (maxsize + 1) 3); lia.
  - apply (generator_limits arithmetic 2 4). by vm_compute.
Defined.

(** A greater depth only adds sentences: what [generator] returns without
    a limit at one depth is, in the same order, part of what it returns at
    any greater depth. *)
Theorem generator_grows_with_depth G (depth depth' : Z) :
  depth ≤ depth' →
  ∃ fewer more,
    generator G 0 depth = Ret fewer ∧ generator G 0 depth' = Ret more ∧
    fewer `sublist_of` more.
Proof.
  intros Hd. unfold generator, _generate. cbn [default Py.rbind].
  destruct (decide (0 = 0)) as [_|?]; [|done]. cbn [Py.rbind].
  eexists _, _. split; [done|]. split; [done|].
  apply fmap_sublist. unfold _generate_all.
  apply generate_all_with_sublist. intros item.
  apply generate_one_mono. simpl. lia.
Qed.

Lemma generator_grows_with_depth_witness :
  ∃ fewer more,
    generator arithmetic 0 3 = Ret fewer ∧ generator arithmetic 0 4 = Ret more ∧
    fewer `sublist_of` more.
Proof. apply (generator_grows_with_depth arithmetic 3 4). lia. Defined.

(** The first sentence is not kept when the depth grows: with the
    recursive rule first, the deeper derivation comes first. *)
Example generator_first_sentence_changes :
  generator arithmetic 1 3 = Ret ["1"] ∧
  generator arithmetic 1 4 = Ret ["1 + 1"].
Proof. split; reflexivity. Qed.

Lemma generate_all_with_words (ok : string → Prop) one items :
  (∀ item, item ∈ items →
     ∀ sentence, sentence ∈ one item → Forall ok sentence) →
  ∀ sentence, sentence ∈ generate_all_with one items → Forall ok sentence.
Proof.
  induction items as [|item items IH]; intros Hone sentence; simpl.
  { intros ->%list_elem_of_singleton. done. }
  rewrite list_elem_of_bind. intros (frag1 & Hsent & Hfrag1).
  apply list_elem_of_bind in Hsent as (frag2 & Hsent & Hfrag2).
  apply list_elem_of_singleton in Hsent as ->.
  apply Forall_app. split.
  - apply (Hone item); [by left|done].
  - apply IH; [|done]. intros item' Hitem'. apply Hone. by right.
Qed.

Lemma generate_one_words G depth item :
  (∀ word, item = T word → ∃ prod, prod ∈ rules G ∧ T word ∈ rhs prod) →
  ∀ sentence, sentence ∈ _generate_one G depth item →
    Forall (λ word, ∃ prod, prod ∈ rules G ∧ T word ∈ rhs prod) sentence.
Proof.
  revert item. induction depth as [|depth IH]; intros item Hitem sentence.
  { by intros ?%elem_of_nil. }
  destruct item as [name|word]; simpl.
  - rewrite list_elem_of_bind. intros (prod & Hsent & Hprod).
    unfold productions in Hprod. apply list_elem_of_filter in Hprod as [_ Hprod].
    revert sentence Hsent. apply generate_all_with_words.
    intros item Hin. apply IH. intros word ->. by exists prod.
  - intros ->%list_elem_of_singleton. apply Forall_singleton. by apply Hitem.
Qed.

(** Every word of every sentence that [_generate] yields is a terminal of
    a rule of the grammar. *)
Theorem generated_words_are_terminals G start depth n sentences :
  _generate G start depth n = Ret sentences →
  ∀ sentence word, sentence ∈ sentences → word ∈ sentence →
    ∃ prod, prod ∈ rules G ∧ T word ∈ rhs prod.
Proof.
  intros Hgen sentence word Hsent Hword.
  assert (∀ s, s ∈ _generate_all G [NT (default (Cfg.start G) start)]
                     (Z.to_nat (default maxsize depth)) →
               Forall (λ word, ∃ prod, prod ∈ rules G ∧ T word ∈ rhs prod) s)
    as Hall.
  { apply generate_all_with_words. intros item ->%list_elem_of_singleton.
    by apply generate_one_words. }
  assert (sentence ∈ _generate_all G [NT (default (Cfg.start G) start)]
                       (Z.to_nat (default maxsize depth))) as Hin.
  { unfold _generate in Hgen. destruct n as [n|]; [|by injection Hgen as <-].
    repeat case_decide; try done; injection Hgen as <-; [done|].
    by eapply sublist_subseteq; [apply sublist_take|]. }
  apply Hall in Hin. rewrite Forall_forall in Hin. by apply Hin.
Qed.

Lemma generated_words_are_terminals_witness :
  _generate arithmetic None (Some 4) (Some 2)
    = Ret [["1"; "+"; "1"]; ["1"; "+"; "2"]] ∧
  ∃ prod, prod ∈ rules arithmetic ∧ T "+" ∈ rhs prod.
Proof.
  split; [reflexivity|].
  apply (generated_words_are_terminals arithmetic None (Some 4) (Some 2)
           [["1"; "+"; "1"]; ["1"; "+"; "2"]] eq_refl ["1"; "+"; "1"] "+").
  - by left.
  - right. by left.
Defined.

End Generators.

(** ** The depths of the scopes of a tree *)

Section Depths.

Import Tree Methods Shape Examples.

Lemma counts_open_enter depths q symbol k :
  counts_open depths q → depths !! symbol = Some k →
  counts_open (<[symbol := k + 1]> depths) (symbol :: q).
Proof.
  intros Hinv Hk nt k'. rewrite filter_cons.
  destruct (decide (symbol = nt)) as [->|Hne].
  - rewrite lookup_insert_eq. intros [= <-]. rewrite (Hinv nt k Hk). simpl. lia.
  - rewrite lookup_insert_ne by done. apply Hinv.
Qed.

Lemma counts_open_leave depths q nt k :
  counts_open depths (nt :: q) → depths !! nt = Some k →
  counts_open (<[nt := k - 1]> depths) q.
Proof.
  intros Hinv Hk nt' k'.
  destruct (decide (nt = nt')) as [<-|Hne].
  - rewrite lookup_insert_eq. intros [= <-]. rewrite (Hinv nt k Hk).
    rewrite filter_cons_True by done. simpl. lia.
  - rewrite lookup_insert_ne by done. intros Hk'.
    rewrite (Hinv nt' k' Hk'). by rewrite filter_cons_False.
Qed.

Lemma is_Some_insert_same (depths : gmap string Z) symbol k k' nt :
  depths !! symbol = Some k →
  is_Some (<[symbol := k']> depths !! nt) ↔ is_Some (depths !! nt).
Proof.
  intros Hk. destruct (decide (symbol = nt)) as [<-|Hne].
  - rewrite lookup_insert_eq, Hk. split; by eexists.
  - by rewrite lookup_insert_ne.
Qed.

Lemma close_scopes_inv reversed depths q depths' q' :
  counts_open depths q →
  close_scopes reversed depths q = Ret (depths', q') →
  counts_open depths' q' ∧ q' = drop (closes reversed) q ∧
  ∀ nt, is_Some (depths' !! nt) ↔ is_Some (depths !! nt).
Proof.
  revert depths q. induction reversed as [|c rest IH]; intros depths q Hinv; [done|].
  simpl. case_decide; [|by intros [= <- <-]].
  destruct q as [|nt q]; [done|].
  destruct (depths !! nt) as [k|] eqn:Hk; [|done].
  intros Hrest. apply IH in Hrest as (Hinv' & Hq & Hdom);
    [|by eapply counts_open_leave].
  split; [done|]. split; [done|].
  intros nt'. rewrite Hdom. by eapply is_Some_insert_same.
Qed.

Lemma depth_pre_loop_inv tokens depths q depths' :
  counts_open depths q →
  depth_pre_loop tokens depths q = Ret depths' →
  counts_open depths' (open_scopes tokens q) ∧
  ∀ nt, is_Some (depths' !! nt) ↔ is_Some (depths !! nt).
Proof.
  revert depths q. induction tokens as [|token tokens IH]; intros depths q Hinv.
  { by intros [= <-]. }
  destruct token as [|c symbol]; [by apply IH|].
  cbn [depth_pre_loop open_scopes]. case_decide.
  - destruct (depths !! symbol) as [k|] eqn:Hk; [|done].
    intros Hrest. apply IH in Hrest as [Hinv' Hdom];
      [|by apply counts_open_enter].
    split; [done|]. intros nt. rewrite Hdom. by eapply is_Some_insert_same.
  - destruct (close_scopes _ depths q) as [[d1 q1]|e|] eqn:Hclose; [|done..].
    apply close_scopes_inv in Hclose as (Hinv1 & -> & Hdom1); [|done].
    cbn [Py.rbind fst snd]. intros Hrest.
    apply IH in Hrest as [Hinv' Hdom]; [|done].
    split; [done|]. intros nt. by rewrite Hdom.
Qed.

Lemma zero_depths_lookup G nt :
  zero_depths G !! nt = if decide (nt ∈ nonterminals G) then Some 0 else None.
Proof.
  unfold zero_depths. case_decide as Hnt.
  - apply elem_of_list_to_map.
    + rewrite <- list_fmap_compose. simpl.
      rewrite list_fmap_id. apply NoDup_remove_dups.
    + apply list_elem_of_fmap. by exists nt.
  - apply not_elem_of_list_to_map. rewrite <- list_fmap_compose. simpl.
    by rewrite list_fmap_id.
Qed.

Lemma counts_open_zero G : counts_open (zero_depths G) [].
Proof.
  intros nt k. rewrite zero_depths_lookup. case_decide; [|done].
  by intros [= <-].
Qed.

(** What [compute_depth_information_for_pre] returns has the
    nonterminals of the grammar as its keys, and for every key the number
    of scopes of that nonterminal among those that the tokens of the tree
    string leave open; so no depth that it reports is negative. *)
Theorem depth_information_for_pre_counts_open_scopes G tree depth_information :
  compute_depth_information_for_pre G tree = Ret depth_information →
  ∀ nt,
    depth_information !! nt
    = if decide (nt ∈ nonterminals G)
      then Some (Z.of_nat (length (filter (λ x, x = nt)
                                          (open_scopes (split tree) []))))
      else None.
Proof.
  intros Hrun nt. unfold compute_depth_information_for_pre in Hrun.
  apply depth_pre_loop_inv in Hrun as [Hq Hdom]; [|apply counts_open_zero].
  specialize (Hdom nt). rewrite zero_depths_lookup in Hdom.
  destruct (depth_information !! nt) as [k|] eqn:Hk.
  - case_decide.
    + by rewrite (Hq nt k Hk).
    + by destruct (proj1 Hdom ltac:(by eexists)).
  - case_decide; [|done].
    by destruct (proj2 Hdom ltac:(by eexists)).
Qed.

Lemma depth_information_for_pre_counts_open_scopes_witness :
  compute_depth_information_for_pre arithmetic "(S (S (T 1))"
    = Ret {[ "S" := 1; "T" := 0 ]} ∧
  open_scopes (split "(S (S (T 1))") [] = ["S"] ∧
  ({[ "S" := 1; "T" := 0 ]} : gmap string Z) !! "S"
  = if decide ("S" ∈ nonterminals arithmetic)
    then Some (Z.of_nat (length (filter (λ x, x = "S")
                                        (open_scopes (split "(S (S (T 1))") []))))
    else None.
Proof.
  split; [by vm_compute|]. split; [reflexivity|].
  apply (depth_information_for_pre_counts_open_scopes arithmetic "(S (S (T 1))").
  vm_compute. reflexivity.
Defined.

Lemma counts_open_nonneg depths q nt k :
  counts_open depths q → depths !! nt = Some k → 0 ≤ k.
Proof. intros Hinv Hk. rewrite (Hinv nt k Hk). lia. Qed.

Lemma depth_loop_inv i tokens depths helper q result :
  counts_open helper q →
  (i + length tokens ≤ length depths)%nat →
  depth_loop i tokens depths helper q = Ret result →
  length result = length depths ∧
  (∀ j, (j < i)%nat → result !! j = depths !! j) ∧
  (∀ j, (i + length tokens ≤ j)%nat → result !! j = depths !! j) ∧
  ∀ j token, tokens !! j = Some token →
    if starts_scope token
    then ∃ k, result !! (i + j)%nat = Some k ∧ 1 ≤ k
    else result !! (i + j)%nat = depths !! (i + j)%nat.
Proof.
  revert i depths helper q.
  induction tokens as [|token tokens IH]; intros i depths helper q Hinv Hlen.
  { intros [= <-]. repeat split; try done. }
  simpl in Hlen.
  assert (∀ depths1 helper1 q1,
    counts_open helper1 q1 → length depths1 = length depths →
    (∀ j, j ≠ i → depths1 !! j = depths !! j) →
    (if starts_scope token
     then ∃ k, depths1 !! i = Some k ∧ 1 ≤ k
     else depths1 !! i = depths !! i) →
    depth_loop (S i) tokens depths1 helper1 q1 = Ret result →
    length result = length depths ∧
    (∀ j, (j < i)%nat → result !! j = depths !! j) ∧
    (∀ j, (i + S (length tokens) ≤ j)%nat → result !! j = depths !! j) ∧
    ∀ j token', (token :: tokens) !! j = Some token' →
      if starts_scope token'
      then ∃ k, result !! (i + j)%nat = Some k ∧ 1 ≤ k
      else result !! (i + j)%nat = depths !! (i + j)%nat) as Hstep.
  { intros depths1 helper1 q1 Hinv1 Hlen1 Hsame Hhere Hrest.
    apply IH in Hrest as (Hl & Hbefore & Hafter & Hat); [|done|lia].
    split; [lia|]. split; [|split].
    - intros j Hj. rewrite Hbefore by lia. apply Hsame. lia.
    - intros j Hj. rewrite Hafter by lia. apply Hsame. lia.
    - intros [|j] token'; simpl.
      + intros [= <-]. rewrite Nat.add_0_r, Hbefore by lia. exact Hhere.
      + intros Htoken. specialize (Hat j token' Htoken).
        replace (i + S j)%nat with (S i + j)%nat by lia.
        destruct (starts_scope token'); [done|].
        rewrite Hat. apply Hsame. lia. }
  destruct token as [|c symbol].
  { apply Hstep; done. }
  cbn [depth_loop]. unfold starts_scope in Hstep.
  destruct (decide (c = lparen)) as [Hc|Hc].
  - rewrite bool_decide_eq_true_2 in Hstep by done.
    destruct (helper !! symbol) as [k|] eqn:Hk; [|done].
    apply Hstep.
    + by apply counts_open_enter.
    + by rewrite length_insert.
    + intros j Hj. by rewrite list_lookup_insert_ne.
    + exists (k + 1). split; [apply list_lookup_insert_eq; lia|].
      pose proof (counts_open_nonneg _ _ _ _ Hinv Hk). lia.
  - rewrite bool_decide_eq_false_2 in Hstep by done.
    destruct (close_scopes _ helper q) as [[h1 q1]|e|] eqn:Hclose; [|done..].
    apply close_scopes_inv in Hclose as [Hinv1 _]; [|done].
    cbn [Py.rbind fst snd]. by apply Hstep.
Qed.

(** [compute_depth_information] returns one depth for every token of the
    tree string: at least 1 for a token that opens a scope, and 0 for
    every other. *)
Theorem depth_information_is_positive_at_scopes G tree depth_information :
  compute_depth_information G tree = Ret depth_information →
  length depth_information = length (split tree) ∧
  ∀ i token, split tree !! i = Some token →
    if starts_scope token
    then ∃ depth, depth_information !! i = Some depth ∧ 1 ≤ depth
    else depth_information !! i = Some 0.
Proof.
  intros Hrun. unfold compute_depth_information in Hrun.
  apply depth_loop_inv in Hrun as (Hlen & _ & _ & Hat);
    [|apply counts_open_zero|by rewrite length_replicate].
  rewrite length_replicate in Hlen. split; [done|].
  intros i token Htoken. specialize (Hat i token Htoken). simpl in Hat.
  destruct (starts_scope token); [done|].
  rewrite Hat. apply lookup_replicate_2. by eapply lookup_lt_Some.
Qed.

Lemma depth_information_is_positive_at_scopes_witness :
  length [1; 2; 1; 0] = length (split "(S (S (T 1))") ∧
  ∀ i token, split "(S (S (T 1))" !! i = Some token →
    if starts_scope token
    then ∃ depth, [1; 2; 1; 0] !! i = Some depth ∧ 1 ≤ depth
    else [1; 2; 1; 0] !! i = Some 0.
Proof.
  apply (depth_information_is_positive_at_scopes arithmetic "(S (S (T 1))").
  vm_compute. reflexivity.
Defined.

End Depths.

(** ** [rand_subtree_fixed_head] *)

Section FixedHead.

Import Tree Methods Shape Examples.

(** The first item of a filtered range is below the others. *)
Lemma filter_seq_first (P : nat → Prop) `{!∀ i, Decision (P i)} a n j0 r i :
  filter P (seq a n) !! 0%nat = Some j0 →
  filter P (seq a n) !! r = Some i → (1 ≤ r)%nat → (j0 < i)%nat.
Proof.
  revert a. induction n as [|n IH]; intros a; [done|].
  simpl. rewrite filter_cons. case_decide.
  - intros [= <-]. destruct r as [|r]; [lia|]. simpl. intros Hi _.
    apply list_elem_of_lookup_2, list_elem_of_filter in Hi as [_ Hi].
    apply elem_of_seq in Hi. lia.
  - apply IH.
Qed.

(** The draw among the candidates: none gives [False]; one gives that
    one; of several, one after the first. *)
Lemma fixed_head_draw (candidates : list nat) g :
  unit_tape g →
  ∃ outcome,
    (if decide (length candidates = 0%nat) then Py.ret PyFalse
     else
       let* r :=
         if decide (1 < length candidates)%nat
         then np_randint 1 (Z.of_nat (length candidates))
         else Py.ret 0 in
       let* chosen := Py.lift (Py.index candidates r) in
       Py.ret (Index chosen)) g = (Ret outcome, if decide (1 < length candidates)%nat
                                               then (next g).2 else g) ∧
    match outcome with
    | PyFalse => candidates = []
    | Index i =>
        ∃ r, candidates !! r = Some i ∧
             ((1 < length candidates)%nat → (1 ≤ r)%nat)
    end.
Proof.
  intros Hg. destruct candidates as [|c0 [|c1 candidates]].
  - by exists PyFalse.
  - exists (Index c0). split; [done|]. exists 0%nat. split; [done|]. simpl. lia.
  - set (l := c0 :: c1 :: candidates).
    assert (2 ≤ length l)%nat as Hlen by (simpl; lia). clearbody l.
    destruct (decide (length l = 0%nat)) as [?|_]; [lia|].
    destruct (decide (1 < length l)%nat) as [_|?]; [|lia].
    unfold Py.bind, np_randint.
    destruct (decide (1 < Z.of_nat (length l))) as [_|?]; [|lia]. simpl.
    destruct (Hg (pos g)) as [H0 H1].
    pose proof (randbelow_range (Z.of_nat (length l) - 1) _ ltac:(lia) H0 H1) as Hr.
    set (r := randbelow (Z.of_nat (length l) - 1) (tape g (pos g))) in *.
    destruct (lookup_lt_is_Some_2 l (Z.to_nat (1 + r))) as [i Hi]; [lia|].
    exists (Index i). split.
    + unfold Py.lift. rewrite <- (Z2Nat.id (1 + r)) by lia.
      by rewrite (index_nat _ _ _ Hi).
    + exists (Z.to_nat (1 + r)). split; [done|]. lia.
Qed.

(** [rand_subtree_fixed_head] returns [False] when no token has the head
    asked for, and otherwise the index of a token with that head: the
    only such index, or one after the first of them. With depth
    constraints the index also has the depth asked for, and the call
    raises only what [compute_depth_information] raises. *)
Theorem rand_subtree_fixed_head_points_at_head G tree head_node constraint g :
  unit_tape g →
  match (rand_subtree_fixed_head G tree head_node constraint g).1 with
  | Ret (Index i) =>
      (∃ token, split tree !! i = Some token ∧ head token = head_node) ∧
      (depth_constrained G = true →
       ∃ depth_information,
         compute_depth_information G tree = Ret depth_information ∧
         constraint ≤ depth_information !!! i) ∧
      (depth_constrained G = false →
       (∃ j token, (j < i)%nat ∧ split tree !! j = Some token ∧
                   head token = head_node) ∨
       (∀ j token, split tree !! j = Some token → head token = head_node → j = i))
  | Ret PyFalse =>
      depth_constrained G = false →
      ∀ i token, split tree !! i = Some token → head token ≠ head_node
  | Raise e =>
      depth_constrained G = true ∧ compute_depth_information G tree = Raise e
  | Diverge => False
  end.
Proof.
  intros Hg.
  assert (∀ (P : nat → Prop) `{!∀ i, Decision (P i)} i,
            i ∈ filter P (seq 0 (length (split tree))) →
            P i ∧ ∃ token, split tree !! i = Some token ∧
                           split tree !!! i = token) as Hin.
  { intros P ? i [HP [_ Hi]%elem_of_seq]%list_elem_of_filter. split; [done|].
    destruct (lookup_lt_is_Some_2 (split tree) i) as [token Ht]; [lia|].
    exists token. split; [done|]. by apply list_lookup_total_correct. }
  assert (compute_depth_information G tree ≠ Diverge) as Hreturns.
  { clear Hin. unfold compute_depth_information.
    generalize (replicate (length (split tree)) 0)
               (zero_depths G) (@nil string) 0%nat.
    induction (split tree) as [|token tokens IH]; intros ds h q i; [done|].
    destruct token as [|c symbol]; [apply IH|]. cbn [depth_loop].
    case_decide; [destruct (h !! symbol); [apply IH|done]|].
    assert (∀ rev h q, close_scopes rev h q ≠ Diverge) as Hclose.
    { clear. induction rev as [|c rest IH]; intros h q; [done|]. simpl.
      case_decide; [|done]. destruct q as [|nt q]; [done|].
      destruct (h !! nt); [apply IH|done]. }
    destruct (close_scopes _ h q) as [[h1 q1]|e|] eqn:E;
      [apply IH|done|by apply Hclose in E]. }
  match goal with
  | |- match ?m.1 with _ => _ end =>
      enough (Logic.wp (rand_subtree_fixed_head G tree head_node constraint)
                (λ r _, match r with
                        | Ret (Index i) => _
                        | Ret PyFalse => _
                        | Raise e => _
                        | Diverge => False
                        end) g) as Hwp by exact Hwp
  end.
  unfold rand_subtree_fixed_head. apply wp_bind.
  destruct (depth_constrained G).
  - apply wp_bind, wp_lift.
    destruct (compute_depth_information G tree) as [di|e|] eqn:Hdi;
      [|done..].
    unfold Logic.after. apply wp_ret. unfold Logic.wp.
    destruct (fixed_head_draw
      (filter (λ i, head (split tree !!! i) = head_node ∧ constraint ≤ di !!! i)
              (seq 0 (length (split tree)))) g Hg) as (outcome & -> & Hout).
    cbn [fst]. destruct outcome as [|i]; [done|].
    destruct Hout as (r & Hr & _).
    apply list_elem_of_lookup_2, Hin in Hr as [[Hh Hd] (token & Ht & Htot)].
    split; [|split; [|done]].
    + exists token. split; [done|]. by rewrite <- Htot.
    + intros _. by exists di.
  - apply wp_ret. unfold Logic.after, Logic.wp.
    destruct (fixed_head_draw
      (filter (λ i, head (split tree !!! i) = head_node)
              (seq 0 (length (split tree)))) g Hg) as (outcome & -> & Hout).
    cbn [fst]. destruct outcome as [|i].
    + intros _ i token Ht Hh.
      assert (i ∈ filter (λ i, head (split tree !!! i) = head_node)
                         (seq 0 (length (split tree)))) as Hi.
      { apply list_elem_of_filter. split.
        - by rewrite (list_lookup_total_correct _ _ _ Ht).
        - apply elem_of_seq. apply lookup_lt_Some in Ht. lia. }
      rewrite Hout in Hi. by apply elem_of_nil in Hi.
    + destruct Hout as (r & Hr & Hafter).
      pose proof (list_elem_of_lookup_2 _ _ _ Hr) as Hi.
      apply Hin in Hi as [Hh (token & Ht & Htot)].
      split; [|split; [done|]].
      * exists token. split; [done|]. by rewrite <- Htot.
      * intros _.
        set (l := filter (λ i, head (split tree !!! i) = head_node)
                         (seq 0 (length (split tree)))) in *.
        destruct (decide (1 < length l)%nat) as [Hlen|Hlen].
        -- left. destruct (lookup_lt_is_Some_2 l 0) as [j0 Hj0]; [lia|].
           pose proof (filter_seq_first _ _ _ _ _ _ Hj0 Hr (Hafter Hlen)) as Hlt.
           apply list_elem_of_lookup_2, Hin in Hj0 as [Hh0 (token0 & Ht0 & Htot0)].
           exists j0, token0. repeat split; [done..|]. by rewrite <- Htot0.
        -- right. intros j token' Ht' Hh'.
           assert (j ∈ l) as Hj.
           { apply list_elem_of_filter. split.
             - by rewrite (list_lookup_total_correct _ _ _ Ht').
             - apply elem_of_seq. apply lookup_lt_Some in Ht'. lia. }
           destruct l as [|x [|y l]]; [done| |simpl in Hlen; lia].
           apply list_elem_of_singleton in Hj as ->.
           destruct r as [|r]; [by injection Hr|done].
Qed.

Lemma rand_subtree_fixed_head_points_at_head_witness :
  (rand_subtree_fixed_head arithmetic "(S (S (T 1)) + (T 2))" "T" 0
     (const_tape half)).1 = Ret (Index 5) ∧
  (∃ token, split "(S (S (T 1)) + (T 2))" !! 5%nat = Some token ∧ head token = "T").
Proof.
  pose proof (rand_subtree_fixed_head_points_at_head arithmetic
                "(S (S (T 1)) + (T 2))" "T" 0 (const_tape half)) as H.
  assert ((rand_subtree_fixed_head arithmetic "(S (S (T 1)) + (T 2))" "T" 0
             (const_tape half)).1 = Ret (Index 5)) as E by (by vm_compute).
  rewrite E in H. split; [done|]. apply H. intros n. by vm_compute.
Defined.

End FixedHead.

(** ** [FloatHyperparameter]: sampling and neighbours *)

Section FloatSampling.

Import Float Logic Examples.
Local Open Scope Qc_scope.
Context (exp ln gauss : Qc → Qc).

Lemma pymin_pymax_between lo up v :
  lo ≤ up → lo ≤ pymin up (pymax lo v) ∧ pymin up (pymax lo v) ≤ up.
Proof.
  intros Hlu. unfold pymin, pymax.
  destruct (decide (lo < v)) as [Hv|Hv].
  - destruct (decide (v < up)) as [Hu|Hu].
    + split; by apply Qclt_le_weak.
    + split; [done|apply Qcle_refl].
  - destruct (decide (lo < up)) as [Hu|Hu].
    + split; [apply Qcle_refl|done].
    + split; [done|apply Qcle_refl].
Qed.

(** An object that [__init__] has built and [sample] has sampled holds a
    number between its bounds, whatever the scale and whatever [exp] and
    [log] compute: the draw is clamped. [sample] reads two variates and
    changes nothing else than the value and the identifier. *)
Theorem float_sample_is_within_bounds name lo up scale self g :
  init name lo up scale = Ret self →
  ∃ v,
    sample exp ln self g
    = (Ret (set_id (tape g (S (pos g))) (set_value (Some (fin v)) self)),
       (next (next g).2).2) ∧
    lo ≤ v ∧ v ≤ up.
Proof.
  unfold init. case_decide as Hlu; [done|].
  destruct (scale && _); [done|]. intros [= <-].
  assert (lo ≤ up) as Hle.
  { apply Qclt_le_weak. by apply Qcnot_le_lt. }
  unfold sample, uniform, Py.bind, Py.ret, rand. cbn [lower upper Float.log].
  destruct scale; cbn [next fst snd]; eexists; (split; [reflexivity|]);
    by apply pymin_pymax_between.
Qed.

Lemma copy_valid self :
  valid self →
  copy self = Ret {| name := name self; lower := lower self; upper := upper self;
                     log := log self; value := None; _id := -1 |}.
Proof.
  intros [Hlu Hlog]. unfold copy, init.
  destruct (decide (upper self ≤ lower self)) as [Hle|_].
  { by destruct (Qclt_not_le _ _ Hlu). }
  destruct (log self); [|done]. simpl.
  case_bool_decide as Hneg; [|done].
  by destruct (Qclt_not_le _ _ (Hlog eq_refl)).
Qed.

Lemma neighbours_loop_shape fuel self0 self std n nbs g :
  0 ≤ std → valid self → has_number self →
  name self = name self0 → lower self = lower self0 →
  upper self = upper self0 → log self = log self0 →
  Forall (neighbour_of self0) nbs → (length nbs ≤ n)%nat →
  wp (neighbours_loop gauss fuel self std n nbs)
     (λ r _, match r with
             | Ret l => length l = n ∧ Forall (neighbour_of self0) l
             | Raise _ => False
             | Diverge => True
             end) g.
Proof.
  intros Hstd Hvalid [m Hm] Hname Hlo Hup Hlog. revert nbs g.
  induction fuel as [|fuel IH]; intros nbs g Hnbs Hlen;
    unfold neighbours_loop; fold (neighbours_loop gauss);
    (destruct (decide (length nbs < n)%nat) as [Hlt|Hge];
     [|apply wp_ret; split; [lia|done]]); [done|].
  rewrite Hm. apply wp_bind, wp_lift. unfold after.
  apply wp_bind. unfold normal.
  destruct (decide (std < 0)) as [Hneg|_].
  { by destruct (Qclt_not_le _ _ Hneg). }
  apply wp_bind, wp_rand. unfold after.
  apply wp_ret. unfold after.
  case_decide; [by apply IH|].
  rewrite (copy_valid _ Hvalid). apply wp_bind, wp_lift. unfold after.
  apply wp_bind, wp_lift. unfold after. cbn [_inv_transform inv_transform_value
    set_value value lower upper Py.rbind].
  apply wp_bind, wp_rand. unfold after. apply IH.
  - apply Forall_app. split; [done|]. apply Forall_singleton.
    repeat split; try done. by eexists.
  - rewrite length_app. simpl. lia.
Qed.

(** [_get_neighbours] of a [FloatHyperparameter]: before the parameter
    is sampled it raises [TypeError], on a NaN value [ValueError], and in
    both cases [self] and the generator are left as they were. On an
    object that [__init__] accepts and that holds a number between its
    bounds, the bounds no further apart than the largest float, and with a
    standard deviation that is not negative, it does not raise: either the
    loop goes on rejecting draws, or the call returns exactly
    [num_neighbours] neighbours, each with the name, bounds and scale of
    [self] and a number as its value. *)
Theorem float_neighbours_keep_the_bounds fuel std num_neighbours self g :
  (value self = None →
   _get_neighbours gauss fuel std num_neighbours (self, g)
   = (Raise TypeError, (self, g))) ∧
  (value self = Some nan →
   _get_neighbours gauss fuel std num_neighbours (self, g)
   = (Raise ValueError, (self, g))) ∧
  (0 ≤ std → valid self → in_range self →
   match (_get_neighbours gauss fuel std num_neighbours (self, g)).1 with
   | Ret neighbours =>
       length neighbours = num_neighbours ∧
       Forall (neighbour_of self) neighbours
   | Raise _ => False
   | Diverge => True
   end).
Proof.
  split; [|split].
  - intros Hv. unfold _get_neighbours, Py.bind, update_self, _transform.
    by rewrite Hv.
  - intros Hv. unfold _get_neighbours, Py.bind, update_self, _transform.
    by rewrite Hv.
  - intros Hstd Hvalid (_ & x & Hx & _).
    enough (wp (_get_neighbours gauss fuel std num_neighbours)
               (λ r _, match r with
                       | Ret l => length l = num_neighbours ∧
                                  Forall (neighbour_of self) l
                       | Raise _ => False
                       | Diverge => True
                       end) (self, g)) as Hwp by exact Hwp.
    unfold _get_neighbours. apply wp_bind.
    unfold wp at 1. unfold update_self, _transform, transform_value.
    rewrite Hx. destruct Hvalid as [Hlu Hlog].
    destruct (decide (upper self - lower self = 0)) as [E|_].
    { apply Qcminus_pos in Hlu. rewrite E in Hlu.
      by destruct (Qclt_not_eq _ _ Hlu). }
    cbn [Py.rbind fst snd]. unfold after.
    apply wp_bind, wp_gets. unfold after. cbn [fst].
    apply wp_bind, wp_on_rng.
    eapply wp_mono; [|apply (neighbours_loop_shape fuel self); try done].
    + intros [l|e|] g' Hr; unfold after; [|done..].
      apply wp_bind. unfold wp, update_self, after. simpl. done.
    + by eexists.
    + simpl. lia.
Qed.

End FloatSampling.

Section FloatSamplingRuns.

Import Float Logic Examples.
Local Open Scope Qc_scope.

Lemma float_sample_is_within_bounds_witness :
  ∃ v,
    sample id id (set_value None (set_id (-1) unit_float))
           (const_tape (Q2Qc (1 # 4)))
    = (Ret (set_id (Q2Qc (1 # 4))
              (set_value (Some (fin v)) (set_value None (set_id (-1) unit_float)))),
       (next (next (const_tape (Q2Qc (1 # 4)))).2).2) ∧
    0 ≤ v ∧ v ≤ 1.
Proof.
  apply (float_sample_is_within_bounds id id "x" 0 1 false
           (set_value None (set_id (-1) unit_float))
           (const_tape (Q2Qc (1 # 4)))).
  reflexivity.
Defined.

Lemma float_neighbours_keep_the_bounds_witness :
  match (_get_neighbours id 5 (Q2Qc (1 # 5)) 1
           (unit_float, const_tape (Q2Qc (1 # 4)))).1 with
  | Ret neighbours =>
      length neighbours = 1%nat ∧ Forall (neighbour_of unit_float) neighbours
  | Raise _ => False
  | Diverge => True
  end.
Proof.
  apply (float_neighbours_keep_the_bounds id 5 (Q2Qc (1 # 5)) 1 unit_float
           (const_tape (Q2Qc (1 # 4)))).
  - done.
  - split; [done|]. intros [=].
  - split; [by vm_compute|]. exists half. by repeat split.
Defined.

End FloatSamplingRuns.

(** ** [CategoricalParameter]: sampling and neighbours *)

Section CategoricalSampling.

Import Categorical CategoricalShape Logic.
Local Open Scope Qc_scope.
Context {V : Type} `{EqDecision V}.
Implicit Types (self : CategoricalParameter V) (x : list V).

Lemma cumsum_length acc p : length (cumsum acc p) = length p.
Proof. revert acc. induction p as [|q p IH]; intros acc; simpl; [done|by rewrite IH]. Qed.

Lemma cumsum_pos acc p :
  0 ≤ acc → Forall (λ q, 0 < q) p → Forall (λ c, 0 < c) (cumsum acc p).
Proof.
  intros Hacc Hp. revert acc Hacc.
  induction Hp as [|q p Hq _ IH]; intros acc Hacc; simpl; [done|].
  assert (0 < acc + q) as Hpos.
  { apply Qclt_le_trans with q; [done|].
    rewrite <- (Qcplus_0_l q) at 1. by apply Qcplus_le_mono_r. }
  apply Forall_cons. split; [done|]. apply IH. by apply Qclt_le_weak.
Qed.

Lemma last_default_elem (l : list Qc) d : l ≠ [] → List.last l d ∈ l.
Proof.
  induction l as [|a [|b l] IH]; intros Hne; [done|by left|].
  right. by apply IH.
Qed.

(** The index that [np.random.choice] draws is below the number of
    probabilities when they are positive. *)
Lemma np_choice_range n p g :
  unit_tape g → length p = S n → Forall (λ q, 0 < q) p →
  ∃ k, np_choice (S n) p g = (Ret (Z.of_nat k), (next g).2) ∧ (k < S n)%nat.
Proof.
  intros Hg Hlen Hp. unfold np_choice, Py.bind, Py.ret, rand. cbn [next fst snd].
  eexists. split; [reflexivity|].
  set (cdf := cumsum 0 p). set (total := List.last cdf 1).
  assert (cdf ≠ []) as Hne.
  { intros E. apply (f_equal length) in E. unfold cdf in E.
    rewrite cumsum_length, Hlen in E. done. }
  pose proof (last_default_elem cdf 1 Hne) as Hlast. fold total in Hlast.
  assert (0 < total) as Htotal.
  { pose proof (cumsum_pos 0 p (Qcle_refl 0) Hp) as Hall.
    rewrite Forall_forall in Hall. by apply Hall. }
  rewrite <- Hlen, <- (cumsum_length 0 p). fold cdf.
  apply (length_filter_lt _ _ total Hlast).
  assert (total / total = 1) as ->.
  { unfold Qcdiv. apply Qcmult_inv_r. intros E. rewrite E in Htotal.
    by apply (Qclt_not_eq _ _ Htotal). }
  apply Qclt_not_le. apply Hg.
Qed.

(** [CategoricalParameter(choices)] and [sample]: for an empty list of
    choices [__init__] raises [ZeroDivisionError], so that there is no
    object to sample; for any other list it returns an object on which
    [sample], whatever value the object holds, reads one variate and sets
    the value to one of the choices, leaving the rest of the object as it
    was. *)
Theorem categorical_sample_picks_a_choice (options : list V) old g :
  unit_tape g →
  (options = [] → init options = Raise ZeroDivisionError) ∧
  (options ≠ [] →
   ∃ self v,
     init options = Ret self ∧
     choices self = options ∧
     sample (set_value old self) g
     = (Ret (set_value (Some v) (set_value old self)), (next g).2) ∧
     v ∈ options).
Proof.
  intros Hg. split.
  - by intros ->.
  - intros Hne.
    assert (init options = Ret (constructed options)) as Hinit
      by by destruct options.
    enough (∃ v, sample (set_value old (constructed options)) g
                 = (Ret (set_value (Some v) (set_value old (constructed options))),
                    (next g).2) ∧ v ∈ options) as (v & Hs & Hv)
      by by exists (constructed options), v.
    unfold sample, Py.bind.
    cbn [set_value constructed num_choices probabilities choices].
    destruct (length options) as [|n] eqn:Hlen; [by destruct options|].
    destruct (np_choice_range n (replicate (S n) (1 / Qc_of_Z (Z.of_nat (S n)))) g Hg)
      as (k & -> & Hk).
    + by rewrite length_replicate.
    + apply Forall_replicate.
      assert (0 < Qc_of_Z (Z.of_nat (S n))) as Hn by (apply Qc_of_nat_pos; lia).
      apply (Qcmult_lt_mono_pos_r _ _ _ Hn).
      rewrite Qcmult_0_l, Qcdiv_mult_cancel; [done|].
      intros E. rewrite E in Hn. by apply (Qclt_not_eq _ _ Hn).
    + destruct (lookup_lt_is_Some_2 options k) as [v Hv]; [lia|].
      exists v. unfold Py.lift. rewrite (index_nat _ _ _ Hv).
      split; [done|]. by eapply list_elem_of_lookup_2.
Qed.

(** *** [random.shuffle] keeps the items *)

Lemma swap_lookup i j x a b k :
  x !! i = Some a → x !! j = Some b →
  swap i j x !! k
  = if decide (k = j) then Some a else if decide (k = i) then Some b else x !! k.
Proof.
  intros Hi Hj. unfold swap. rewrite Hi, Hj.
  pose proof (lookup_lt_Some _ _ _ Hi). pose proof (lookup_lt_Some _ _ _ Hj).
  rewrite !list_lookup_insert, !length_insert.
  repeat case_decide; first [done|lia|tauto|intuition (congruence || lia)].
Qed.

Lemma swap_keeps i j x :
  length (swap i j x) = length x ∧
  (∀ v, v ∈ swap i j x → v ∈ x) ∧
  (NoDup x → NoDup (swap i j x)).
Proof.
  destruct (x !! i) as [a|] eqn:Hi; [destruct (x !! j) as [b|] eqn:Hj|];
    [|by unfold swap; rewrite Hi, ?Hj..].
  split; [|split].
  - unfold swap. by rewrite Hi, Hj, !length_insert.
  - intros v [k Hk]%list_elem_of_lookup.
    rewrite (swap_lookup _ _ _ _ _ _ Hi Hj) in Hk.
    repeat case_decide; simplify_eq; by eapply list_elem_of_lookup_2.
  - rewrite !NoDup_alt. intros Hx k1 k2 v.
    rewrite !(swap_lookup _ _ _ _ _ _ Hi Hj).
    repeat case_decide; intros; simplify_eq; try done;
      try (exfalso; naive_solver).
    by eapply Hx.
Qed.

Lemma shuffle_from_keeps i x g :
  ∃ l, (shuffle_from i x g).1 = Ret l ∧ length l = length x ∧
       (∀ v, v ∈ l → v ∈ x) ∧ (NoDup x → NoDup l).
Proof.
  revert x g. induction i as [|i IH]; intros x g; simpl.
  { exists x. done. }
  unfold Py.bind, rand. cbn [next fst snd].
  destruct (swap_keeps (S i)
              (Z.to_nat (randbelow (Z.of_nat (S (S i))) (tape g (pos g)))) x)
    as (Hlen & Hin & Hnd).
  destruct (IH (swap (S i)
                  (Z.to_nat (randbelow (Z.of_nat (S (S i))) (tape g (pos g)))) x)
               {| tape := tape g; pos := S (pos g) |}) as (l & Hl & Hl1 & Hl2 & Hl3).
  exists l. split; [exact Hl|]. split; [congruence|]. split; [auto|auto].
Qed.

Lemma is_value_false self choice :
  is_value self choice = false → Some choice ≠ value self.
Proof.
  unfold is_value. destruct (value self) as [v|]; [|done].
  intros Hne%bool_decide_eq_false. congruence.
Qed.

Lemma neighbours_loop_others fuel self shuffled n idx nbs g :
  (∀ v, v ∈ shuffled → v ∈ choices self) →
  Forall (other_choice self) nbs → (length nbs ≤ n)%nat →
  wp (neighbours_loop fuel self shuffled n idx nbs)
     (λ r _, match r with
             | Ret l => length l = n ∧ Forall (other_choice self) l
             | Raise e => lookup_error e
             | Diverge => True
             end) g.
Proof.
  intros Hsh. revert idx nbs g.
  induction fuel as [|fuel IH]; intros idx nbs g Hnbs Hlen;
    unfold neighbours_loop; fold (@neighbours_loop V _);
    (destruct (decide (length nbs < n)%nat) as [Hlt|Hge];
     [|apply wp_ret; split; [lia|done]]); [done|].
  apply wp_bind.
  assert (∀ choice idx' g', choice ∈ choices self →
    after (λ picked : V * nat,
             let '(choice, idx) := picked in
             if is_value self choice
             then neighbours_loop fuel self shuffled n idx nbs
             else neighbours_loop fuel self shuffled n idx
                    (nbs ++ [set_value (Some choice) (copy self)]))
          (λ r _, match r with
                  | Ret l => length l = n ∧ Forall (other_choice self) l
                  | Raise e => lookup_error e
                  | Diverge => True
                  end) (Ret (choice, idx')) g') as Hstep.
  { intros choice idx' g' Hin. unfold after.
    destruct (is_value self choice) eqn:Hv; [by apply IH|].
    apply IH.
    - apply Forall_app. split; [done|]. apply Forall_singleton.
      repeat split. exists choice. repeat split; [done|].
      by apply is_value_false.
    - rewrite length_app. simpl. lia. }
  case_decide.
  - apply wp_bind, wp_np_randint; unfold after; [|by left].
    intros z. apply wp_bind, wp_index; unfold after; [|by right].
    intros choice Hin. by apply wp_ret, Hstep.
  - apply wp_bind, wp_index; unfold after; [|by right].
    intros choice Hin. apply wp_ret, Hstep. by apply Hsh.
Qed.

(** [_get_neighbours] of a [CategoricalParameter] returns exactly
    [num_neighbours] neighbours, each a copy of the parameter that holds
    one of its choices other than the current value; or it raises
    [IndexError] (the shuffled choices are used up) or [ValueError] (there
    is no choice to draw from); or it does not end. *)
Theorem categorical_neighbours_are_other_choices fuel self num_neighbours g :
  match (_get_neighbours fuel self num_neighbours g).1 with
  | Ret neighbours =>
      length neighbours = num_neighbours ∧
      Forall (other_choice self) neighbours
  | Raise e => e = ValueError ∨ e = IndexError
  | Diverge => True
  end.
Proof.
  enough (wp (_get_neighbours fuel self num_neighbours)
             (λ r _, match r with
                     | Ret l => length l = num_neighbours ∧
                                Forall (other_choice self) l
                     | Raise e => lookup_error e
                     | Diverge => True
                     end) g) as Hwp by exact Hwp.
  unfold _get_neighbours. apply wp_bind. unfold wp at 1, shuffle.
  destruct (shuffle_from_keeps (length (choices self) - 1) (choices self) g)
    as (l & Hl & _ & Hin & _).
  destruct (shuffle_from _ _ g) as [r g']. simpl in Hl. subst r. unfold after.
  apply neighbours_loop_others; [done|done|simpl; lia].
Qed.

Lemma neighbours_loop_finds fuel self c0 c1 shuffled g :
  (2 ≤ num_choices self)%nat → NoDup (c0 :: c1 :: shuffled) →
  wp (neighbours_loop (S (S fuel)) self (c0 :: c1 :: shuffled) 1 0 [])
     (λ r _, ∃ choice,
        r = Ret [set_value (Some choice) (copy self)] ∧
        choice ∈ c0 :: c1 :: shuffled ∧ is_value self choice = false) g.
Proof.
  intros Hnum Hnd.
  assert (∀ k idx choice g1,
    choice ∈ c0 :: c1 :: shuffled → is_value self choice = false →
    wp (neighbours_loop k self (c0 :: c1 :: shuffled) 1 idx
          ([] ++ [set_value (Some choice) (copy self)]))
       (λ r _, ∃ choice,
          r = Ret [set_value (Some choice) (copy self)] ∧
          choice ∈ c0 :: c1 :: shuffled ∧ is_value self choice = false) g1)
    as Hdone.
  { intros k idx choice g1 Hin Hv. exists choice. by destruct k. }
  unfold neighbours_loop at 1; fold (@neighbours_loop V _). cbn [length].
  destruct (decide (0 < 1)%nat) as [_|?]; [|lia].
  destruct (decide (Z.of_nat (num_choices self) - 1 < Z.of_nat 1)%Z) as [?|_];
    [lia|].
  apply wp_bind, wp_bind, wp_lift.
  change (Py.index (c0 :: c1 :: shuffled) (Z.of_nat 0)) with (Ret c0).
  unfold after at 1. apply wp_ret. unfold after at 1.
  destruct (is_value self c0) eqn:Hv0;
    [|exists c0; split; [reflexivity|split; [by left|done]]].
  unfold neighbours_loop at 1; fold (@neighbours_loop V _). cbn [length].
  destruct (decide (0 < 1)%nat) as [_|?]; [|lia].
  destruct (decide (Z.of_nat (num_choices self) - 1 < Z.of_nat 1)%Z) as [?|_];
    [lia|].
  apply wp_bind, wp_bind, wp_lift.
  change (Py.index (c0 :: c1 :: shuffled) (Z.of_nat 1)) with (Ret c1).
  unfold after at 1. apply wp_ret. unfold after at 1.
  assert (is_value self c1 = false) as Hv1.
  { unfold is_value in *. destruct (value self) as [v|]; [|done].
    apply bool_decide_eq_true in Hv0. subst v.
    apply bool_decide_eq_false_2. intros ->.
    apply NoDup_cons in Hnd as [Hnot _]. apply Hnot. by left. }
  rewrite Hv1. apply Hdone; [|done]. right. by left.
Qed.

(** With at least two choices, all distinct, [mutate] by local search
    returns: the child is a copy that holds another of the choices. Two
    passes of the loop are enough, since the value can come first in the
    shuffled choices only once. *)
Theorem categorical_mutate_finds_another_choice (options : list V) old fuel g :
  NoDup options → (2 ≤ length options)%nat →
  ∃ child,
    (mutate (S (S fuel)) (set_value old (constructed options)) None local_search g).1
    = Ret child ∧
    other_choice (set_value old (constructed options)) child.
Proof.
  intros Hnd Hlen. set (self := set_value old (constructed options)).
  enough (wp (mutate (S (S fuel)) self None local_search)
             (λ r _, ∃ child, r = Ret child ∧ other_choice self child) g)
    as Hwp by exact Hwp.
  unfold mutate. apply wp_bind, wp_bind. unfold _get_neighbours.
  apply wp_bind. unfold wp at 1, shuffle.
  destruct (shuffle_from_keeps (length (choices self) - 1) (choices self) g)
    as (l & Hl & Hll & Hin & Hndl). specialize (Hndl Hnd).
  destruct (shuffle_from _ _ g) as [r g']. simpl in Hl. subst r.
  change (choices self) with options in *. unfold after at 1. cbn [fst snd].
  destruct l as [|c0 [|c1 l]]; [simpl in Hll; lia..|].
  eapply wp_mono; [|by apply neighbours_loop_finds].
  intros r g1 (choice & -> & Hc & Hv). unfold after at 1.
  apply wp_lift. unfold after. cbn [Py.index]. simpl.
  apply is_value_false in Hv.
  rewrite bool_decide_eq_false_2 by (intros E; apply Hv; symmetry; exact E).
  apply wp_ret. eexists. split; [done|]. repeat split.
  exists choice. repeat split; [|done]. by apply Hin.
Qed.

(** With choices that all equal the current value and at least as many
    neighbours asked for as there are choices, the loop of
    [_get_neighbours] draws the value again and again: the call does not
    end. For [mutate], which asks for one neighbour, this is the
    parameter with a single choice. *)
Theorem categorical_neighbours_never_end (options : list V) v num_neighbours fuel g :
  unit_tape g → options ≠ [] → Forall (λ c, c = v) options →
  (length options ≤ num_neighbours)%nat →
  (_get_neighbours fuel (set_value (Some v) (constructed options)) num_neighbours g).1
  = Diverge ∧
  (num_neighbours = 1%nat →
   (mutate fuel (set_value (Some v) (constructed options)) None local_search g).1
   = Diverge).
Proof.
  intros Hg Hne Hall Hlen. set (self := set_value (Some v) (constructed options)).
  assert (∀ shuffled idx g', unit_tape g' →
            (neighbours_loop fuel self shuffled num_neighbours idx [] g').1
            = Diverge) as Hloop.
  { intros shuffled. induction fuel as [|fuel IH]; intros idx g' Hg';
      unfold neighbours_loop; fold (@neighbours_loop V _); cbn [length];
      (destruct (decide (0 < num_neighbours)%nat) as [_|?];
       [|destruct options; simpl in *; [done|lia]]); [done|].
    assert (num_choices self = length options) as Hnum by done.
    destruct (decide (Z.of_nat (num_choices self) - 1 < Z.of_nat num_neighbours)%Z)
      as [_|?]; [|lia].
    unfold Py.bind at 1 2 3. unfold np_randint. rewrite Hnum.
    destruct (decide (0 < Z.of_nat (length options))%Z) as [Hpos|?];
      [|destruct options; simpl in *; [done|lia]].
    cbn [next fst snd]. destruct (Hg' (pos g')) as [H0 H1].
    pose proof (randbelow_range _ _ Hpos H0 H1) as Hr.
    rewrite Z.sub_0_r.
    set (r := randbelow (Z.of_nat (length options)) (tape g' (pos g'))) in *.
    destruct (lookup_lt_is_Some_2 options (Z.to_nat (0 + r))) as [c Hc]; [lia|].
    unfold Py.lift at 1. change (choices self) with options.
    rewrite <- (Z2Nat.id (0 + r)) by lia. rewrite (index_nat _ _ _ Hc).
    unfold Py.ret at 1.
    rewrite Forall_forall in Hall.
    rewrite (Hall c (list_elem_of_lookup_2 _ _ _ Hc)).
    assert (is_value self v = true) as -> by (by apply bool_decide_eq_true_2).
    by apply IH. }
  assert ((_get_neighbours fuel self num_neighbours g).1 = Diverge) as Hnb.
  { unfold _get_neighbours, Py.bind, shuffle.
    destruct (shuffle_from_keeps (length (choices self) - 1) (choices self) g)
      as (l & Hl & _).
    destruct (shuffle_from _ _ g) as [r g'] eqn:Hsh. simpl in Hl. subst r.
    apply Hloop. clear -Hg Hsh.
    assert (tape g' = tape g) as Ht.
    { revert Hsh. generalize (length (choices self) - 1)%nat.
      generalize (choices self).
      clear. intros x i. revert g x. induction i as [|i IH]; intros g x; simpl.
      - unfold Py.ret. by intros [= _ <-].
      - unfold Py.bind, rand. cbn [next fst snd]. intros Hsh.
        by apply IH in Hsh. }
    intros k. rewrite Ht. apply Hg. }
  split; [done|]. intros ->. unfold mutate. unfold Py.bind at 1 2.
  fold self. destruct (_get_neighbours fuel self 1 g) as [r g'].
  simpl in Hnb. by subst r.
Qed.

End CategoricalSampling.

Section CategoricalSamplingRuns.

Import Categorical CategoricalShape Examples.

Lemma categorical_sample_picks_a_choice_witness :
  init (V := Z) [] = Raise ZeroDivisionError ∧
  ∃ self v,
    init [1; 2; 3] = Ret self ∧
    choices self = [1; 2; 3] ∧
    sample (set_value None self) (const_tape half)
    = (Ret (set_value (Some v) (set_value None self)), (next (const_tape half)).2) ∧
    v ∈ [1; 2; 3].
Proof.
  assert (unit_tape (const_tape half)) as Hg by (intros n; by vm_compute).
  split.
  - by apply (categorical_sample_picks_a_choice (V := Z) [] None (const_tape half)).
  - by apply (categorical_sample_picks_a_choice [1; 2; 3] None (const_tape half)).
Defined.

Lemma categorical_mutate_finds_another_choice_witness :
  ∃ child,
    (mutate 2 (one_two_three 1) None local_search (const_tape half)).1
    = Ret child ∧
    other_choice (one_two_three 1) child.
Proof.
  apply (categorical_mutate_finds_another_choice [1; 2; 3] (Some 1) 0
           (const_tape half)).
  - by apply (bool_decide_unpack _).
  - simpl. lia.
Defined.

Lemma categorical_neighbours_never_end_witness :
  (_get_neighbours 50 (set_value (Some 1) (constructed [1])) 1 (const_tape half)).1
  = Diverge ∧
  (1%nat = 1%nat →
   (mutate 50 (set_value (Some 1) (constructed [1])) None local_search
      (const_tape half)).1 = Diverge).
Proof.
  apply (categorical_neighbours_never_end [1] 1 1 50 (const_tape half)).
  - intros n. by vm_compute.
  - done.
  - by apply Forall_singleton.
  - simpl. lia.
Defined.

End CategoricalSamplingRuns.

(** ** [SearchSpace]: what [mutate] and [crossover] keep *)

Section SearchSpaceShape.

Import SearchSpace Logic.
Context {H P : Type} `{Hyperparameter H P}.
Implicit Types (kwargs d : list (string * P)).

Lemma child_of_same_length kwargs (new_config : list P) :
  NoDup kwargs.*1 → length new_config = length kwargs →
  keys (child_of (init kwargs) new_config) = kwargs.*1 ∧
  get_array (child_of (init kwargs) new_config) = new_config ∧
  _num_hps (child_of (init kwargs) new_config) = length kwargs.
Proof.
  intros Hnd Hlen. unfold child_of, keys, get_array. cbn [hyperparameters init].
  assert ((zip kwargs.*1 new_config).*1 = kwargs.*1) as Hfst.
  { apply fmap_zip_with_l; [done|]. rewrite length_fmap. lia. }
  assert ((zip kwargs.*1 new_config).*2 = new_config) as Hsnd.
  { apply fmap_zip_with_r; [done|]. rewrite length_fmap. lia. }
  rewrite dict_NoDup by (by rewrite Hfst).
  rewrite Hfst, Hsnd. split; [done|]. split; [done|]. cbn [_num_hps init].
  by rewrite length_zip_with, length_fmap, Hlen, Nat.min_id.
Qed.

Lemma mutation_attempts_cases patience hp idx new_config s :
  match (mutation_attempts patience hp idx new_config s).1 with
  | Ret config => config = new_config ∨ ∃ child, config = <[idx := child]> new_config
  | Raise _ => False
  | Diverge => True
  end.
Proof.
  revert s. induction patience as [|patience IH]; intros s; simpl; [by left|].
  destruct (hp_mutate hp s) as [[child|e|] s']; simpl; [|apply IH|done].
  right. by exists child.
Qed.

(** [mutate] of a [SearchSpace] swallows whatever the parameter's
    [mutate] raises: on a space with at least one parameter it never
    raises. It raises [ValueError] on a space without parameters (the
    range of [random.randint] is empty) and [NotImplementedError] for a
    strategy other than [smbo], in both cases before anything is drawn. *)
Theorem search_space_mutate_raises_only_at_its_edges kwargs patience strategy
    (h : H) (g : rng) :
  (strategy ≠ "smbo" →
   mutate (init kwargs) patience strategy (h, g) = (Raise NotImplementedError, (h, g))) ∧
  (kwargs = [] →
   mutate (init kwargs) patience "smbo" (h, g) = (Raise ValueError, (h, g))) ∧
  (kwargs ≠ [] → unit_tape g →
   is_raise (mutate (init kwargs) patience "smbo" (h, g)).1 = false).
Proof.
  split; [|split].
  - intros Hs. unfold mutate. by destruct (decide (strategy = "smbo")).
  - by intros ->.
  - intros Hne Hg.
    assert (0 < Z.of_nat (length kwargs))%Z as Hlen.
    { destruct kwargs; [done|simpl; lia]. }
    destruct (Hg (pos g)) as [Hu0 Hu1].
    pose proof (randbelow_range (Z.of_nat (length kwargs)) _ Hlen Hu0 Hu1) as Hrb.
    destruct (lookup_lt_is_Some_2 (get_array (init kwargs))
                (Z.to_nat (randbelow (Z.of_nat (length kwargs)) (tape g (pos g)))))
      as [hp Hhp].
    { unfold get_array. simpl. rewrite length_fmap. lia. }
    unfold mutate. destruct (decide ("smbo" = "smbo")) as [_|?]; [|done].
    unfold _smbo_mutation, Py.bind, on_rng, randint. simpl.
    destruct (decide (0 ≤ Z.of_nat (length kwargs) - 1)%Z) as [_|?]; [|lia].
    simpl. unfold Py.lift.
    replace (Z.of_nat (length kwargs) - 1 - 0 + 1)%Z
      with (Z.of_nat (length kwargs)) by lia.
    rewrite Z.add_0_l, <- (Z2Nat.id (randbelow _ _)) by lia.
    rewrite (index_nat _ _ _ Hhp). simpl.
    match goal with
    | |- context [mutation_attempts ?n ?hp ?idx ?c ?s] =>
        pose proof (mutation_attempts_cases n hp idx c s) as Hloop;
        destruct (mutation_attempts n hp idx c s) as [[config|e|] s']
    end; done.
Qed.

(** The child that [mutate] returns has the keys of the parent, in the
    same order, and its parameters are the parent's except at one
    index at most. *)
Theorem search_space_mutate_changes_at_most_one kwargs patience s child s' :
  NoDup kwargs.*1 →
  mutate (init kwargs) patience "smbo" s = (Ret child, s') →
  keys child = kwargs.*1 ∧ _num_hps child = length kwargs ∧
  ∃ idx, (idx < length kwargs)%nat ∧
         ∀ j, j ≠ idx → get_array child !! j = kwargs.*2 !! j.
Proof.
  intros Hnd. unfold mutate.
  destruct (decide ("smbo" = "smbo")) as [_|?]; [|done].
  unfold Py.bind at 1. unfold _smbo_mutation. unfold Py.bind at 1.
  destruct (on_rng _ s) as [[idx|e|] s1]; [|done..].
  unfold Py.bind at 1. unfold Py.lift.
  destruct (Py.index (get_array (init kwargs)) idx) as [hp|e|] eqn:Hidx; [|done..].
  pose proof (mutation_attempts_cases (Z.to_nat patience) hp (Z.to_nat idx)
                (get_array (init kwargs)) s1) as Hloop.
  destruct (mutation_attempts _ _ _ _ s1) as [[config|e|] s2]; [|done..].
  cbn [fst] in Hloop. unfold Py.ret. intros [= <- <-].
  assert (get_array (init kwargs) = kwargs.*2) as Harr by done.
  assert (length config = length kwargs) as Hlen.
  { destruct Hloop as [->|[c ->]]; rewrite ?length_insert, Harr, length_fmap; done. }
  destruct (child_of_same_length kwargs config Hnd Hlen) as (Hk & Ha & Hn).
  split; [done|]. split; [done|]. rewrite Ha.
  assert (Z.to_nat idx < length kwargs ∨ length kwargs ≤ Z.to_nat idx)%nat
    as [Hin|Hout] by lia.
  - exists (Z.to_nat idx). split; [done|]. intros j Hj.
    destruct Hloop as [->|[c ->]]; [done|].
    by rewrite list_lookup_insert_ne, Harr.
  - destruct kwargs as [|kv kwargs'] eqn:Ek.
    { unfold Py.index in Hidx. simpl in Hidx. by repeat case_decide. }
    exists 0%nat. split; [simpl; lia|]. intros j Hj.
    destruct Hloop as [->|[c ->]]; [done|].
    rewrite list_insert_ge; [done|]. rewrite Harr, length_fmap. exact Hout.
Qed.

Lemma dict_get_lookup d i key v :
  NoDup d.*1 → d !! i = Some (key, v) → dict_get d key = Ret v.
Proof.
  intros Hnd Hi. unfold dict_get.
  assert (list_find (λ kv : string * P, kv.1 = key) d = Some (i, (key, v))) as ->;
    [|done].
  apply list_find_Some. split; [done|]. split; [done|].
  intros j [k' v'] Hj Hlt Hk. simpl in Hk. subst k'.
  assert (d.*1 !! j = Some key) as H1 by (by rewrite list_lookup_fmap, Hj).
  assert (d.*1 !! i = Some key) as H2 by (by rewrite list_lookup_fmap, Hi).
  pose proof (NoDup_lookup _ _ _ _ Hnd H1 H2). lia.
Qed.

(** When no crossover is tried, every parameter is appended as it is. *)
Lemma crossover_items_none items others config2 probability patience
    (c1 c2 : list P) (h : H) (g : rng) :
  unit_tape g →
  (probability ≤ 0)%Qc ∨ (∀ hp, hp_crossover hp = None) →
  Forall2 (λ kv o, dict_get (hyperparameters config2) kv.1 = Ret o) items others →
  (crossover_items items config2 probability patience c1 c2 (h, g)).1
  = Ret (c1 ++ items.*2, c2 ++ others).
Proof.
  intros Hg Hnone Hall. revert c1 c2 g Hg.
  induction Hall as [|[key hp] o items others Ho _ IH]; intros c1 c2 g Hg.
  { simpl. by rewrite !app_nil_r. }
  cbn [crossover_items]. simpl in Ho. rewrite Ho.
  assert (∀ g', unit_tape g' →
    (Py.bind (Py.ret None)
       (λ attempt : option (P → M (H * rng) (option (P * P))),
          match attempt with
          | Some cross =>
              let* outcome := crossover_attempts patience hp cross (Ret o) in
              match outcome with
              | (patience, Some (child1, child2)) =>
                  crossover_items items config2 probability patience
                    (c1 ++ [child1]) (c2 ++ [child2])
              | (patience, None) =>
                  crossover_items items config2 probability patience c1 c2
              end
          | None =>
              let* o := Py.lift (Ret o) in
              crossover_items items config2 probability patience
                (c1 ++ [hp]) (c2 ++ [o])
          end) (h, g')).1
    = Ret (c1 ++ (key, hp).2 :: items.*2, c2 ++ o :: others)) as Hskip.
  { intros g' Hg'. unfold Py.bind, Py.ret, Py.lift. cbn [fst snd].
    rewrite IH by done. by rewrite <- !app_assoc. }
  destruct (hp_crossover hp) as [cross|] eqn:Hcross; [|by apply Hskip].
  destruct Hnone as [Hp|Hno]; [|by rewrite Hno in Hcross].
  unfold Py.bind at 1. unfold Py.bind at 1. unfold on_rng, rand.
  cbn [next fst snd]. unfold Py.ret at 1.
  destruct (decide (tape g (pos g) < probability)%Qc) as [Hlt|_].
  { exfalso. destruct (Hg (pos g)) as [Hu0 _].
    apply (Qclt_not_le _ _ Hlt). by etrans. }
  apply (Hskip {| tape := tape g; pos := S (pos g) |}). by apply unit_tape_next.
Qed.

(** When no crossover is tried (the probability is 0, or no parameter has
    a [crossover]), the two children of [crossover] are the two parents:
    every parameter is kept in both, under the keys of the first. *)
Theorem crossover_without_attempt_returns_the_parents kwargs1 kwargs2
    probability patience (h : H) (g : rng) :
  unit_tape g → NoDup kwargs1.*1 → kwargs2.*1 = kwargs1.*1 →
  (probability ≤ 0)%Qc ∨ (∀ hp, hp_crossover hp = None) →
  (crossover (init kwargs1) (init kwargs2) probability patience "simple" (h, g)).1
  = Ret (init kwargs1, init kwargs2).
Proof.
  intros Hg Hnd Hkeys Hnone. unfold crossover.
  destruct (decide ("simple" = "simple")) as [_|?]; [|done].
  unfold Py.bind, _simple_crossover.
  assert (Forall2 (λ kv o, dict_get (hyperparameters (init kwargs2)) kv.1 = Ret o)
                  kwargs1 kwargs2.*2) as Hall.
  { apply Forall2_same_length_lookup. split.
    { by rewrite length_fmap, <- (length_fmap fst kwargs2), Hkeys, length_fmap. }
    intros i [k1 v1] o H1 H2. cbn [hyperparameters init fst].
    rewrite list_lookup_fmap in H2.
    destruct (kwargs2 !! i) as [[k2 v2]|] eqn:E2; [|done].
    injection H2 as <-.
    assert (kwargs2.*1 !! i = Some k2) as Hk2 by (by rewrite list_lookup_fmap, E2).
    rewrite Hkeys, list_lookup_fmap, H1 in Hk2. injection Hk2 as ->.
    apply (dict_get_lookup kwargs2 i); [by rewrite Hkeys|done]. }
  pose proof (crossover_items_none kwargs1 kwargs2.*2 (init kwargs2) probability
                (Z.to_nat patience) [] [] h g Hg Hnone Hall) as Hitems.
  cbn [hyperparameters init] in *.
  destruct (crossover_items kwargs1 _ _ _ _ _ _) as [r s'].
  cbn [fst] in Hitems. subst r. unfold Py.ret. cbn [fst snd app].
  f_equal. f_equal.
  - unfold child_of, keys. cbn [hyperparameters init].
    by rewrite zip_fst_snd, dict_NoDup.
  - unfold child_of, keys. cbn [hyperparameters init].
    by rewrite <- Hkeys, zip_fst_snd, dict_NoDup by (by rewrite Hkeys).
Qed.

End SearchSpaceShape.

Section SearchSpaceShapeRuns.

Import SearchSpace Examples.
Local Open Scope Qc_scope.

Lemma search_space_mutate_raises_only_at_its_edges_witness :
  mutate (ops := categorical_parameter (V := Z) 5)
         (init (ops := categorical_parameter (V := Z) 5) []) 50 "smbo"
         ((), const_tape half)
  = (Raise ValueError, ((), const_tape half)) ∧
  is_raise (mutate (ops := categorical_parameter (V := Z) 5)
              (init (ops := categorical_parameter (V := Z) 5) [("x", one_one)]) 50 "smbo"
              ((), const_tape half)).1 = false.
Proof.
  split.
  - by apply (search_space_mutate_raises_only_at_its_edges
                (H0 := categorical_parameter (V := Z) 5) [] 50 "smbo" () (const_tape half)).
  - apply (search_space_mutate_raises_only_at_its_edges
             (H0 := categorical_parameter (V := Z) 5) [("x", one_one)] 50 "smbo" ()
             (const_tape half)); [done|].
    intros n. by vm_compute.
Defined.

Lemma search_space_mutate_changes_at_most_one_witness :
  ∃ child,
    (mutate (ops := categorical_parameter 5)
       (init (ops := categorical_parameter 5)
             [("x", one_two_three 1); ("y", one_two_three 2)]) 50 "smbo"
       ((), const_tape half)).1 = Ret child ∧
    keys child = ["x"; "y"] ∧ _num_hps child = 2%nat ∧
    ∃ idx, (idx < 2)%nat ∧
           ∀ j, j ≠ idx →
                get_array child !! j = [one_two_three 1; one_two_three 2] !! j.
Proof.
  destruct (mutate (ops := categorical_parameter 5)
              (init (ops := categorical_parameter 5)
                    [("x", one_two_three 1); ("y", one_two_three 2)]) 50 "smbo"
              ((), const_tape half)) as [[child|e|] s'] eqn:E;
    [|by vm_compute in E..].
  exists child. split; [done|].
  apply (search_space_mutate_changes_at_most_one (H0 := categorical_parameter 5)
           [("x", one_two_three 1); ("y", one_two_three 2)] 50
           ((), const_tape half) child s'); [|exact E].
  by apply (bool_decide_unpack _).
Defined.

Lemma crossover_without_attempt_returns_the_parents_witness :
  (crossover (ops := categorical_parameter 5)
     (init (ops := categorical_parameter 5) [("x", one_two_three 1)])
     (init (ops := categorical_parameter 5) [("x", one_two_three 2)])
     0 50 "simple" ((), const_tape half)).1
  = Ret (init (ops := categorical_parameter 5) [("x", one_two_three 1)],
         init (ops := categorical_parameter 5) [("x", one_two_three 2)]).
Proof.
  apply (crossover_without_attempt_returns_the_parents
           (H0 := categorical_parameter 5)
           [("x", one_two_three 1)] [("x", one_two_three 2)] 0 50 ()
           (const_tape half)).
  - intros n. by vm_compute.
  - apply NoDup_singleton.
  - done.
  - by left.
Defined.

End SearchSpaceShapeRuns.

(** ** [choice] without probabilities, and the modes of a grammar *)

Section ChoiceAndModes.

Import Sampler Methods Examples.
Local Open Scope Qc_scope.

(** A larger draw never stops the loop of [choice] earlier. *)
Lemma scan_mono x y cum i probs :
  x ≤ y →
  scan y cum i probs = (-1)%Z ∨
  (Z.of_nat i ≤ scan x cum i probs ≤ scan y cum i probs)%Z.
Proof.
  intros Hxy. revert cum i.
  induction probs as [|p ps IH]; intros cum i; simpl; [by left|].
  destruct (decide (y < cum + p)) as [Hy|Hy].
  - right. destruct (decide (x < cum + p)) as [_|Hx]; [lia|].
    destruct Hx. by eapply Qcle_lt_trans.
  - destruct (decide (x < cum + p)) as [_|_].
    + destruct (scan_range y (cum + p) (S i) ps) as [->|?]; [by left|right; lia].
    + destruct (IH (cum + p) (S i)) as [->|?]; [by left|right; lia].
Qed.

(** Without probabilities [choice] reads one variate and, of a list that
    is not empty, returns one of the options: the first one on the draw 0,
    and on a larger draw never an option at an earlier position; and every
    option has a draw between 0 and 1 that selects it. On the empty list
    [choice] divides by zero, after the draw. *)
Theorem choice_without_probabilities_is_monotone {A} (options : list A) g :
  (options = [] → choice options None g = (Raise ZeroDivisionError, (next g).2)) ∧
  (options ≠ [] →
   ∃ k o,
     options !! k = Some o ∧
     choice options None g = (Ret o, (next g).2) ∧
     (tape g (pos g) = 0 → k = 0%nat) ∧
     ∀ g', tape g (pos g) ≤ tape g' (pos g') →
       ∃ k' o', (k ≤ k')%nat ∧ options !! k' = Some o' ∧
                choice options None g' = (Ret o', (next g').2)) ∧
  (∀ k o, options !! k = Some o →
     ∃ u, 0 ≤ u ∧ u < 1 ∧
          ∀ g', tape g' (pos g') = u →
                choice options None g' = (Ret o, (next g').2)).
Proof.
  split; [by intros ->|]. split; [|apply choice_none_reaches]. intros Hne.
  set (n := length options).
  set (probs := replicate n (1 / Qc_of_Z (Z.of_nat n))).
  assert (0 < n)%nat as Hn by (subst n; destruct options; [done|simpl; lia]).
  assert (∀ x, scan x 0 0 probs = (-1)%Z ∨
               (0 ≤ scan x 0 0 probs < Z.of_nat (length options))%Z) as Hrange.
  { intros x. destruct (scan_range x 0 0 probs) as [?|Hs]; [by left|right].
    assert (length probs = n) as Hlen by apply length_replicate.
    rewrite Hlen in Hs. subst n. lia. }
  destruct (index_position options (scan (tape g (pos g)) 0 0 probs) Hne (Hrange _))
    as (k & o & Hi & Ho & Hlast & Hpos).
  exists k, o. split; [done|]. rewrite !choice_none_unfold by done.
  fold n probs. split; [by rewrite Hi|]. split.
  - intros Hu.
    assert (scan (tape g (pos g)) 0 0 probs = 0%Z) as Hs.
    { rewrite Hu. unfold probs.
      destruct (Nat.lt_exists_pred 0 n Hn) as (m & Hm & _). rewrite Hm.
      apply scan_first_draw, uniform_prob_pos. lia. }
    rewrite Hpos; rewrite Hs; [done|lia].
  - intros g' Hle. rewrite choice_none_unfold by done. fold n probs.
    destruct (index_position options (scan (tape g' (pos g')) 0 0 probs) Hne
                (Hrange _)) as (k' & o' & Hi' & Ho' & Hlast' & Hpos').
    exists k', o'. split; [|by rewrite Hi'].
    pose proof (lookup_lt_Some _ _ _ Ho) as Hk.
    destruct (scan_mono _ _ 0 0 probs Hle) as [Hs|Hs].
    + rewrite (Hlast' Hs). lia.
    + rewrite Hpos, Hpos' by lia. lia.
Qed.

Lemma choice_without_probabilities_is_monotone_witness :
  choice ([] : list string) None (const_tape half)
  = (Raise ZeroDivisionError, (next (const_tape half)).2) ∧
  ∃ k o,
    ["a"; "b"; "c"] !! k = Some o ∧
    choice ["a"; "b"; "c"] None (const_tape half)
    = (Ret o, (next (const_tape half)).2) ∧
    ∃ k' o', (k ≤ k')%nat ∧ ["a"; "b"; "c"] !! k' = Some o' ∧
             choice ["a"; "b"; "c"] None (const_tape (Q2Qc (3 # 4)))
             = (Ret o', (next (const_tape (Q2Qc (3 # 4)))).2).
Proof.
  split.
  - by apply (choice_without_probabilities_is_monotone [] (const_tape half)).
  - destruct (choice_without_probabilities_is_monotone ["a"; "b"; "c"]
                (const_tape half)) as (_ & Hsome & _).
    destruct Hsome as (k & o & Ho & Hrun & _ & Hmono); [done|].
    exists k, o. split; [done|]. split; [done|].
    apply (Hmono (const_tape (Q2Qc (3 # 4)))). by vm_compute.
Defined.

Lemma sampler_of_mode fuel G cfactor depth_information start_symbol (st : cstore) :
  convergent G && depth_constrained G = false →
  sampler fuel G 0 cfactor depth_information start_symbol st
  = (if depth_constrained G
     then match depth_constraints G with
          | None => Raise ValueError
          | Some _ => Ret []
          end
     else Ret [], st).
Proof.
  intros Hboth. unfold sampler. rewrite Hboth.
  destruct (convergent G), (depth_constrained G); try done; try by destruct st.
  destruct (depth_constraints G); by destruct st.
Qed.

(** The mode setters and the two guards of [sampler]. After any sequence
    of [set_depth_constraints], [set_convergent] and [set_unconstrained] on
    a grammar as [__init__] leaves it, the two modes are never set
    together, so that the first guard of [sampler] is never met, and the
    constraints are those of the last call when that is
    [set_depth_constraints], and [None] otherwise. The second guard is met
    after [set_depth_constraints(None)] and only then: [sampler], asked for
    no tree, raises [ValueError] when that was the last call and returns
    the empty list after every other sequence, the store left as it
    was. *)
Theorem sampler_guards_after_mode_setters G (calls : list mode_call)
    fuel cfactor depth_information start_symbol (st : cstore) :
  fresh G →
  let G' := foldl call G calls in
  convergent G' && depth_constrained G' = false ∧
  depth_constraints G'
  = match last calls with
    | Some (SetDepthConstraints depth_constraints) => depth_constraints
    | _ => None
    end ∧
  sampler fuel G' 0 cfactor depth_information start_symbol st
  = (match last calls with
     | Some (SetDepthConstraints None) => Raise ValueError
     | _ => Ret []
     end, st).
Proof.
  intros (Hc & Hd & Hn) G'.
  assert (convergent G' && depth_constrained G' = false) as Hboth.
  { subst G'. destruct calls as [|c calls _] using rev_ind.
    - simpl. by rewrite Hc, Hd.
    - rewrite foldl_app. by destruct c. }
  split; [done|].
  rewrite (sampler_of_mode _ _ _ _ _ _ Hboth). clear Hboth. subst G'.
  destruct calls as [|c calls _] using rev_ind.
  - simpl. by rewrite Hd, Hn.
  - rewrite foldl_app, last_snoc. destruct c as [[dc|]| |]; by simpl.
Qed.

Lemma sampler_guards_after_mode_setters_witness :
  let unset := foldl call arithmetic [SetConvergent; SetDepthConstraints None] in
  let set := foldl call arithmetic [SetDepthConstraints None; SetDepthConstraints (Some ∅)] in
  (depth_constrained unset = true ∧ depth_constraints unset = None ∧
   sampler 5 unset 0 half None None (∅, const_tape half)
   = (Raise ValueError, (∅, const_tape half))) ∧
  (depth_constraints set = Some ∅ ∧
   sampler 5 set 0 half None None (∅, const_tape half)
   = (Ret [], (∅, const_tape half))).
Proof.
  assert (fresh arithmetic) as Hfresh by by repeat split.
  split.
  - destruct (sampler_guards_after_mode_setters arithmetic
                [SetConvergent; SetDepthConstraints None] 5 half None None
                (∅, const_tape half) Hfresh) as (_ & Hdc & Hrun).
    by repeat split.
  - destruct (sampler_guards_after_mode_setters arithmetic
                [SetDepthConstraints None; SetDepthConstraints (Some ∅)] 5 half
                None None (∅, const_tape half) Hfresh) as (_ & Hdc & Hrun).
    by split.
Defined.

End ChoiceAndModes.
